(** * SK Kernel Counter: a shallow embedding of [sk_kernel_counter_batch.py]

    The script segments kernels from a scanned maize ear and groups them by
    fluorescence.  This development embeds the functions of the script as
    Rocq functions and states the properties of the specification against
    them.

    Conventions of the embedding.
    - A numpy array of two dimensions is a list of rows ([grid]); arrays read
      from a PNG have at least one row.
    - Integers (labels, pixel values, column indices) are [Z].
    - A float64 is a rational or one of the special values ([npfloat]).
      Where the script rounds a float to an integer, in the Edge Cropper, the
      float64 operations before it are rounded to the nearest float64
      ([nearest_float64]) and may overflow; the intensities of the later
      stages are idealised as exact rationals.
    - A Python exception is an [exn] carried by [result].
    - Functions of scikit-image, scipy and scikit-learn whose body is not in
      the script are fields of the interface [Toolkit]; the definitions of
      the script are parametric in it. *)

From Stdlib Require Import Ascii String.
From Stdlib Require Import ZArith QArith Qround Qminmax Qabs Qpower.
From Stdlib Require Import List Sorted Bool Lia Lqa.
Import ListNotations.
Open Scope Z_scope.

(** ** Exceptions *)

Inductive exn : Type :=
| ValueError
| IndexError
| OverflowError
| AssertionError
| LibraryError.

Inductive result (A : Type) : Type :=
| Ok (a : A)
| Raise (e : exn).

Arguments Ok {A} a.
Arguments Raise {A} e.

Definition bind {A B} (c : result A) (k : A -> result B) : result B :=
  match c with
  | Ok a => k a
  | Raise e => Raise e
  end.

Notation "x <- c ;; k" := (bind c (fun x => k))
  (at level 61, c at next level, right associativity).

(** ** Arrays *)

Definition grid (A : Type) : Type := list (list A).

(** [array.shape[1]] of an array with at least one row. *)
Definition shape1 {A} (a : grid A) : Z := Z.of_nat (length (hd [] a)).

(** [range(lo, hi)]. *)
Definition py_range (lo hi : Z) : list Z :=
  map (fun i => lo + Z.of_nat i) (seq 0 (Z.to_nat (hi - lo))).

(** Python's [int(round(x))] on a finite float: round half to even. *)
Definition py_round (x : Q) : Z :=
  let f := Qfloor x in
  match Qcompare (x - inject_Z f) (1 # 2) with
  | Lt => f
  | Gt => f + 1
  | Eq => if Z.even f then f else f + 1
  end.

(** A slice bound [i] of a sequence of length [n]: negative bounds count from
    the end, and every bound is clipped to [0, n]. *)
Definition slice_bound (n i : Z) : Z :=
  if i <? 0 then Z.max 0 (i + n) else Z.min i n.

(** [l[lo:hi]]. *)
Definition py_slice {A} (l : list A) (lo hi : Z) : list A :=
  let n := Z.of_nat (length l) in
  let start := slice_bound n lo in
  let stop := slice_bound n hi in
  firstn (Z.to_nat (stop - start)) (skipn (Z.to_nat start) l).

(** ** Floating-point values

    A float64 is a rational or one of the special values that an overflow or
    a division by zero produces; the two zeros are identified.  The sum and
    the quotient below are exact; the product and the difference of the Edge
    Cropper are rounded, further down. *)

Inductive npfloat : Type :=
| Finite (q : Q)
| PosInf
| NegInf
| NaN.

Definition is_nan (x : npfloat) : bool :=
  match x with NaN => true | _ => false end.

Definition Qltb (x y : Q) : bool :=
  match Qcompare x y with Lt => true | _ => false end.

Definition fadd (a b : npfloat) : npfloat :=
  match a, b with
  | NaN, _ | _, NaN => NaN
  | Finite x, Finite y => Finite (x + y)
  | PosInf, NegInf | NegInf, PosInf => NaN
  | PosInf, _ | _, PosInf => PosInf
  | NegInf, _ | _, NegInf => NegInf
  end.

Definition fdiv (a b : npfloat) : npfloat :=
  match a, b with
  | NaN, _ | _, NaN => NaN
  | Finite x, Finite y =>
      match Qcompare y 0 with
      | Eq => match Qcompare x 0 with Eq => NaN | Gt => PosInf | Lt => NegInf end
      | _ => Finite (x / y)
      end
  | Finite _, _ => Finite 0
  | PosInf, Finite y => if Qltb y 0 then NegInf else PosInf
  | NegInf, Finite y => if Qltb y 0 then PosInf else NegInf
  | _, _ => NaN
  end.

(** [a < b] on floats: false as soon as an operand is NaN. *)
Definition flt (a b : npfloat) : bool :=
  match a, b with
  | Finite x, Finite y => Qltb x y
  | NegInf, Finite _ | NegInf, PosInf | Finite _, PosInf => true
  | _, _ => false
  end.

Definition of_int (z : Z) : npfloat := Finite (inject_Z z).

Definition fsum (l : list npfloat) : npfloat := fold_left fadd l (Finite 0).

(** [np.mean]: the mean of no value is NaN (numpy warns and goes on). *)
Definition np_mean (l : list npfloat) : npfloat :=
  fdiv (fsum l) (of_int (Z.of_nat (length l))).

(** ** Rounding to float64

    A finite float64 is [m * 2 ^ e] with [|m| < 2 ^ 53] and [e] from -1074
    on.  An operation on floats returns the exact result rounded to the
    nearest such value, ties to the even [m], and an infinity when the
    rounded value reaches [2 ^ 1024]. *)

Definition pow2 (e : Z) : Q := (2 ^ e)%Q.

(** The exponent [k] with [2 ^ k <= q < 2 ^ (k + 1)], for a positive [q]. *)
Definition ilog2 (q : Q) : Z :=
  let k := Z.log2 (Qnum q) - Z.log2 (Zpos (Qden q)) in
  if Qle_bool (pow2 k) q then k else k - 1.

(** The exponent of the last of the 53 bits of [x]. *)
Definition float64_exponent (x : Q) : Z := Z.max (-1074) (ilog2 (Qabs x) - 52).

Definition nearest_float64 (x : Q) : Q :=
  let e := float64_exponent x in
  (inject_Z (py_round (x / pow2 e)) * pow2 e)%Q.

Definition to_float64 (x : Q) : npfloat :=
  let r := nearest_float64 x in
  if Qle_bool (pow2 1024) r then PosInf
  else if Qle_bool r (- pow2 1024) then NegInf
  else Finite r.

Definition fneg (a : npfloat) : npfloat :=
  match a with
  | Finite x => Finite (- x)
  | PosInf => NegInf
  | NegInf => PosInf
  | NaN => NaN
  end.

(** [a * b] on floats. *)
Definition mul_float64 (a b : npfloat) : npfloat :=
  match a, b with
  | NaN, _ | _, NaN => NaN
  | Finite x, Finite y => to_float64 (x * y)
  | Finite x, inf | inf, Finite x =>
      match Qcompare x 0 with Eq => NaN | Gt => inf | Lt => fneg inf end
  | PosInf, PosInf | NegInf, NegInf => PosInf
  | PosInf, NegInf | NegInf, PosInf => NegInf
  end.

(** [a - b] on floats. *)
Definition sub_float64 (a b : npfloat) : npfloat :=
  match a, b with
  | NaN, _ | _, NaN => NaN
  | Finite x, Finite y => to_float64 (x - y)
  | PosInf, PosInf | NegInf, NegInf => NaN
  | PosInf, _ | _, NegInf => PosInf
  | NegInf, _ | _, PosInf => NegInf
  end.

(** The float that Python makes of an int operand of a float operation. *)
Definition float_of_int (n : Z) : result npfloat :=
  match to_float64 (inject_Z n) with
  | Finite x => Ok (Finite x)
  | _ => Raise OverflowError
  end.

(** [int(round(x))] on a float: an infinity and NaN have no integer. *)
Definition round_float (x : npfloat) : result Z :=
  match x with
  | Finite q => Ok (py_round q)
  | NaN => Raise ValueError
  | PosInf | NegInf => Raise OverflowError
  end.

(** ** Crop edges

    [percent] is a float and the width an int: the product and the difference
    are float64 operations, in which Python first turns the int into a
    float. *)

Definition crop_edges {A} (input_image : grid A) (input_percent : npfloat)
  : result (grid A) :=
  let image := input_image in
  let percent := input_percent in
  let crop_column_width := shape1 image in
  width <- float_of_int crop_column_width ;;
  left_crop_column <- round_float (mul_float64 percent width) ;;
  right_crop_column <- round_float (sub_float64 width (mul_float64 percent width)) ;;
  let cropped_image :=
    map (fun row => py_slice row left_crop_column right_crop_column) image in
  Ok cropped_image.

(** ** More on arrays *)

Fixpoint map2 {A B C} (f : A -> B -> C) (l1 : list A) (l2 : list B) : list C :=
  match l1, l2 with
  | a :: l1', b :: l2' => f a b :: map2 f l1' l2'
  | _, _ => []
  end.

Definition grid_map {A B} (f : A -> B) (a : grid A) : grid B := map (map f) a.

Definition grid_map2 {A B C} (f : A -> B -> C) (a : grid A) (b : grid B) : grid C :=
  map2 (map2 f) a b.

Fixpoint same_shape {A B} (a : grid A) (b : grid B) : bool :=
  match a, b with
  | [], [] => true
  | ra :: a', rb :: b' => (length ra =? length rb)%nat && same_shape a' b'
  | _, _ => false
  end.

(** [np.max(a)]: raises on an array without elements. *)
Definition np_max (a : grid Z) : result Z :=
  match concat a with
  | [] => Raise ValueError
  | x :: xs => Ok (fold_left Z.max xs x)
  end.

(** [x in row] and [x in a]. *)
Definition py_in (x : Z) (row : list Z) : bool := existsb (Z.eqb x) row.
Definition py_in_grid (x : Z) (a : grid Z) : bool := existsb (py_in x) a.

(** [a == x], elementwise. *)
Definition np_eq (a : grid Z) (x : Z) : grid bool := grid_map (fun v => v =? x) a.

(** [a[m] = v] for a boolean array [m] of the shape of [a]. *)
Definition masked_assign {A} (a : grid A) (m : grid bool) (v : A) : grid A :=
  grid_map2 (fun x (b : bool) => if b then v else x) a m.

(** [a[m]] for a boolean array [m]: the selected elements in row-major order;
    the shapes must agree. *)
Definition bool_index {A} (a : grid A) (m : grid bool) : result (list A) :=
  if same_shape a m
  then Ok (map fst (filter snd (combine (concat a) (concat m))))
  else Raise IndexError.

(** [v[m]] for a vector [v] and a list of Python booleans [m]: a mask of the
    length of [v]; the empty list selects nothing. *)
Definition bool_index1 {A} (v : list A) (m : list bool) : result (list A) :=
  match m with
  | [] => Ok []
  | _ => if (length v =? length m)%nat
         then Ok (map fst (filter snd (combine v m)))
         else Raise IndexError
  end.

(** [v[i]] for an integer [i]: negative indices count from the end. *)
Definition getitem {A} (v : list A) (i : Z) : result A :=
  let n := Z.of_nat (length v) in
  let j := if i <? 0 then i + n else i in
  if (0 <=? j) && (j <? n)
  then match nth_error v (Z.to_nat j) with
       | Some x => Ok x
       | None => Raise IndexError
       end
  else Raise IndexError.

(** [v[idx]] for an integer array [idx]: one element per index. *)
Fixpoint int_index {A} (v : list A) (idx : list Z) : result (list A) :=
  match idx with
  | [] => Ok []
  | i :: idx' =>
      x <- getitem v i ;;
      xs <- int_index v idx' ;;
      Ok (x :: xs)
  end.

(** A [for] loop whose body may raise. *)
Fixpoint for_each {S X} (body : S -> X -> result S) (xs : list X) (s : S) : result S :=
  match xs with
  | [] => Ok s
  | x :: xs' => s' <- body s x ;; for_each body xs' s'
  end.

Definition enumerate {A} (l : list A) : list (Z * A) :=
  combine (map Z.of_nat (seq 0 (length l))) l.

(** The elements of an array with their coordinates, in row-major order. *)
Definition cells {A} (a : grid A) : list (Z * Z * A) :=
  flat_map (fun rr => map (fun cv => (fst rr, fst cv, snd cv)) (enumerate (snd rr)))
           (enumerate a).

(** [a[r, c]], when in bounds. *)
Definition cell {A} (a : grid A) (r c : Z) : option A :=
  if (r <? 0) || (c <? 0) then None
  else match nth_error a (Z.to_nat r) with
       | Some row => nth_error row (Z.to_nat c)
       | None => None
       end.

(** ** Images and the library interface *)

(** One pixel of a three-channel raster read from a PNG ([uint8] channels). *)
Record pixel : Type := { red : Z; green : Z; blue : Z }.

Definition image : Type := grid pixel.

(** A mean intensity per channel: one row of the array of [mean_intensity]. *)
Definition triple : Type := (npfloat * npfloat * npfloat)%type.

(** The fitted model of scikit-learn, of which the script reads and writes
    [labels_] only. *)
Record kmeans_model : Type := { labels_ : list Z }.

(** The library functions the script calls and whose body is outside of it.
    Each may raise, but for the Gaussian filter, which is total on a
    two-dimensional float array. *)
Class Toolkit : Type := {
  imread : string -> result image;
  gaussian_filter : grid Q -> Z -> grid Q;
  rgb2gray : grid Q -> result (grid Q);
  img_as_ubyte : grid Q -> result (grid Z);
  rescale_intensity : grid Z -> result (grid Z);
  sobel : grid Z -> result (grid Q);
  watershed : grid Q -> grid Z -> result (grid Z);
  binary_fill_holes : grid Z -> result (grid bool);
  binary_opening : grid bool -> Z -> result (grid bool);
  ndi_label : grid bool -> result (grid Z);
  KMeans_fit : Z -> list triple -> result kmeans_model
}.

(** ** Morphological reconstruction by dilation

    [skimage.morphology.reconstruction(seed, mask, method='dilation')] with
    the default 3x3 footprint, after its documentation: the seed is dilated
    and cut off by the mask, again and again until nothing changes.  The
    library refuses a seed of another shape than the mask and a seed that
    exceeds the mask somewhere. *)

Definition footprint : list (Z * Z) :=
  [(-1, -1); (-1, 0); (-1, 1); (0, -1); (0, 0); (0, 1); (1, -1); (1, 0); (1, 1)].

Definition neighbours (a : grid Q) (r c : Z) : list Q :=
  flat_map (fun d => match cell a (r + fst d) (c + snd d) with
                     | Some v => [v]
                     | None => []
                     end) footprint.

Definition dilate (a : grid Q) : grid Q :=
  map (fun rr =>
         map (fun cv => fold_left Qmax (neighbours a (fst rr) (fst cv)) (snd cv))
             (enumerate (snd rr)))
      (enumerate a).

Definition geodesic_dilation (marker mask : grid Q) : grid Q :=
  grid_map2 Qmin (dilate marker) mask.

Definition grid_eqb (a b : grid Q) : bool :=
  same_shape a b
  && forallb (fun p => Qeq_bool (fst p) (snd p)) (combine (concat a) (concat b)).

Fixpoint propagate (rounds : nat) (marker mask : grid Q) : grid Q :=
  match rounds with
  | O => marker
  | S n =>
      let next := geodesic_dilation marker mask in
      if grid_eqb next marker then marker else propagate n next mask
  end.

(** Every round that changes the marker raises a pixel to another value of
    the seed or of the mask, so [n * 2n] rounds are enough on [n] pixels
    (lemma [reconstruction_stable] below). *)
Definition reconstruction (seed mask : grid Q) : result (grid Q) :=
  if negb (same_shape seed mask) then Raise AssertionError
  else if existsb (fun p => Qltb (snd p) (fst p)) (combine (concat seed) (concat mask))
  then Raise ValueError
  else
    let n := length (concat mask) in
    Ok (propagate (n * (2 * n)) seed mask).

(** ** Remove segments that touch the bottom edge *)

(** [mask[mask.shape[0] - 1, :]]. *)
Definition last_row (mask : grid Z) : list Z := last mask [].

(** The body of the loop: [mask] is updated in place, modelled by passing it
    on. *)
Definition remove_if_on_edge (mask : grid Z) (object_num : Z) : grid Z :=
  if py_in object_num (last_row mask)
  then masked_assign mask (np_eq mask object_num) 0
  else mask.

Definition remove_bottom_edge (labeled_image_mask : grid Z) : result (grid Z) :=
  let mask := labeled_image_mask in
  top <- np_max mask ;;
  Ok (fold_left remove_if_on_edge (py_range 1 (top + 1)) mask).

(** ** Find segment centers *)

Definition zsum (l : list Z) : Z := fold_right Z.add 0 l.

(** [ndi.center_of_mass(input, labels, index)] on two-dimensional arrays:
    per label of [index], the sums of [input * row] and of [input * column]
    over the pixels of the label, divided by the sum of [input] over them. *)
Definition center_of_label (input labels : grid Z) (l : Z) : npfloat * npfloat :=
  let pts := combine (cells input) (concat labels) in
  let sel := map fst (filter (fun p => snd p =? l) pts) in
  let normalizer := zsum (map (fun p => snd p) sel) in
  let sum_rows := zsum (map (fun p => snd p * fst (fst p)) sel) in
  let sum_cols := zsum (map (fun p => snd p * snd (fst p)) sel) in
  (fdiv (of_int sum_rows) (of_int normalizer),
   fdiv (of_int sum_cols) (of_int normalizer)).

Definition center_of_mass (input labels : grid Z) (index : list Z)
  : list (npfloat * npfloat) :=
  map (center_of_label input labels) index.

Definition find_centers (input_array : grid Z) : result (list (npfloat * npfloat)) :=
  let array := input_array in
  top <- np_max array ;;
  let centers := center_of_mass array array (py_range 1 (top + 1)) in
  let centers_no_nan := filter (fun x => negb (is_nan (fst x))) centers in
  Ok centers_no_nan.

(** ** Get mean intensity *)

(** [np.mean(channel[mask == object_num])] on a channel of [uint8]. *)
Definition channel_mean (channel : grid Z) (mask : grid Z) (object_num : Z)
  : result npfloat :=
  sel <- bool_index channel (np_eq mask object_num) ;;
  Ok (np_mean (map of_int sel)).

(** [np.column_stack] of three lists: they must have one length. *)
Definition column_stack3 {A B C} (a : list A) (b : list B) (c : list C)
  : result (list (A * B * C)) :=
  if (length a =? length b)%nat && (length b =? length c)%nat
  then Ok (combine (combine a b) c)
  else Raise ValueError.

(** The body of the loop of [mean_intensity]; [out] holds the three output
    lists. *)
Definition mean_intensity_body (red_image green_image blue_image mask : grid Z)
           (out : list npfloat * list npfloat * list npfloat) (object_num : Z)
  : result (list npfloat * list npfloat * list npfloat) :=
  let '(output_red_intensity, output_green_intensity, output_blue_intensity) := out in
  if py_in_grid object_num mask then
    red_mean_intensity <- channel_mean red_image mask object_num ;;
    green_mean_intensity <- channel_mean green_image mask object_num ;;
    blue_mean_intensity <- channel_mean blue_image mask object_num ;;
    Ok (output_red_intensity ++ [red_mean_intensity],
        output_green_intensity ++ [green_mean_intensity],
        output_blue_intensity ++ [blue_mean_intensity])
  else Ok out.

Definition mean_intensity (input_image : image) (input_mask : grid Z)
  : result (list triple) :=
  let red_image := grid_map red input_image in
  let green_image := grid_map green input_image in
  let blue_image := grid_map blue input_image in
  let mask := input_mask in
  top <- np_max mask ;;
  out <- for_each (mean_intensity_body red_image green_image blue_image mask)
                  (py_range 1 (top + 1)) ([], [], []) ;;
  let '(output_red_intensity, output_green_intensity, output_blue_intensity) := out in
  column_stack3 output_red_intensity output_green_intensity output_blue_intensity.

(** ** Which is more green *)

(** [labels[labels == old] = new]. *)
Definition relabel (old new : Z) (labels : list Z) : list Z :=
  map (fun l => if l =? old then new else l) labels.

Definition which_is_more_green (rgb_input : list triple) (kmeans_input : kmeans_model)
  : result kmeans_model :=
  let kmeans := kmeans_input in
  let all_green_intensity := map (fun t => snd (fst t)) rgb_input in
  (* a list of Python booleans indexes as a mask *)
  sel_0 <- bool_index1 all_green_intensity
             (map (fun i => i =? 0) (labels_ kmeans_input)) ;;
  let label_0_green_mean := np_mean sel_0 in
  (* an array of integers indexes by position *)
  sel_1 <- int_index all_green_intensity (labels_ kmeans_input) ;;
  let label_1_green_mean := np_mean sel_1 in
  if flt label_0_green_mean label_1_green_mean then
    let labels := labels_ kmeans in
    let labels := relabel 0 3 labels in
    let labels := relabel 1 0 labels in
    let labels := relabel 3 1 labels in
    Ok {| labels_ := labels |}
  else Ok kmeans.

(** [np.unique(v, return_counts=True)]: the distinct values in ascending
    order, each with the number of its occurrences. *)
Fixpoint tally (x : Z) (acc : list (Z * Z)) : list (Z * Z) :=
  match acc with
  | [] => [(x, 1)]
  | (y, n) :: rest =>
      if x =? y then (y, n + 1) :: rest
      else if x <? y then (x, 1) :: (y, n) :: rest
      else (y, n) :: tally x rest
  end.

Definition np_unique_counts (v : list Z) : list Z * list Z :=
  let t := fold_right tally [] v in (map fst t, map snd t).

(** [centers_y, centers_x = zip] of the unpacked centers: the assignment
    fails on an empty list. *)
Definition unzip_centers (centers : list (npfloat * npfloat))
  : result (list npfloat * list npfloat) :=
  match centers with
  | [] => Raise ValueError
  | _ => Ok (map fst centers, map snd centers)
  end.

(** ** The images of the directory and their names

    Around the batch loop the script lists the directory, keeps the names
    that end in [.png], joins each to the directory, and names an image by
    the last component of its path without the extension.  The string
    functions are those of Python and of [posixpath], after their
    documentation. *)

(** [s.endswith(suffix)]: some tail of [s] is [suffix]. *)
Fixpoint endswith (s suffix : string) : bool :=
  String.eqb s suffix
  || match s with
     | EmptyString => false
     | String _ rest => endswith rest suffix
     end.

(** [c in s]. *)
Fixpoint occurs (c : Ascii.ascii) (s : string) : bool :=
  match s with
  | EmptyString => false
  | String x rest => Ascii.eqb x c || occurs c rest
  end.

(** [s[s.rfind(c) + 1:]]: what follows the last [c], and all of [s] when
    there is none. *)
Fixpoint after_last (c : Ascii.ascii) (s : string) : string :=
  match s with
  | EmptyString => EmptyString
  | String x rest =>
      if occurs c rest then after_last c rest
      else if Ascii.eqb x c then rest else s
  end.

(** [s[:s.rfind(c)]] for a string in which [c] occurs. *)
Fixpoint before_last (c : Ascii.ascii) (s : string) : string :=
  match s with
  | EmptyString => EmptyString
  | String x rest =>
      if occurs c rest then String x (before_last c rest) else EmptyString
  end.

Fixpoint all_dots (s : string) : bool :=
  match s with
  | EmptyString => true
  | String x rest => Ascii.eqb x "."%char && all_dots rest
  end.

(** [os.path.join(a, b)]. *)
Definition path_join (a b : string) : string :=
  if prefix "/" b then b
  else if String.eqb a "" || endswith a "/" then (a ++ b)%string
  else (a ++ "/" ++ b)%string.

(** [os.path.split(p)[1]]. *)
Definition path_tail (p : string) : string := after_last "/"%char p.

(** [os.path.splitext(p)[0]]: [p] up to its last dot, when that dot is in
    the last component and is not one of its leading dots. *)
Definition splitext_root (p : string) : string :=
  let name := after_last "/"%char p in
  if occurs "."%char name
  then if all_dots (before_last "."%char name) then p
       else before_last "."%char p
  else p.

(** The paths that the script collects from the listing of the directory. *)
Definition list_images (input_directory : string) (listing : list string)
  : list string :=
  map (path_join input_directory) (filter (fun file => endswith file ".png") listing).

(** The name under which an image is reported. *)
Definition image_name (image : string) : string :=
  splitext_root (path_tail image).

Section Script.

Context {tk : Toolkit}.

(** ** Filter regional maxima *)

(** [img_as_float] on [uint8]. *)
Definition img_as_float (v : Z) : Q := inject_Z v / 255.

(** The intensities are exact here.  In float64 each of the two subtractions
    is rounded: this keeps the sign of a difference, but not its size to the
    last bit. *)
Definition filter_regional_maxima (input_image : image) (input_h : Q)
  : result (grid Q) :=
  let image := grid_map (fun px => img_as_float (blue px)) input_image in
  let image := gaussian_filter image 1 in
  let h := input_h in
  let seed := grid_map (fun v => v - h)%Q image in
  let mask := image in
  dilated <- reconstruction seed mask ;;
  let hdome := grid_map2 Qminus image dilated in
  Ok hdome.

(** ** Region-based segmentation *)

(** [markers = zeros_like(hdome); markers[hdome < low] = 1;
    markers[hdome > high] = 2]. *)
Definition build_markers (hdome : grid Z) (marker_low marker_high : Z) : grid Z :=
  let markers := grid_map (fun _ => 0) hdome in
  let markers := masked_assign markers (grid_map (fun v => v <? marker_low) hdome) 1 in
  let markers := masked_assign markers (grid_map (fun v => v >? marker_high) hdome) 2 in
  markers.

Definition region_based_segmentation (input_hdome : grid Q) (marker_low marker_high : Z)
  : result (grid Z) :=
  let hdome := input_hdome in
  hdome <- rgb2gray hdome ;;
  hdome <- img_as_ubyte hdome ;;
  hdome <- rescale_intensity hdome ;;
  elevation_map <- sobel hdome ;;
  let markers := build_markers hdome marker_low marker_high in
  segmentation <- watershed elevation_map markers ;;
  segmentation <- binary_fill_holes (grid_map (fun v => v - 1) segmentation) ;;
  segmentation <- binary_opening segmentation 5 ;;
  labeled_image <- ndi_label segmentation ;;
  Ok labeled_image.

(** ** Calculate k-means *)

Definition kmeans_from_rgb (rgb_input : list triple) : result kmeans_model :=
  let rgb := rgb_input in
  kmeans <- KMeans_fit 2 rgb ;;
  Ok kmeans.

(** ** The meta-function *)

(** From the label mask on: what [count_kernels] does once the image is
    cropped and segmented. *)
Definition count_segments (image : image) (image_segments : grid Z)
  : result (list Z) :=
  image_segments <- remove_bottom_edge image_segments ;;
  segment_centers <- find_centers image_segments ;;
  rgb_intensity <- mean_intensity image image_segments ;;
  if (length rgb_intensity =? 0)%nat then Ok [0; 0]
  else
    kmeans <- kmeans_from_rgb rgb_intensity ;;
    kmeans <- which_is_more_green rgb_intensity kmeans ;;
    yx <- unzip_centers segment_centers ;;
    let centers_y := fst yx in
    let centers_x := snd yx in
    let labels := labels_ kmeans in
    data_array <- column_stack3 centers_x centers_y labels ;;
    let (unique, counts) := np_unique_counts (map snd data_array) in
    Ok counts.

Definition count_kernels (input_image : string) (crop_percentage : npfloat)
           (h_dome_value : Q) (watershed_low watershed_high : Z) : result (list Z) :=
  raw_image <- imread input_image ;;
  image <- crop_edges raw_image crop_percentage ;;
  hdome <- filter_regional_maxima image h_dome_value ;;
  image_segments <- region_based_segmentation hdome watershed_low watershed_high ;;
  count_segments image image_segments.

(** ** Arguments and the batch loop *)

(** The options as given on the command line, already converted by
    [argparse] to their types; [float] also reads [inf] and [nan]. *)
Record command_line : Type := {
  given_input_directory_path : option string;
  given_image_crop_percentage : option npfloat;
  given_h_dome_value : option Q;
  given_watershed_low : option Z;
  given_watershed_high : option Z
}.

Record arguments : Type := {
  input_directory_path : option string;
  image_crop_percentage : npfloat;
  h_dome_value : Q;
  watershed_low : Z;
  watershed_high : Z
}.

Definition or_default {A} (given : option A) (default : A) : A :=
  match given with Some v => v | None => default end.

Definition parse_args (given : command_line) : arguments :=
  {| input_directory_path := given_input_directory_path given;
     image_crop_percentage :=
       or_default (given_image_crop_percentage given) (to_float64 (15 # 100));
     h_dome_value := or_default (given_h_dome_value given) (3 # 10);
     watershed_low := or_default (given_watershed_low given) 20;
     watershed_high := or_default (given_watershed_high given) 80 |}.

(** The loop over the images of the directory; a row of the output is the
    name of an image with its two counts (the three lists of the script, kept
    together). *)
Definition run_batch (args : arguments) (input_image_list : list string)
  : result (list (string * Z * Z)) :=
  for_each
    (fun rows image =>
       let name := image_name image in
       count_kernels_output <-
         count_kernels image (image_crop_percentage args) (h_dome_value args)
                       (watershed_low args) (watershed_high args) ;;
       fluor <- getitem count_kernels_output 0 ;;
       nonfluor <- getitem count_kernels_output 1 ;;
       Ok (rows ++ [(name, fluor, nonfluor)]))
    input_image_list [].

End Script.

(** A one-row scan ten columns wide. *)
Definition scan_1x10 : grid Z := [[0; 1; 2; 3; 4; 5; 6; 7; 8; 9]].

(** A label mask of four objects; the fourth touches the bottom row. *)
Definition demo_mask : grid Z :=
  [[0; 1; 1; 0];
   [2; 0; 0; 3];
   [2; 0; 4; 4];
   [0; 0; 4; 0]].

(** The scan under [demo_mask]: every pixel carries its label in the red
    channel, twice and three times its label in the other two. *)
Definition demo_image : image :=
  grid_map (fun v => {| red := v; green := 2 * v; blue := 3 * v |}) demo_mask.

(** ** A toolkit for small arrays

    Stand-ins of the right types for the library functions, to run the script
    on the arrays of this file: no smoothing, a flood that keeps the object
    seeds and sends every other pixel to the background, no hole filling, no
    opening, and all foreground as the single component 1.  Reading and
    clustering are left open. *)
Definition bench_toolkit (read : string -> result image)
           (fit : Z -> list triple -> result kmeans_model) : Toolkit :=
  {| imread := read;
     gaussian_filter := fun a _ => a;
     rgb2gray := fun a => Ok a;
     img_as_ubyte := fun a => Ok (grid_map (fun v => py_round (v * 255)) a);
     rescale_intensity := fun a => Ok a;
     sobel := fun a => Ok (grid_map inject_Z a);
     watershed := fun _ markers => Ok (grid_map (fun m => if m =? 2 then 2 else 1) markers);
     binary_fill_holes := fun a => Ok (grid_map (fun v => negb (v =? 0)) a);
     binary_opening := fun a _ => Ok a;
     ndi_label := fun a => Ok (grid_map (fun b : bool => if b then 1 else 0) a);
     KMeans_fit := fit |}.

(** A clustering that refuses fewer samples than clusters, as scikit-learn
    does, and otherwise sets the first sample apart from the others. *)
Definition split_first (n_clusters : Z) (X : list triple) : result kmeans_model :=
  if Z.of_nat (length X) <? n_clusters then Raise ValueError
  else Ok {| labels_ := match X with [] => [] | _ :: rest => 0 :: map (fun _ => 1) rest end |}.

(** A clustering that always fails. *)
Definition no_fit (n_clusters : Z) (X : list triple) : result kmeans_model :=
  Raise LibraryError.

(** A scan of two rows and three columns, evenly grey. *)
Definition flat_scan : image :=
  let px := {| red := 100; green := 100; blue := 100 |} in
  [[px; px; px]; [px; px; px]].

(** A mask of the shape of [flat_scan] with a single object away from the
    bottom row. *)
Definition one_kernel_mask : grid Z := [[0; 1; 1]; [0; 0; 0]].

(** A command line with a crop fraction above one half and the watershed
    cutoffs in the wrong order. *)
Definition crossed_command_line : command_line :=
  {| given_input_directory_path := None;
     given_image_crop_percentage := Some (Finite (3 # 4));
     given_h_dome_value := None;
     given_watershed_low := Some 80;
     given_watershed_high := Some 20 |}.

(** A command line without options: every argument takes its default. *)
Definition plain_command_line : command_line :=
  {| given_input_directory_path := None;
     given_image_crop_percentage := None;
     given_h_dome_value := None;
     given_watershed_low := None;
     given_watershed_high := None |}.

(** A reader for which one file is unreadable and every other file is
    [flat_scan]. *)
Definition read_all_but (unreadable : string) (path : string) : result image :=
  if String.eqb path unreadable then Raise LibraryError else Ok flat_scan.

(** ** Notions used to state the properties *)

(** What the Edge-Duplicate Filter does to one pixel of [mask]: a positive
    label found in the bottom row becomes background. *)
Definition on_bottom_edge (mask : grid Z) (v : Z) : bool :=
  (0 <? v) && py_in v (last_row mask).

Definition zero_if (P : Z -> bool) (v : Z) : Z := if P v then 0 else v.

(** The labels between 1 and the largest label that still have a pixel, in
    ascending order. *)
Definition surviving_labels (mask : grid Z) (top : Z) : list Z :=
  filter (fun l => py_in_grid l mask) (py_range 1 (top + 1)).

(** The mean of a channel over the pixels of a label. *)
Definition label_mean (channel mask : grid Z) (l : Z) : npfloat :=
  np_mean (map of_int
             (map fst (filter snd (combine (concat channel) (concat (np_eq mask l)))))).

Definition label_triple (input_image : image) (mask : grid Z) (l : Z) : triple :=
  (label_mean (grid_map red input_image) mask l,
   label_mean (grid_map green input_image) mask l,
   label_mean (grid_map blue input_image) mask l).

(** The mean of the green channel over the triples of one group, as the
    specification words it. *)
Definition group_green_mean (rgb_input : list triple) (labels : list Z) (g : Z)
  : npfloat :=
  np_mean (map (fun p => snd (fst (fst p)))
               (filter (fun p => snd p =? g) (combine rgb_input labels))).

(** Three kernels of mean green intensity 1, 2 and 10. *)
Definition three_kernels : list triple :=
  [(of_int 0, of_int 1, of_int 0);
   (of_int 0, of_int 2, of_int 0);
   (of_int 0, of_int 10, of_int 0)].

(** [a] is nowhere above [b], two arrays of one shape. *)
Definition below (a b : grid Q) : Prop := Forall2 (Forall2 Qle) a b.

(** The number of [values] strictly below [v], and its sum over an array:
    the measure by which the reconstruction is seen to end. *)
Definition rank (values : list Q) (v : Q) : nat :=
  length (filter (fun u => Qltb u v) values).

Definition potential (values : list Q) (a : grid Q) : nat :=
  list_sum (map (rank values) (concat a)).

(** The pixels of label [l] with their coordinates, as [center_of_label]
    selects them. *)
Definition pixels_of (a : grid Z) (l : Z) : list (Z * Z * Z) :=
  filter (fun p => snd p =? l) (cells a).

(** The two columns at which the Edge Cropper cuts an image of width [w] for
    a finite fraction [p], when nothing overflows. *)
Definition left_crop_column (w : Z) (p : Q) : Z :=
  py_round (nearest_float64 (p * inject_Z w)).

Definition right_crop_column (w : Z) (p : Q) : Z :=
  py_round (nearest_float64 (inject_Z w - nearest_float64 (p * inject_Z w))).

(** What the batch loop does with one image: its row, or the exception. *)
Definition batch_row {tk : Toolkit} (args : arguments) (image : string)
  : result (string * Z * Z) :=
  count_kernels_output <-
    count_kernels image (image_crop_percentage args) (h_dome_value args)
                  (watershed_low args) (watershed_high args) ;;
  fluor <- getitem count_kernels_output 0 ;;
  nonfluor <- getitem count_kernels_output 1 ;;
  Ok (image_name image, fluor, nonfluor).

(** * Properties *)

(** ** Rounding *)

Lemma inject_Z_succ (z : Z) : (inject_Z (z + 1) == inject_Z z + 1)%Q.
Proof. rewrite inject_Z_plus. reflexivity. Qed.

Lemma py_round_bounds (x : Q) :
  (x - (1 # 2) <= inject_Z (py_round x) /\ inject_Z (py_round x) <= x + (1 # 2))%Q.
Proof.
  unfold py_round.
  pose proof (Qfloor_le x) as Hlo.
  pose proof (Qlt_floor x) as Hhi.
  rewrite inject_Z_succ in Hhi.
  destruct (Qcompare_spec (x - inject_Z (Qfloor x)) (1 # 2)) as [He | Hl | Hg].
  - destruct (Z.even (Qfloor x)); [| rewrite inject_Z_succ]; split; lra.
  - split; lra.
  - rewrite inject_Z_succ. split; lra.
Qed.

#[global] Instance py_round_comp : Proper (Qeq ==> eq) py_round.
Proof.
  intros x y Hxy. unfold py_round.
  rewrite (Qfloor_comp x y Hxy).
  assert (H : (x - inject_Z (Qfloor y) == y - inject_Z (Qfloor y))%Q)
    by (rewrite Hxy; reflexivity).
  rewrite (Qcompare_comp _ _ H (1 # 2)%Q (1 # 2)%Q (Qeq_refl _)).
  reflexivity.
Qed.

(** An integer strictly within one half of [x] is the rounding of [x]. *)
Lemma py_round_unique (x : Q) (r : Z) :
  (x - (1 # 2) < inject_Z r)%Q -> (inject_Z r < x + (1 # 2))%Q -> py_round x = r.
Proof.
  intros Hlo Hhi.
  destruct (py_round_bounds x) as [Blo Bhi].
  assert (H1 : (inject_Z r < inject_Z (py_round x + 1))%Q)
    by (rewrite inject_Z_succ; lra).
  assert (H2 : (inject_Z (py_round x) < inject_Z (r + 1))%Q)
    by (rewrite inject_Z_succ; lra).
  rewrite <- Zlt_Qlt in H1, H2. lia.
Qed.

Lemma py_round_inject_Z (n : Z) : py_round (inject_Z n) = n.
Proof. apply py_round_unique; lra. Qed.

(** Away from a tie the rounding is strictly within one half. *)
Lemma py_round_strict (x : Q) :
  ~ (x - inject_Z (Qfloor x) == 1 # 2)%Q ->
  (x - (1 # 2) < inject_Z (py_round x) /\ inject_Z (py_round x) < x + (1 # 2))%Q.
Proof.
  intros Htie. unfold py_round.
  pose proof (Qfloor_le x) as Hlo.
  pose proof (Qlt_floor x) as Hhi.
  rewrite inject_Z_succ in Hhi.
  destruct (Qcompare_spec (x - inject_Z (Qfloor x)) (1 # 2)) as [He | Hl | Hg].
  - contradiction.
  - split; lra.
  - rewrite inject_Z_succ. split; lra.
Qed.

Lemma py_round_mono (x y : Q) : (x <= y)%Q -> py_round x <= py_round y.
Proof.
  intros Hxy.
  destruct (py_round_bounds x) as [_ Bx].
  destruct (py_round_bounds y) as [By _].
  destruct (Z_le_gt_dec (py_round x) (py_round y)) as [Hle | Hgt]; [exact Hle |].
  assert (Hstep : (inject_Z (py_round y + 1) <= inject_Z (py_round x))%Q)
    by (rewrite <- Zle_Qle; lia).
  rewrite inject_Z_succ in Hstep.
  assert (Heq : (x == y)%Q) by lra.
  rewrite (py_round_comp x y Heq) in Hgt. lia.
Qed.

Ltac push_inject :=
  unfold Z.sub;
  repeat (rewrite inject_Z_plus || rewrite inject_Z_opp || rewrite inject_Z_mult).

Lemma Qfloor_unique (x : Q) (k : Z) :
  (inject_Z k <= x)%Q -> (x < inject_Z (k + 1))%Q -> Qfloor x = k.
Proof.
  intros Hlo Hhi.
  pose proof (Qfloor_le x) as Flo.
  pose proof (Qlt_floor x) as Fhi.
  assert (H1 : (inject_Z (Qfloor x) < inject_Z (k + 1))%Q) by lra.
  assert (H2 : (inject_Z k < inject_Z (Qfloor x + 1))%Q) by lra.
  rewrite <- Zlt_Qlt in H1, H2. lia.
Qed.

(** Rounding half to even is odd: [round(-x) = -round(x)]. *)
Lemma py_round_opp (x : Q) : py_round (- x) = - py_round x.
Proof.
  destruct (Qeq_dec (x - inject_Z (Qfloor x)) (1 # 2)) as [Htie | Hoff].
  - pose proof (Qfloor_le x) as Flo.
    assert (Hfloor : Qfloor (- x) = - Qfloor x - 1).
    { apply Qfloor_unique; push_inject; change (inject_Z 1) with 1%Q; lra. }
    unfold py_round. rewrite Hfloor.
    assert (Htie' : (- x - inject_Z (- Qfloor x - 1) == 1 # 2)%Q)
      by (push_inject; change (inject_Z 1) with 1%Q; lra).
    rewrite (Qcompare_comp _ _ Htie (1 # 2)%Q _ (Qeq_refl _)).
    rewrite (Qcompare_comp _ _ Htie' (1 # 2)%Q _ (Qeq_refl _)).
    cbn [Qcompare Qnum Qden Z.mul Pos.mul Z.compare Pos.compare Pos.compare_cont].
    replace (- Qfloor x - 1) with (- (Qfloor x + 1)) by lia.
    rewrite Z.even_opp, Z.even_add.
    destruct (Z.even (Qfloor x)); cbn; lia.
  - apply py_round_strict in Hoff. destruct Hoff as [Hlo Hhi].
    apply py_round_unique; rewrite inject_Z_opp; lra.
Qed.

Lemma py_round_nonneg (x : Q) : (0 <= x)%Q -> 0 <= py_round x.
Proof.
  intros Hx. rewrite <- (py_round_inject_Z 0). now apply py_round_mono.
Qed.

(** ** Rounding to float64 *)

Lemma pow2_positive (e : Z) : (0 < pow2 e)%Q.
Proof. apply Qpower_0_lt. reflexivity. Qed.

Lemma pow2_add (a b : Z) : (pow2 (a + b) == pow2 a * pow2 b)%Q.
Proof. apply Qpower_plus. discriminate. Qed.

Lemma pow2_le (a b : Z) : a <= b -> (pow2 a <= pow2 b)%Q.
Proof. intros H. apply Qpower_le_compat_l; [exact H | discriminate]. Qed.

Lemma pow2_lt (a b : Z) : a < b -> (pow2 a < pow2 b)%Q.
Proof. intros H. apply Qpower_lt_compat_l; [exact H | reflexivity]. Qed.

Lemma pow2_lt_inv (a b : Z) : (pow2 a < pow2 b)%Q -> a < b.
Proof. intros H. apply (Qpower_lt_compat_l_inv 2); [exact H | reflexivity]. Qed.

Lemma pow2_inject (n : Z) : 0 <= n -> (pow2 n == inject_Z (2 ^ n))%Q.
Proof. intros H. unfold pow2. now rewrite Zpower_Qpower. Qed.

Lemma pow2_succ (a : Z) : (pow2 (a + 1) == 2 * pow2 a)%Q.
Proof. rewrite pow2_add. change (pow2 1) with 2%Q. ring. Qed.

(** [ilog2 q] is the exponent of the binade of a positive [q]. *)
Lemma ilog2_spec (q : Q) :
  (0 < q)%Q -> (pow2 (ilog2 q) <= q /\ q < pow2 (ilog2 q + 1))%Q.
Proof.
  intros Hq. destruct q as [n d].
  assert (Hn : 0 < n) by (unfold Qlt in Hq; simpl in Hq; lia).
  unfold ilog2. cbn [Qnum Qden].
  set (a := Z.log2 n). set (b := Z.log2 (Zpos d)).
  destruct (Z.log2_spec n Hn) as [Ha1 Ha2]. fold a in Ha1, Ha2.
  destruct (Z.log2_spec (Zpos d) eq_refl) as [Hb1 Hb2]. fold b in Hb1, Hb2.
  assert (Ha0 : 0 <= a) by apply Z.log2_nonneg.
  assert (Hb0 : 0 <= b) by apply Z.log2_nonneg.
  assert (Hd : (0 < inject_Z (Zpos d))%Q) by reflexivity.
  assert (Hmul : ((n # d) * inject_Z (Zpos d) == inject_Z n)%Q).
  { rewrite (Qmake_Qdiv n d). field. intros H. rewrite H in Hd. discriminate. }
  replace (Z.succ a) with (a + 1) in Ha2 by lia.
  replace (Z.succ b) with (b + 1) in Hb2 by lia.
  rewrite Zle_Qle in Ha1, Hb1. rewrite Zlt_Qlt in Ha2, Hb2.
  rewrite <- pow2_inject in Ha1, Ha2, Hb1, Hb2 by lia.
  assert (Hup : (n # d < pow2 (a - b + 1))%Q).
  { apply (Qmult_lt_r _ _ (pow2 b) (pow2_positive b)).
    rewrite <- pow2_add. replace (a - b + 1 + b) with (a + 1) by lia.
    apply Qle_lt_trans with ((n # d) * inject_Z (Zpos d))%Q.
    - apply Qmult_le_l; [exact Hq | exact Hb1].
    - rewrite Hmul. exact Ha2. }
  assert (Hlo : (pow2 (a - b - 1) < n # d)%Q).
  { apply (Qmult_lt_r _ _ (pow2 (b + 1)) (pow2_positive (b + 1))).
    rewrite <- pow2_add. replace (a - b - 1 + (b + 1)) with a by lia.
    apply Qle_lt_trans with (inject_Z n); [exact Ha1 |].
    rewrite <- Hmul. apply Qmult_lt_l; [exact Hq | exact Hb2]. }
  destruct (Qle_bool (pow2 (a - b)) (n # d)) eqn:Hcmp.
  - apply Qle_bool_iff in Hcmp. split; assumption.
  - split; [apply Qlt_le_weak; exact Hlo |].
    replace (a - b - 1 + 1) with (a - b) by lia.
    apply Qnot_le_lt. intros H. apply Qle_bool_iff in H. congruence.
Qed.

Lemma ilog2_unique (q : Q) (k : Z) :
  (pow2 k <= q)%Q -> (q < pow2 (k + 1))%Q -> ilog2 q = k.
Proof.
  intros Hlo Hhi.
  assert (Hq : (0 < q)%Q) by (pose proof (pow2_positive k); lra).
  destruct (ilog2_spec q Hq) as [Slo Shi].
  assert (H1 : ilog2 q < k + 1) by (apply pow2_lt_inv; lra).
  assert (H2 : k < ilog2 q + 1) by (apply pow2_lt_inv; lra).
  lia.
Qed.

Lemma ilog2_mono (x y : Q) : (0 < x)%Q -> (x <= y)%Q -> ilog2 x <= ilog2 y.
Proof.
  intros Hx Hxy.
  destruct (ilog2_spec x Hx) as [Xlo _].
  destruct (ilog2_spec y) as [_ Yhi]; [lra |].
  assert (H : ilog2 x < ilog2 y + 1) by (apply pow2_lt_inv; lra).
  lia.
Qed.

Lemma ilog2_comp (x y : Q) : (0 < x)%Q -> (x == y)%Q -> ilog2 x = ilog2 y.
Proof.
  intros Hx Hxy. symmetry.
  destruct (ilog2_spec x Hx) as [Xlo Xhi].
  apply ilog2_unique; lra.
Qed.

Lemma float64_exponent_floor (x : Q) : -1074 <= float64_exponent x.
Proof. unfold float64_exponent. lia. Qed.

Lemma float64_exponent_pos (x : Q) :
  (0 < x)%Q -> float64_exponent x = Z.max (-1074) (ilog2 x - 52).
Proof.
  intros Hx. unfold float64_exponent.
  rewrite (ilog2_comp (Qabs x) x); [reflexivity | | apply Qabs_pos; lra].
  rewrite Qabs_pos; lra.
Qed.

Lemma Qabs_positive (x : Q) : ~ (x == 0)%Q -> (0 < Qabs x)%Q.
Proof.
  intros Hx. pose proof (Qabs_nonneg x) as H.
  destruct (Qeq_dec (Qabs x) 0) as [H0 | H0]; [| lra].
  exfalso. apply Hx.
  pose proof (Qle_Qabs x) as H1. pose proof (Qle_Qabs (- x)) as H2.
  rewrite Qabs_opp in H2. lra.
Qed.

Lemma float64_exponent_comp (x y : Q) :
  ~ (x == 0)%Q -> (x == y)%Q -> float64_exponent x = float64_exponent y.
Proof.
  intros Hx Hxy. unfold float64_exponent.
  rewrite (ilog2_comp (Qabs x) (Qabs y)); [reflexivity | | now rewrite Hxy].
  now apply Qabs_positive.
Qed.

Lemma float64_exponent_opp (x : Q) : float64_exponent (- x) = float64_exponent x.
Proof.
  unfold float64_exponent.
  destruct (Qeq_dec x 0) as [H0 | H0].
  - destruct x as [n d]. unfold Qeq in H0. simpl in H0.
    assert (n = 0) by lia. subst n. reflexivity.
  - rewrite (ilog2_comp (Qabs (- x)) (Qabs x)); [reflexivity | | apply Qabs_opp].
    rewrite Qabs_opp. now apply Qabs_positive.
Qed.

Lemma nearest_float64_zero (x : Q) : (x == 0)%Q -> (nearest_float64 x == 0)%Q.
Proof.
  intros Hx. unfold nearest_float64.
  assert (H : (x / pow2 (float64_exponent x) == inject_Z 0)%Q).
  { generalize (pow2 (float64_exponent x)). intros d.
    rewrite Hx. unfold Qdiv. change (inject_Z 0) with 0%Q. ring. }
  rewrite (py_round_comp _ _ H), py_round_inject_Z.
  change (inject_Z 0) with 0%Q. ring.
Qed.

#[global] Instance nearest_float64_comp : Proper (Qeq ==> Qeq) nearest_float64.
Proof.
  intros x y Hxy.
  destruct (Qeq_dec x 0) as [H0 | H0].
  - rewrite (nearest_float64_zero x H0), (nearest_float64_zero y); [reflexivity |].
    now rewrite <- Hxy.
  - unfold nearest_float64. rewrite (float64_exponent_comp x y H0 Hxy).
    assert (H : (x / pow2 (float64_exponent y) == y / pow2 (float64_exponent y))%Q)
      by now rewrite Hxy.
    now rewrite (py_round_comp _ _ H).
Qed.

Lemma nearest_float64_opp (x : Q) : (nearest_float64 (- x) == - nearest_float64 x)%Q.
Proof.
  unfold nearest_float64. rewrite float64_exponent_opp.
  assert (H : (- x / pow2 (float64_exponent x) == - (x / pow2 (float64_exponent x)))%Q).
  { unfold Qdiv. ring. }
  rewrite (py_round_comp _ _ H), py_round_opp, inject_Z_opp. ring.
Qed.

(** The scaled value of a positive [x] has at most 53 bits, and exactly 53
    above the subnormal range. *)
Lemma scaled_below (x : Q) :
  (0 < x)%Q -> (x / pow2 (float64_exponent x) < inject_Z (2 ^ 53))%Q.
Proof.
  intros Hx. set (e := float64_exponent x).
  pose proof (pow2_positive e) as He.
  destruct (ilog2_spec x Hx) as [_ Hhi].
  apply Qlt_shift_div_r; [exact He |].
  rewrite <- (pow2_inject 53), <- pow2_add by lia.
  apply Qlt_le_trans with (pow2 (ilog2 x + 1)); [exact Hhi |].
  apply pow2_le. unfold e. rewrite (float64_exponent_pos x Hx). lia.
Qed.

Lemma scaled_above (x : Q) :
  (0 < x)%Q -> -1074 < float64_exponent x ->
  (inject_Z (2 ^ 52) <= x / pow2 (float64_exponent x))%Q.
Proof.
  intros Hx Hnormal. set (e := float64_exponent x) in *.
  pose proof (pow2_positive e) as He.
  destruct (ilog2_spec x Hx) as [Hlo _].
  apply Qle_shift_div_l; [exact He |].
  rewrite <- (pow2_inject 52), <- pow2_add by lia.
  apply Qle_trans with (pow2 (ilog2 x)); [| exact Hlo].
  apply pow2_le. unfold e in *. rewrite (float64_exponent_pos x Hx) in *. lia.
Qed.

Lemma nearest_float64_below (x : Q) :
  (0 < x)%Q -> (nearest_float64 x <= pow2 (float64_exponent x + 53))%Q.
Proof.
  intros Hx. unfold nearest_float64. set (e := float64_exponent x).
  pose proof (pow2_positive e) as He.
  rewrite Z.add_comm, pow2_add, (pow2_inject 53) by lia.
  apply Qmult_le_compat_r; [| lra].
  rewrite <- Zle_Qle. rewrite <- (py_round_inject_Z (2 ^ 53)).
  apply py_round_mono. apply Qlt_le_weak. now apply scaled_below.
Qed.

Lemma nearest_float64_above (x : Q) :
  (0 < x)%Q -> -1074 < float64_exponent x ->
  (pow2 (float64_exponent x + 52) <= nearest_float64 x)%Q.
Proof.
  intros Hx Hnormal. unfold nearest_float64. set (e := float64_exponent x) in *.
  pose proof (pow2_positive e) as He.
  rewrite Z.add_comm, pow2_add, (pow2_inject 52) by lia.
  apply Qmult_le_compat_r; [| lra].
  rewrite <- Zle_Qle. rewrite <- (py_round_inject_Z (2 ^ 52)).
  apply py_round_mono. now apply scaled_above.
Qed.

Lemma nearest_float64_nonneg (x : Q) : (0 <= x)%Q -> (0 <= nearest_float64 x)%Q.
Proof.
  intros Hx. unfold nearest_float64. set (e := float64_exponent x).
  pose proof (pow2_positive e) as He.
  apply Qmult_le_0_compat; [| lra].
  change 0%Q with (inject_Z 0). rewrite <- Zle_Qle.
  rewrite <- (py_round_inject_Z 0). apply py_round_mono.
  change (inject_Z 0) with 0%Q. apply Qle_shift_div_l; [exact He | lra].
Qed.

Lemma nearest_float64_mono_pos (x y : Q) :
  (0 < x)%Q -> (x <= y)%Q -> (nearest_float64 x <= nearest_float64 y)%Q.
Proof.
  intros Hx Hxy.
  assert (Hy : (0 < y)%Q) by lra.
  assert (Hexp : float64_exponent x <= float64_exponent y).
  { rewrite (float64_exponent_pos x Hx), (float64_exponent_pos y Hy).
    pose proof (ilog2_mono x y Hx Hxy). lia. }
  destruct (Z.eq_dec (float64_exponent x) (float64_exponent y)) as [Heq | Hne].
  - unfold nearest_float64. rewrite Heq. set (e := float64_exponent y).
    pose proof (pow2_positive e) as He.
    apply Qmult_le_compat_r; [| lra].
    rewrite <- Zle_Qle. apply py_round_mono.
    unfold Qdiv. apply Qmult_le_compat_r; [exact Hxy |].
    apply Qlt_le_weak, Qinv_lt_0_compat, He.
  - apply Qle_trans with (pow2 (float64_exponent x + 53));
      [now apply nearest_float64_below |].
    apply Qle_trans with (pow2 (float64_exponent y + 52)).
    + apply pow2_le. lia.
    + apply nearest_float64_above; [exact Hy |].
      pose proof (float64_exponent_floor x). lia.
Qed.

(** Rounding to float64 is monotone. *)
Lemma nearest_float64_mono (x y : Q) :
  (x <= y)%Q -> (nearest_float64 x <= nearest_float64 y)%Q.
Proof.
  intros Hxy.
  destruct (Qlt_le_dec 0 x) as [Hx | Hx]; [now apply nearest_float64_mono_pos |].
  destruct (Qlt_le_dec y 0) as [Hy | Hy].
  - assert (H : (nearest_float64 (- y) <= nearest_float64 (- x))%Q)
      by (apply nearest_float64_mono_pos; lra).
    rewrite !nearest_float64_opp in H. lra.
  - pose proof (nearest_float64_nonneg y Hy) as Hy'.
    assert (H : (0 <= nearest_float64 (- x))%Q)
      by (apply nearest_float64_nonneg; lra).
    rewrite nearest_float64_opp in H. lra.
Qed.

(** A value [n * 2 ^ j] with less than 53 bits in [n] and [j] in the range of
    the exponents is a float64: rounding leaves it as it is. *)
Lemma nearest_float64_exact_pos (n j : Z) :
  0 < n < 2 ^ 53 -> -1074 <= j ->
  (nearest_float64 (inject_Z n * pow2 j) == inject_Z n * pow2 j)%Q.
Proof.
  intros Hn Hj. set (x := (inject_Z n * pow2 j)%Q).
  pose proof (pow2_positive j) as Hpj.
  assert (Hx : (0 < x)%Q).
  { unfold x. apply Qmult_lt_0_compat; [| exact Hpj].
    change 0%Q with (inject_Z 0). rewrite <- Zlt_Qlt. lia. }
  assert (Hexp : float64_exponent x <= j).
  { rewrite (float64_exponent_pos x Hx).
    destruct (ilog2_spec x Hx) as [Hlo _].
    assert (Hup : (x < pow2 (j + 53))%Q).
    { unfold x. rewrite Z.add_comm, pow2_add, (pow2_inject 53) by lia.
      apply Qmult_lt_compat_r; [exact Hpj |]. rewrite <- Zlt_Qlt. lia. }
    assert (ilog2 x < j + 53) by (apply pow2_lt_inv; lra).
    lia. }
  unfold nearest_float64. set (e := float64_exponent x) in *.
  pose proof (pow2_positive e) as He.
  assert (Hsplit : (pow2 j == pow2 (j - e) * pow2 e)%Q).
  { rewrite <- pow2_add. now replace (j - e + e) with j by lia. }
  assert (Hscaled : (x / pow2 e == inject_Z (n * 2 ^ (j - e)))%Q).
  { unfold x. rewrite Hsplit, inject_Z_mult, <- pow2_inject by lia.
    field. lra. }
  rewrite (py_round_comp _ _ Hscaled), py_round_inject_Z.
  unfold x. rewrite Hsplit, inject_Z_mult, <- pow2_inject by lia. ring.
Qed.

Lemma nearest_float64_exact (n j : Z) :
  - 2 ^ 53 < n < 2 ^ 53 -> -1074 <= j ->
  (nearest_float64 (inject_Z n * pow2 j) == inject_Z n * pow2 j)%Q.
Proof.
  intros Hn Hj.
  destruct (Z.lt_trichotomy n 0) as [Hneg | [-> | Hpos]].
  - assert (H : (inject_Z n * pow2 j == - (inject_Z (- n) * pow2 j))%Q)
      by (rewrite inject_Z_opp; ring).
    rewrite H, nearest_float64_opp, nearest_float64_exact_pos; [reflexivity | lia | lia].
  - rewrite nearest_float64_zero; [| change (inject_Z 0) with 0%Q; ring].
    change (inject_Z 0) with 0%Q. ring.
  - apply nearest_float64_exact_pos; [lia | exact Hj].
Qed.

Lemma nearest_float64_int (n : Z) :
  - 2 ^ 53 < n < 2 ^ 53 -> (nearest_float64 (inject_Z n) == inject_Z n)%Q.
Proof.
  intros Hn.
  assert (H : (inject_Z n == inject_Z n * pow2 0)%Q) by (change (pow2 0) with 1%Q; ring).
  rewrite H at 1. rewrite nearest_float64_exact; [symmetry; exact H | exact Hn | lia].
Qed.

(** Up to [2 ^ 50] the rounding moves a value by at most an eighth. *)
Lemma nearest_float64_near (x : Q) :
  (- inject_Z (2 ^ 50) <= x)%Q -> (x < inject_Z (2 ^ 50))%Q ->
  (x - (1 # 8) <= nearest_float64 x /\ nearest_float64 x <= x + (1 # 8))%Q.
Proof.
  intros Hlo Hhi.
  set (k := Qfloor (8 * x)).
  pose proof (Qfloor_le (8 * x)) as Klo. fold k in Klo.
  pose proof (Qlt_floor (8 * x)) as Khi. fold k in Khi.
  rewrite inject_Z_succ in Khi.
  assert (Hk : - 2 ^ 53 - 1 < k /\ k < 2 ^ 53).
  { split.
    - assert (H : (inject_Z (- 2 ^ 53 - 1) < inject_Z k)%Q).
      { change (inject_Z (- 2 ^ 53 - 1)) with (- (8 * inject_Z (2 ^ 50)) - 1)%Q. lra. }
      rewrite <- Zlt_Qlt in H. lia.
    - assert (H : (inject_Z k < inject_Z (2 ^ 53))%Q).
      { change (inject_Z (2 ^ 53)) with (8 * inject_Z (2 ^ 50))%Q. lra. }
      rewrite <- Zlt_Qlt in H. lia. }
  assert (Hgrid : forall n, - 2 ^ 53 <= n <= 2 ^ 53 ->
            (nearest_float64 (inject_Z n * (1 # 8)) == inject_Z n * (1 # 8))%Q).
  { intros n Hn.
    destruct (Z.eq_dec n (2 ^ 53)) as [-> | H1].
    { assert (E : (inject_Z (2 ^ 53) * (1 # 8) == inject_Z (2 ^ 50) * pow2 0)%Q)
        by reflexivity.
      rewrite E. apply nearest_float64_exact; lia. }
    destruct (Z.eq_dec n (- 2 ^ 53)) as [-> | H2].
    { assert (E : (inject_Z (- 2 ^ 53) * (1 # 8) == inject_Z (- 2 ^ 50) * pow2 0)%Q)
        by reflexivity.
      rewrite E. apply nearest_float64_exact; lia. }
    change (1 # 8)%Q with (pow2 (-3)). apply nearest_float64_exact; lia. }
  assert (Hbelow : (inject_Z k * (1 # 8) <= x)%Q) by lra.
  assert (Habove : (x <= inject_Z (k + 1) * (1 # 8))%Q) by (rewrite inject_Z_succ; lra).
  apply nearest_float64_mono in Hbelow, Habove.
  rewrite (Hgrid k) in Hbelow by lia. rewrite (Hgrid (k + 1)) in Habove by lia.
  rewrite inject_Z_succ in Habove. split; lra.
Qed.

(** ** Edge Cropper *)

Lemma py_slice_inner {A} (row : list A) (lo hi : Z) :
  0 <= lo <= hi -> hi <= Z.of_nat (length row) ->
  py_slice row lo hi = firstn (Z.to_nat (hi - lo)) (skipn (Z.to_nat lo) row)
  /\ Z.of_nat (length (py_slice row lo hi)) = hi - lo.
Proof.
  intros Hlo Hhi. unfold py_slice, slice_bound.
  destruct (Z.ltb_spec lo 0) as [? | _]; [lia |].
  destruct (Z.ltb_spec hi 0) as [? | _]; [lia |].
  rewrite !Z.min_l by lia. split; [reflexivity |].
  rewrite length_firstn, length_skipn. lia.
Qed.

Lemma shape1_rect {A} (image : grid A) (w : Z) :
  image <> [] -> Forall (fun row => Z.of_nat (length row) = w) image ->
  shape1 image = w.
Proof.
  intros Hne Hrect. destruct image as [| row rest]; [contradiction |].
  inversion Hrect; subst. reflexivity.
Qed.

Lemma py_slice_crossed {A} (row : list A) (lo hi : Z) :
  slice_bound (Z.of_nat (length row)) hi <= slice_bound (Z.of_nat (length row)) lo ->
  py_slice row lo hi = [].
Proof.
  intros Hle. unfold py_slice.
  replace (Z.to_nat _) with 0%nat by lia. reflexivity.
Qed.

(** A float64 below and a float64 above a value stay below and above its
    rounding. *)
Lemma nearest_float64_ge (g x : Q) :
  (nearest_float64 g == g)%Q -> (g <= x)%Q -> (g <= nearest_float64 x)%Q.
Proof.
  intros Hg Hgx. apply Qle_trans with (nearest_float64 g).
  - rewrite Hg. apply Qle_refl.
  - now apply nearest_float64_mono.
Qed.

Lemma nearest_float64_le (g x : Q) :
  (nearest_float64 g == g)%Q -> (x <= g)%Q -> (nearest_float64 x <= g)%Q.
Proof.
  intros Hg Hxg. apply Qle_trans with (nearest_float64 g).
  - now apply nearest_float64_mono.
  - rewrite Hg. apply Qle_refl.
Qed.

Lemma nearest_float64_half (n : Z) :
  - 2 ^ 53 < n < 2 ^ 53 ->
  (nearest_float64 (inject_Z n * (1 # 2)) == inject_Z n * (1 # 2))%Q.
Proof.
  intros Hn. change (1 # 2)%Q with (pow2 (-1)).
  apply nearest_float64_exact; lia.
Qed.

Lemma nearest_float64_pow2 (k : Z) :
  -1074 <= k -> (nearest_float64 (pow2 k) == pow2 k)%Q.
Proof.
  intros Hk.
  assert (H : (pow2 k == inject_Z 1 * pow2 k)%Q) by (change (inject_Z 1) with 1%Q; ring).
  rewrite H at 1. rewrite nearest_float64_exact; [symmetry; exact H | lia | exact Hk].
Qed.

Lemma nearest_float64_bounded (x : Q) (k : Z) :
  -1074 <= k -> (- pow2 k <= x)%Q -> (x <= pow2 k)%Q ->
  (- pow2 k <= nearest_float64 x /\ nearest_float64 x <= pow2 k)%Q.
Proof.
  intros Hk Hlo Hhi. split.
  - apply nearest_float64_ge; [| exact Hlo].
    rewrite nearest_float64_opp, nearest_float64_pow2 by exact Hk. reflexivity.
  - apply nearest_float64_le; [| exact Hhi]. now apply nearest_float64_pow2.
Qed.

(** Below [2 ^ 1024] in size a result is finite, from there on infinite. *)
Lemma to_float64_finite (x : Q) (k : Z) :
  -1074 <= k < 1024 -> (- pow2 k <= x)%Q -> (x <= pow2 k)%Q ->
  to_float64 x = Finite (nearest_float64 x).
Proof.
  intros Hk Hlo Hhi.
  destruct (nearest_float64_bounded x k) as [Blo Bhi]; [lia | exact Hlo | exact Hhi |].
  pose proof (pow2_lt k 1024 ltac:(lia)) as Hlt.
  unfold to_float64.
  destruct (Qle_bool (pow2 1024) (nearest_float64 x)) eqn:Hup.
  { apply Qle_bool_iff in Hup. lra. }
  destruct (Qle_bool (nearest_float64 x) (- pow2 1024)) eqn:Hdn.
  { apply Qle_bool_iff in Hdn. lra. }
  reflexivity.
Qed.

Lemma to_float64_overflow (x : Q) : (pow2 1024 <= x)%Q -> to_float64 x = PosInf.
Proof.
  intros Hx.
  assert (H : (pow2 1024 <= nearest_float64 x)%Q)
    by (apply nearest_float64_ge; [apply nearest_float64_pow2; lia | exact Hx]).
  unfold to_float64. apply Qle_bool_iff in H. now rewrite H.
Qed.

Lemma to_float64_overflow_neg (x : Q) : (x <= - pow2 1024)%Q -> to_float64 x = NegInf.
Proof.
  intros Hx.
  assert (H : (nearest_float64 x <= - pow2 1024)%Q).
  { apply nearest_float64_le; [| exact Hx].
    rewrite nearest_float64_opp, nearest_float64_pow2 by lia. reflexivity. }
  pose proof (pow2_positive 1024) as Hpos.
  unfold to_float64.
  destruct (Qle_bool (pow2 1024) (nearest_float64 x)) eqn:Hup.
  { apply Qle_bool_iff in Hup. lra. }
  apply Qle_bool_iff in H. now rewrite H.
Qed.

Lemma pow2_50 : (pow2 50 == inject_Z (2 ^ 50))%Q.
Proof. apply pow2_inject. lia. Qed.

Lemma inject_Z_width (w : Z) :
  0 <= w < 2 ^ 50 -> (0 <= inject_Z w /\ inject_Z w < inject_Z (2 ^ 50))%Q.
Proof.
  intros Hw. split.
  - change 0%Q with (inject_Z 0). rewrite <- Zle_Qle. lia.
  - rewrite <- Zlt_Qlt. lia.
Qed.

(** The width of an image is a float64 as it is. *)
Lemma float_of_int_width (w : Z) :
  0 <= w < 2 ^ 50 ->
  exists f, float_of_int w = Ok (Finite f) /\ (f == inject_Z w)%Q.
Proof.
  intros Hw. exists (nearest_float64 (inject_Z w)).
  destruct (inject_Z_width w Hw) as [W0 W1].
  pose proof (pow2_positive 50) as Hpos. pose proof pow2_50 as H50.
  split.
  - unfold float_of_int. rewrite (to_float64_finite (inject_Z w) 50); [reflexivity | lia | lra | lra].
  - apply nearest_float64_int. lia.
Qed.

Lemma shape1_nonneg {A} (image : grid A) : 0 <= shape1 image.
Proof. unfold shape1. lia. Qed.

(** Without overflow the Edge Cropper slices every row at its two columns. *)
Lemma crop_edges_finite {A} (image : grid A) (p : Q) :
  shape1 image < 2 ^ 50 ->
  (- pow2 1000 <= p * inject_Z (shape1 image))%Q ->
  (p * inject_Z (shape1 image) <= pow2 1000)%Q ->
  crop_edges image (Finite p)
  = Ok (map (fun row => py_slice row (left_crop_column (shape1 image) p)
                                 (right_crop_column (shape1 image) p)) image).
Proof.
  intros Hw Hlo Hhi. unfold crop_edges. cbv zeta.
  generalize (shape1_nonneg image). revert Hw Hlo Hhi.
  generalize (shape1 image) as w. intros w Hw Hlo Hhi Hw0.
  destruct (float_of_int_width w (conj Hw0 Hw)) as (f & -> & Hf).
  destruct (inject_Z_width w (conj Hw0 Hw)) as [W0 W1].
  pose proof pow2_50 as H50.
  pose proof (pow2_le 50 1000 ltac:(lia)) as H1000.
  pose proof (pow2_succ 1000) as H1001. change (1000 + 1) with 1001 in H1001.
  assert (Hpf : (p * f == p * inject_Z w)%Q) by now rewrite Hf.
  cbn [bind mul_float64].
  rewrite (to_float64_finite (p * f) 1000) by (lia || rewrite Hpf; assumption).
  cbn [round_float bind sub_float64].
  destruct (nearest_float64_bounded (p * f) 1000) as [Blo Bhi];
    [lia | rewrite Hpf; assumption | rewrite Hpf; assumption |].
  rewrite (to_float64_finite (f - nearest_float64 (p * f)) 1001) by (lia || lra).
  cbn [round_float bind]. f_equal.
  assert (Hleft : py_round (nearest_float64 (p * f)) = left_crop_column w p).
  { unfold left_crop_column. apply py_round_comp. now rewrite Hpf. }
  assert (Hright : py_round (nearest_float64 (f - nearest_float64 (p * f)))
                   = right_crop_column w p).
  { unfold right_crop_column. apply py_round_comp. now rewrite Hpf, Hf. }
  now rewrite Hleft, Hright.
Qed.

Lemma crop_edges_nil {A} (p : Q) : crop_edges (@nil (list A)) (Finite p) = Ok [].
Proof.
  pose proof (pow2_positive 1000) as Hpos.
  rewrite crop_edges_finite; [reflexivity | reflexivity | |];
    cbn [shape1 hd length Z.of_nat]; change (inject_Z 0) with 0%Q; lra.
Qed.

Lemma crop_edges_rect {A} (image : grid A) (w : Z) (p : Q) :
  Forall (fun row => Z.of_nat (length row) = w) image ->
  w < 2 ^ 50 ->
  (- pow2 1000 <= p * inject_Z w)%Q -> (p * inject_Z w <= pow2 1000)%Q ->
  crop_edges image (Finite p)
  = Ok (map (fun row => py_slice row (left_crop_column w p) (right_crop_column w p))
            image).
Proof.
  intros Hrect Hw Hlo Hhi. destruct image as [| row0 rest]; [apply crop_edges_nil |].
  assert (Hshape : shape1 (row0 :: rest) = w)
    by (apply shape1_rect; [discriminate | exact Hrect]).
  rewrite crop_edges_finite; rewrite Hshape; [reflexivity | | |]; assumption.
Qed.

(** The two crop columns for a fraction between 0 and one half: the product
    stays below half the width and the difference above it. *)
Lemma crop_columns_ordered (w : Z) (p : Q) :
  0 <= w < 2 ^ 50 -> (0 <= p)%Q -> (p <= 1 # 2)%Q ->
  let x := nearest_float64 (p * inject_Z w) in
  let z := nearest_float64 (inject_Z w - x) in
  (0 <= x /\ x <= inject_Z w * (1 # 2)
   /\ inject_Z w * (1 # 2) <= z /\ z <= inject_Z w)%Q.
Proof.
  intros Hw Hp0 Hp1 x z.
  destruct (inject_Z_width w Hw) as [W0 W1].
  assert (Hx0 : (0 <= p * inject_Z w)%Q) by (apply Qmult_le_0_compat; assumption).
  assert (Hx1 : (p * inject_Z w <= inject_Z w * (1 # 2))%Q).
  { rewrite (Qmult_comm (inject_Z w)). apply Qmult_le_compat_r; assumption. }
  assert (X0 : (0 <= x)%Q) by (apply nearest_float64_nonneg; exact Hx0).
  assert (X1 : (x <= inject_Z w * (1 # 2))%Q)
    by (apply nearest_float64_le; [apply nearest_float64_half; lia | exact Hx1]).
  assert (Z0 : (inject_Z w * (1 # 2) <= z)%Q)
    by (apply nearest_float64_ge; [apply nearest_float64_half; lia | lra]).
  assert (Z1 : (z <= inject_Z w)%Q)
    by (apply nearest_float64_le; [apply nearest_float64_int; lia | lra]).
  repeat split; assumption.
Qed.

(** Beyond one half the two crop columns cross. *)
Lemma crop_columns_crossed (w : Z) (p : Q) :
  0 <= w < 2 ^ 50 -> (1 # 2 < p)%Q ->
  slice_bound w (right_crop_column w p) <= slice_bound w (left_crop_column w p).
Proof.
  intros Hw Hp. unfold left_crop_column, right_crop_column.
  destruct (inject_Z_width w Hw) as [W0 W1].
  assert (Hhalf : (inject_Z w * (1 # 2) <= p * inject_Z w)%Q).
  { rewrite (Qmult_comm (inject_Z w)). apply Qmult_le_compat_r; [lra | exact W0]. }
  set (x := nearest_float64 (p * inject_Z w)).
  set (z := nearest_float64 (inject_Z w - x)).
  assert (X : (inject_Z w * (1 # 2) <= x)%Q)
    by (apply nearest_float64_ge; [apply nearest_float64_half; lia | exact Hhalf]).
  assert (Z : (z <= inject_Z w * (1 # 2))%Q)
    by (apply nearest_float64_le; [apply nearest_float64_half; lia | lra]).
  assert (Hleft : 0 <= py_round x) by (apply py_round_nonneg; lra).
  assert (Hcross : py_round z <= py_round x) by (apply py_round_mono; lra).
  unfold slice_bound.
  destruct (Z.ltb_spec (py_round x) 0) as [? | _]; [lia |].
  destruct (Z.ltb_spec (py_round z) 0) as [Hneg | Hpos]; [| lia].
  assert (Hbig : w <= py_round x).
  { destruct (Qlt_le_dec x (inject_Z w)) as [Hlt | Hge].
    - exfalso.
      assert (0 <= py_round z); [| lia].
      apply py_round_nonneg, nearest_float64_nonneg. lra.
    - rewrite <- (py_round_inject_Z w) at 1. now apply py_round_mono. }
  lia.
Qed.

Lemma crop_edges_crossed {A} (image : grid A) (w : Z) (p : Q) :
  Forall (fun row => Z.of_nat (length row) = w) image ->
  w < 2 ^ 50 -> (1 # 2 < p)%Q -> (p * inject_Z w <= pow2 1000)%Q ->
  exists cropped,
    crop_edges image (Finite p) = Ok cropped /\ Forall (fun row => row = []) cropped.
Proof.
  intros Hrect Hw Hhalf Hhi.
  destruct image as [| row0 rest]; [exists []; split; [apply crop_edges_nil | constructor] |].
  assert (Hw0 : 0 <= w) by (inversion Hrect; subst; lia).
  destruct (inject_Z_width w (conj Hw0 Hw)) as [W0 W1].
  pose proof (pow2_positive 1000) as Hpos.
  assert (Hlo : (0 <= p * inject_Z w)%Q) by (apply Qmult_le_0_compat; lra).
  eexists. split; [apply (crop_edges_rect _ w p Hrect Hw); lra |].
  apply Forall_forall. intros out Hout. apply in_map_iff in Hout.
  destruct Hout as (row & <- & Hin).
  rewrite Forall_forall in Hrect. specialize (Hrect row Hin).
  apply py_slice_crossed. rewrite Hrect.
  apply crop_columns_crossed; [lia | exact Hhalf].
Qed.

(** A product beyond the range of float64 is an infinity, which has no
    rounding. *)
Lemma crop_edges_overflow {A} (image : grid A) (w : Z) (p : Q) :
  image <> [] ->
  Forall (fun row => Z.of_nat (length row) = w) image ->
  w < 2 ^ 50 ->
  (pow2 1024 <= p * inject_Z w)%Q \/ (p * inject_Z w <= - pow2 1024)%Q ->
  crop_edges image (Finite p) = Raise OverflowError.
Proof.
  intros Hne Hrect Hw Hbig.
  assert (Hw0 : 0 <= w).
  { destruct image as [| row rest]; [contradiction |].
    inversion Hrect; subst. lia. }
  unfold crop_edges. cbv zeta. rewrite (shape1_rect image w Hne Hrect).
  destruct (float_of_int_width w (conj Hw0 Hw)) as (f & -> & Hf).
  assert (Hpf : (p * f == p * inject_Z w)%Q) by now rewrite Hf.
  cbn [bind mul_float64].
  destruct Hbig as [Hbig | Hbig].
  - rewrite (to_float64_overflow (p * f)) by (rewrite Hpf; exact Hbig). reflexivity.
  - rewrite (to_float64_overflow_neg (p * f)) by (rewrite Hpf; exact Hbig). reflexivity.
Qed.

(** C3, as the code has it.  For an image of width [w] and a crop fraction
    [p] between 0 and one half, the Edge Cropper keeps the columns from
    [left = round(p * w)] up to [right = round(w - p * w)], where the product
    and the difference are those of float64 and [round] rounds half to even;
    the output width is [right - left].  This width is within one column of
    [round(w * (1 - 2p))], and [right] within one column of [w - left]. *)
Theorem crop_edges_columns {A} (image : grid A) (w : Z) (p : Q) :
  image <> [] ->
  Forall (fun row => Z.of_nat (length row) = w) image ->
  w < 2 ^ 50 ->
  (0 <= p)%Q -> (p <= 1 # 2)%Q ->
  let left := left_crop_column w p in
  let right := right_crop_column w p in
  0 <= left <= right /\ right <= w
  /\ (exists cropped,
        crop_edges image (Finite p) = Ok cropped
        /\ cropped
           = map (fun row => firstn (Z.to_nat (right - left)) (skipn (Z.to_nat left) row))
                 image
        /\ Forall (fun row => Z.of_nat (length row) = right - left) cropped)
  /\ Z.abs (right - left - py_round (inject_Z w * (1 - 2 * p))) <= 1
  /\ Z.abs (right - (w - left)) <= 1.
Proof.
  intros Hne Hrect Hw Hp0 Hp1 left right.
  assert (Hw0 : 0 <= w).
  { destruct image as [| row rest]; [contradiction |].
    inversion Hrect; subst. lia. }
  destruct (inject_Z_width w (conj Hw0 Hw)) as [W0 W1].
  destruct (crop_columns_ordered w p (conj Hw0 Hw) Hp0 Hp1) as (X0 & X1 & Z0 & Z1).
  unfold left, right, left_crop_column, right_crop_column in *.
  set (x := nearest_float64 (p * inject_Z w)) in *.
  set (z := nearest_float64 (inject_Z w - x)) in *.
  assert (Hx0 : (0 <= p * inject_Z w)%Q) by (apply Qmult_le_0_compat; assumption).
  assert (Hx1 : (p * inject_Z w <= inject_Z w * (1 # 2))%Q).
  { rewrite (Qmult_comm (inject_Z w)). apply Qmult_le_compat_r; assumption. }
  assert (H0 : 0 <= py_round x) by (apply py_round_nonneg; exact X0).
  assert (H1 : py_round x <= py_round z) by (apply py_round_mono; lra).
  assert (H2 : py_round z <= w).
  { etransitivity; [apply (py_round_mono _ (inject_Z w)); exact Z1 |].
    rewrite py_round_inject_Z. lia. }
  assert (Hrows : forall row, In row image ->
            py_slice row (py_round x) (py_round z)
            = firstn (Z.to_nat (py_round z - py_round x)) (skipn (Z.to_nat (py_round x)) row)
            /\ Z.of_nat (length (py_slice row (py_round x) (py_round z)))
               = py_round z - py_round x).
  { intros row Hin. apply py_slice_inner; [lia |].
    rewrite Forall_forall in Hrect. rewrite (Hrect row Hin). exact H2. }
  pose proof (pow2_positive 1000) as Hpos.
  pose proof (pow2_le 50 1000 ltac:(lia)) as H1000. pose proof pow2_50 as H50.
  assert (Hcrop : crop_edges image (Finite p)
                  = Ok (map (fun row => py_slice row (py_round x) (py_round z)) image)).
  { apply (crop_edges_rect image w p Hrect Hw); lra. }
  destruct (nearest_float64_near (p * inject_Z w)) as [Xlo Xhi]; [lra | lra |].
  destruct (nearest_float64_near (inject_Z w - x)) as [Zlo Zhi]; [lra | lra |].
  fold x in Xlo, Xhi. fold z in Zlo, Zhi.
  destruct (py_round_bounds x) as [Llo Lhi].
  destruct (py_round_bounds z) as [Rlo Rhi].
  split; [lia |]. split; [exact H2 |]. split; [| split].
  - eexists. split; [exact Hcrop |]. split.
    + apply map_ext_in. intros row Hin. apply (Hrows row Hin).
    + apply Forall_forall. intros row' Hin'.
      apply in_map_iff in Hin'. destruct Hin' as (row & <- & Hin).
      apply (Hrows row Hin).
  - destruct (py_round_bounds (inject_Z w * (1 - 2 * p))) as [Clo Chi].
    set (c := py_round (inject_Z w * (1 - 2 * p))) in *.
    assert (Hc : (inject_Z w * (1 - 2 * p) == inject_Z w - 2 * (p * inject_Z w))%Q)
      by ring.
    rewrite Hc in Clo, Chi.
    set (y := (p * inject_Z w)%Q) in *.
    assert (Hup : (inject_Z (py_round z - py_round x - c) < inject_Z 2)%Q)
      by (push_inject; change (inject_Z 2) with 2%Q; lra).
    assert (Hdn : (inject_Z (-2) < inject_Z (py_round z - py_round x - c))%Q)
      by (push_inject; change (inject_Z (-2)) with (-2)%Q; lra).
    rewrite <- Zlt_Qlt in Hup, Hdn. lia.
  - assert (Hup : (inject_Z (py_round z - (w - py_round x)) < inject_Z 2)%Q)
      by (push_inject; change (inject_Z 2) with 2%Q; lra).
    assert (Hdn : (inject_Z (-2) < inject_Z (py_round z - (w - py_round x)))%Q)
      by (push_inject; change (inject_Z (-2)) with (-2)%Q; lra).
    rewrite <- Zlt_Qlt in Hup, Hdn. lia.
Qed.

(** The theorem at the ten columns of [scan_1x10] and the default fraction,
    the float64 nearest to 0.15. *)
Lemma crop_edges_columns_witness :
  exists cropped,
    crop_edges scan_1x10 (Finite (nearest_float64 (15 # 100))) = Ok cropped
    /\ cropped
       = map (fun row =>
                firstn (Z.to_nat (right_crop_column 10 (nearest_float64 (15 # 100))
                                  - left_crop_column 10 (nearest_float64 (15 # 100))))
                       (skipn (Z.to_nat (left_crop_column 10 (nearest_float64 (15 # 100))))
                              row))
             scan_1x10
    /\ Forall (fun row => Z.of_nat (length row)
                          = right_crop_column 10 (nearest_float64 (15 # 100))
                            - left_crop_column 10 (nearest_float64 (15 # 100)))
              cropped.
Proof.
  refine (proj1 (proj2 (proj2
    (crop_edges_columns scan_1x10 10 (nearest_float64 (15 # 100)) _ _ _ _ _)))).
  - discriminate.
  - repeat constructor.
  - reflexivity.
  - vm_compute. discriminate.
  - vm_compute. discriminate.
Defined.

(** C3, refuted as stated.  At width 10 and fraction 1/4 the Edge Cropper
    keeps the columns 2 to 8, six columns, where [round(10 * (1 - 2/4))] is
    5.  At width 90 and the float64 nearest to 0.35 the product is just below
    31.5 and the difference is 58.5: the columns 31 to 58 are kept, and the
    right bound 58 is not the width less the left bound, 59. *)
Lemma crop_edges_width_counterexample :
  crop_edges scan_1x10 (Finite (1 # 4)) = Ok [[2; 3; 4; 5; 6; 7]]
  /\ py_round (inject_Z 10 * (1 - 2 * (1 # 4))) = 5
  /\ 6 <> 5
  /\ crop_edges [py_range 0 90] (to_float64 (35 # 100)) = Ok [py_range 31 58]
  /\ left_crop_column 90 (nearest_float64 (35 # 100)) = 31
  /\ right_crop_column 90 (nearest_float64 (35 # 100)) = 58
  /\ 58 <> 90 - 31.
Proof.
  repeat split; try (vm_compute; reflexivity); lia.
Qed.

(** ** Arrays: general facts *)

Lemma map2_map_r {A B C} (f : A -> B -> C) (g : A -> B) (l : list A) :
  map2 f l (map g l) = map (fun x => f x (g x)) l.
Proof. induction l as [| x l IH]; simpl; [reflexivity | now rewrite IH]. Qed.

Lemma map2_map_l {A B C} (f : B -> A -> C) (g : A -> B) (l : list A) :
  map2 f (map g l) l = map (fun x => f (g x) x) l.
Proof. induction l as [| x l IH]; simpl; [reflexivity | now rewrite IH]. Qed.

Lemma grid_map_map {A B C} (f : A -> B) (g : B -> C) (a : grid A) :
  grid_map g (grid_map f a) = grid_map (fun x => g (f x)) a.
Proof.
  unfold grid_map. rewrite map_map. apply map_ext. intros row. apply map_map.
Qed.

Lemma concat_grid_map {A B} (f : A -> B) (a : grid A) :
  concat (grid_map f a) = map f (concat a).
Proof. unfold grid_map. symmetry. apply concat_map. Qed.

Lemma grid_map_ext_in {A B} (f g : A -> B) (a : grid A) :
  (forall x, In x (concat a) -> f x = g x) -> grid_map f a = grid_map g a.
Proof.
  intros H. unfold grid_map. apply map_ext_in. intros row Hrow.
  apply map_ext_in. intros x Hx. apply H. apply in_concat. eauto.
Qed.

Lemma grid_map_id {A} (f : A -> A) (a : grid A) :
  (forall x, In x (concat a) -> f x = x) -> grid_map f a = a.
Proof.
  intros H. rewrite (grid_map_ext_in f (fun x => x) a H).
  unfold grid_map. rewrite <- (map_id a) at 2. apply map_ext. intros row. apply map_id.
Qed.

Lemma same_shape_grid_map {A B} (f : A -> B) (a : grid A) :
  same_shape (grid_map f a) a = true.
Proof.
  induction a as [| row a IH]; simpl; [reflexivity |].
  rewrite length_map, Nat.eqb_refl. exact IH.
Qed.

Lemma same_shape_grid_map_r {A B} (f : A -> B) (a : grid A) :
  same_shape a (grid_map f a) = true.
Proof.
  induction a as [| row a IH]; simpl; [reflexivity |].
  rewrite length_map, Nat.eqb_refl. exact IH.
Qed.

Lemma last_row_grid_map (f : Z -> Z) (a : grid Z) :
  last_row (grid_map f a) = map f (last_row a).
Proof.
  unfold last_row, grid_map.
  induction a as [| row a IH]; [reflexivity |].
  destruct a as [| row' a]; [reflexivity |].
  change (last (map (map f) (row' :: a)) [] = map f (last (row' :: a) [])).
  exact IH.
Qed.

Lemma cell_grid_map {A B} (f : A -> B) (a : grid A) (r c : Z) :
  cell (grid_map f a) r c = option_map f (cell a r c).
Proof.
  unfold cell, grid_map.
  destruct ((r <? 0) || (c <? 0)); [reflexivity |].
  rewrite nth_error_map.
  destruct (nth_error a (Z.to_nat r)) as [row |]; simpl; [| reflexivity].
  apply nth_error_map.
Qed.

Lemma cell_In {A} (a : grid A) (r c : Z) (v : A) :
  cell a r c = Some v -> In v (concat a).
Proof.
  unfold cell. destruct ((r <? 0) || (c <? 0)); [discriminate |].
  destruct (nth_error a (Z.to_nat r)) as [row |] eqn:Hrow; [| discriminate].
  intros Hv. apply in_concat. exists row.
  split; eauto using nth_error_In.
Qed.

Lemma py_in_In (x : Z) (row : list Z) : py_in x row = true <-> In x row.
Proof.
  unfold py_in. rewrite existsb_exists. split.
  - intros (y & Hy & Heq). apply Z.eqb_eq in Heq. now subst.
  - intros H. exists x. split; [exact H | apply Z.eqb_refl].
Qed.

Lemma py_in_grid_In (x : Z) (a : grid Z) : py_in_grid x a = true <-> In x (concat a).
Proof.
  unfold py_in_grid. rewrite existsb_exists, in_concat. split.
  - intros (row & Hrow & Hx). exists row. split; [exact Hrow | now apply py_in_In].
  - intros (row & Hrow & Hx). exists row. split; [exact Hrow | now apply py_in_In].
Qed.

Lemma in_py_range (lo hi x : Z) : In x (py_range lo hi) <-> lo <= x < hi.
Proof.
  unfold py_range. rewrite in_map_iff. split.
  - intros (i & <- & Hi). apply in_seq in Hi. lia.
  - intros H. exists (Z.to_nat (x - lo)). split; [lia |]. apply in_seq. lia.
Qed.

Lemma fold_max_upper (xs : list Z) (x : Z) :
  x <= fold_left Z.max xs x /\ forall v, In v xs -> v <= fold_left Z.max xs x.
Proof.
  revert x. induction xs as [| y xs IH]; intros x; simpl.
  - split; [lia | contradiction].
  - destruct (IH (Z.max x y)) as [H1 H2]. split; [lia |].
    intros v [-> | Hv]; [lia | now apply H2].
Qed.

Lemma np_max_spec (a : grid Z) :
  concat a <> [] ->
  exists top, np_max a = Ok top /\ forall v, In v (concat a) -> v <= top.
Proof.
  intros Hne. unfold np_max. destruct (concat a) as [| x xs]; [contradiction |].
  eexists. split; [reflexivity |].
  destruct (fold_max_upper xs x) as [H1 H2].
  intros v [<- | Hv]; [exact H1 | now apply H2].
Qed.

(** ** Edge-Duplicate Filter *)

Lemma masked_assign_eq (a : grid Z) (l v : Z) :
  masked_assign a (np_eq a l) v = grid_map (fun x => if x =? l then v else x) a.
Proof.
  unfold masked_assign, np_eq, grid_map2, grid_map.
  rewrite map2_map_r. apply map_ext. intros row. apply map2_map_r.
Qed.

(** One round of the loop, on a mask of which the labels of [P] are already
    removed. *)
Lemma remove_if_on_edge_step (mask : grid Z) (P : Z -> bool) (l : Z) :
  0 < l ->
  remove_if_on_edge (grid_map (zero_if P) mask) l
  = grid_map (zero_if (fun v => P v || ((v =? l) && py_in l (last_row mask)))) mask.
Proof.
  intros Hl. unfold remove_if_on_edge.
  rewrite last_row_grid_map.
  destruct (py_in l (map (zero_if P) (last_row mask))) eqn:Hin.
  - apply py_in_In, in_map_iff in Hin. destruct Hin as (v & Hv & Hrow).
    unfold zero_if in Hv. destruct (P v) eqn:HPv; [lia | subst v].
    apply py_in_In in Hrow. rewrite Hrow.
    rewrite masked_assign_eq, grid_map_map.
    apply grid_map_ext_in. intros x _. unfold zero_if.
    destruct (P x) eqn:HPx; cbn [orb].
    + destruct (0 =? l); reflexivity.
    + rewrite andb_true_r. reflexivity.
  - apply grid_map_ext_in. intros x _. unfold zero_if.
    destruct (P x) eqn:HPx; simpl; [reflexivity |].
    destruct (Z.eqb_spec x l) as [-> | Hne]; simpl; [| reflexivity].
    destruct (py_in l (last_row mask)) eqn:Hrow; [| reflexivity].
    exfalso. apply not_true_iff_false in Hin. apply Hin.
    apply py_in_In, in_map_iff. exists l. split.
    + unfold zero_if. now rewrite HPx.
    + now apply py_in_In.
Qed.

Lemma remove_loop (mask : grid Z) (labels : list Z) (P : Z -> bool) :
  Forall (fun l => 0 < l) labels ->
  fold_left remove_if_on_edge labels (grid_map (zero_if P) mask)
  = grid_map (zero_if (fun v => P v || (py_in v labels && py_in v (last_row mask)))) mask.
Proof.
  revert P. induction labels as [| l labels IH]; intros P Hpos; simpl.
  - apply grid_map_ext_in. intros x _. unfold zero_if. now rewrite orb_false_r.
  - inversion Hpos as [| ? ? Hl Hrest]; subst.
    rewrite remove_if_on_edge_step by exact Hl.
    rewrite IH by exact Hrest.
    apply grid_map_ext_in. intros x _. unfold zero_if.
    rewrite <- orb_assoc. cbn [py_in existsb].
    destruct (Z.eqb_spec x l) as [-> | Hne]; cbn [orb andb]; [| reflexivity].
    destruct (P l), (py_in l labels), (py_in l (last_row mask)); reflexivity.
Qed.

(** The filter in closed form. *)
Lemma remove_bottom_edge_spec (mask : grid Z) :
  concat mask <> [] ->
  remove_bottom_edge mask = Ok (grid_map (zero_if (on_bottom_edge mask)) mask).
Proof.
  intros Hne. unfold remove_bottom_edge.
  destruct (np_max_spec mask Hne) as (top & -> & Htop). simpl. f_equal.
  rewrite <- (grid_map_id (zero_if (fun _ => false)) mask) at 1
    by reflexivity.
  rewrite remove_loop.
  - apply grid_map_ext_in. intros x Hx. unfold zero_if, on_bottom_edge.
    cbn [orb].
    assert (Hrange : py_in x (py_range 1 (top + 1)) = (0 <? x)).
    { destruct (Z.ltb_spec 0 x) as [Hpos | Hneg].
      - apply py_in_In, in_py_range. specialize (Htop x Hx). lia.
      - apply not_true_iff_false. rewrite py_in_In, in_py_range. lia. }
    now rewrite Hrange.
  - apply Forall_forall. intros l Hl. apply in_py_range in Hl. lia.
Qed.

Lemma on_bottom_edge_gone (mask : grid Z) (x : Z) :
  In x (last_row (grid_map (zero_if (on_bottom_edge mask)) mask)) -> x <= 0.
Proof.
  rewrite last_row_grid_map, in_map_iff. intros (v & Hv & Hrow).
  unfold zero_if, on_bottom_edge in Hv.
  destruct (Z.ltb_spec 0 v) as [Hpos | Hneg]; cbn [andb] in Hv; [| lia].
  apply py_in_In in Hrow. rewrite Hrow in Hv. lia.
Qed.

(** C4.  On a label mask with at least one pixel the Edge-Duplicate Filter
    returns a mask of the same shape in which every pixel of a positive label
    found in the bottom row of the input is 0, so that no such label is left
    anywhere, and in which every other pixel is as it was: the pixels whose
    label is not in the bottom row, and those that are not positive. *)
Theorem remove_bottom_edge_filters (mask : grid Z) :
  concat mask <> [] ->
  exists out,
    remove_bottom_edge mask = Ok out
    /\ same_shape out mask = true
    /\ (forall r c v, cell mask r c = Some v -> 0 < v -> In v (last_row mask) ->
                      cell out r c = Some 0)
    /\ (forall l, 0 < l -> In l (last_row mask) -> ~ In l (concat out))
    /\ (forall r c v, cell mask r c = Some v -> ~ In v (last_row mask) ->
                      cell out r c = Some v)
    /\ (forall r c v, cell mask r c = Some v -> v <= 0 -> cell out r c = Some v).
Proof.
  intros Hne. eexists. split; [apply remove_bottom_edge_spec; exact Hne |].
  split; [apply same_shape_grid_map |]. split; [| split; [| split]].
  - intros r c v Hcell Hpos Hrow. rewrite cell_grid_map, Hcell. simpl. f_equal.
    unfold zero_if, on_bottom_edge.
    destruct (Z.ltb_spec 0 v) as [_ | Hneg]; [| lia].
    destruct (py_in v (last_row mask)) eqn:Hin; [reflexivity |].
    exfalso. apply (py_in_In v (last_row mask)) in Hrow. congruence.
  - intros l Hl Hrow Hin.
    rewrite concat_grid_map, in_map_iff in Hin. destruct Hin as (v & Hv & _).
    unfold zero_if, on_bottom_edge in Hv.
    destruct (Z.ltb_spec 0 v) as [Hpos | Hneg]; cbn [andb] in Hv; [| lia].
    destruct (py_in v (last_row mask)) eqn:Hin; [lia | subst v].
    apply py_in_In in Hrow. congruence.
  - intros r c v Hcell Hrow. rewrite cell_grid_map, Hcell. simpl. f_equal.
    unfold zero_if, on_bottom_edge.
    destruct (py_in v (last_row mask)) eqn:Hin;
      [apply py_in_In in Hin; contradiction |].
    now rewrite andb_false_r.
  - intros r c v Hcell Hle. rewrite cell_grid_map, Hcell. simpl. f_equal.
    unfold zero_if, on_bottom_edge.
    destruct (Z.ltb_spec 0 v) as [Hpos | _]; [lia | reflexivity].
Qed.

(** The filter on [demo_mask]: defined, and object 4 is gone. *)
Lemma remove_bottom_edge_filters_witness :
  exists out,
    remove_bottom_edge demo_mask = Ok out
    /\ same_shape out demo_mask = true
    /\ (forall r c v, cell demo_mask r c = Some v -> 0 < v -> In v (last_row demo_mask) ->
                      cell out r c = Some 0)
    /\ (forall l, 0 < l -> In l (last_row demo_mask) -> ~ In l (concat out))
    /\ (forall r c v, cell demo_mask r c = Some v -> ~ In v (last_row demo_mask) ->
                      cell out r c = Some v)
    /\ (forall r c v, cell demo_mask r c = Some v -> v <= 0 -> cell out r c = Some v).
Proof.
  apply (remove_bottom_edge_filters demo_mask). discriminate.
Defined.

(** C9.  The Edge-Duplicate Filter is idempotent: on a label mask with at
    least one pixel it returns a mask on which it returns the same mask
    again. *)
Theorem remove_bottom_edge_idempotent (mask : grid Z) :
  concat mask <> [] ->
  exists out,
    remove_bottom_edge mask = Ok out /\ remove_bottom_edge out = Ok out.
Proof.
  intros Hne. eexists. split; [apply remove_bottom_edge_spec; exact Hne |].
  set (out := grid_map (zero_if (on_bottom_edge mask)) mask).
  assert (Hne' : concat out <> []).
  { unfold out. rewrite concat_grid_map. intros Hnil.
    apply map_eq_nil in Hnil. contradiction. }
  rewrite (remove_bottom_edge_spec out Hne'). f_equal.
  apply grid_map_id. intros x _. unfold zero_if, on_bottom_edge.
  destruct (Z.ltb_spec 0 x) as [Hpos | Hneg]; cbn [andb]; [| reflexivity].
  destruct (py_in x (last_row out)) eqn:Hin; [| reflexivity].
  apply py_in_In, on_bottom_edge_gone in Hin. lia.
Qed.

Lemma remove_bottom_edge_idempotent_witness :
  exists out,
    remove_bottom_edge demo_mask = Ok out /\ remove_bottom_edge out = Ok out.
Proof.
  apply (remove_bottom_edge_idempotent demo_mask). discriminate.
Defined.

(** ** Object Locator and Intensity Summarizer *)

Lemma map_snd_combine_seq {A} (l : list A) (idx : list Z) :
  length idx = length l -> map snd (combine idx l) = l.
Proof.
  revert idx. induction l as [| x l IH]; intros [| i idx] Hlen; simpl in *;
    try reflexivity; try discriminate.
  f_equal. apply IH. lia.
Qed.

Lemma map_snd_enumerate {A} (l : list A) : map snd (enumerate l) = l.
Proof.
  unfold enumerate. apply map_snd_combine_seq.
  now rewrite length_map, length_seq.
Qed.

Lemma cells_values_from {A} (rows : grid A) (idx : list Z) :
  length idx = length rows ->
  map snd (flat_map (fun rr => map (fun cv => (fst rr, fst cv, snd cv))
                                   (enumerate (snd rr)))
                    (combine idx rows))
  = concat rows.
Proof.
  revert idx. induction rows as [| row rows IH]; intros [| i idx] Hlen;
    simpl in *; try reflexivity; try discriminate.
  rewrite map_app, map_map. simpl. f_equal.
  - apply (map_snd_enumerate row).
  - apply IH. lia.
Qed.

(** The values of [cells] are the elements of the array, in order. *)
Lemma cells_values {A} (a : grid A) : map snd (cells a) = concat a.
Proof.
  unfold cells. unfold enumerate at 2. apply cells_values_from.
  now rewrite length_map, length_seq.
Qed.

Lemma combine_map_r {A B} (f : A -> B) (l : list A) :
  combine l (map f l) = map (fun x => (x, f x)) l.
Proof. induction l as [| x l IH]; simpl; [reflexivity | now rewrite IH]. Qed.

(** The pixels that [center_of_label] selects when the array is its own
    label array. *)
Lemma center_selection (a : grid Z) (l : Z) :
  map fst (filter (fun p => snd p =? l) (combine (cells a) (concat a)))
  = filter (fun p => snd p =? l) (cells a).
Proof.
  rewrite <- (cells_values a) at 1. rewrite combine_map_r, filter_map_swap, map_map.
  simpl. apply map_id.
Qed.

Lemma zsum_const (l : Z) (sel : list (Z * Z * Z)) :
  Forall (fun p => snd p = l) sel ->
  zsum (map (fun p => snd p) sel) = l * Z.of_nat (length sel).
Proof.
  induction 1 as [| p sel Hp _ IH]; simpl; [lia |].
  rewrite IH, Hp. lia.
Qed.

Lemma selection_nonempty (a : grid Z) (l : Z) :
  filter (fun p => snd p =? l) (cells a) <> [] <-> In l (concat a).
Proof.
  rewrite <- cells_values. rewrite in_map_iff. split.
  - intros Hne. destruct (filter _ _) as [| p sel] eqn:Hsel; [contradiction |].
    assert (Hin : In p (filter (fun p : Z * Z * Z => snd p =? l) (cells a)))
      by (rewrite Hsel; now left).
    apply filter_In in Hin. destruct Hin as [Hin Heq].
    exists p. split; [now apply Z.eqb_eq | exact Hin].
  - intros (p & Heq & Hin) Hnil.
    assert (Hsel : In p (filter (fun p : Z * Z * Z => snd p =? l) (cells a)))
      by (apply filter_In; split; [exact Hin | now apply Z.eqb_eq]).
    rewrite Hnil in Hsel. contradiction.
Qed.

Lemma fdiv_positive (x n : Z) : 0 < n -> is_nan (fdiv (of_int x) (of_int n)) = false.
Proof.
  intros Hn. unfold fdiv, of_int.
  assert (H : (0 < inject_Z n)%Q) by (change 0%Q with (inject_Z 0); now rewrite <- Zlt_Qlt).
  apply Qgt_alt in H. rewrite H. reflexivity.
Qed.

(** A centroid is NaN exactly when its label has no pixel. *)
Lemma center_is_nan (a : grid Z) (l : Z) :
  0 < l ->
  negb (is_nan (fst (center_of_label a a l))) = py_in_grid l a.
Proof.
  intros Hl. unfold center_of_label. rewrite center_selection. cbn [fst].
  set (sel := filter (fun p => snd p =? l) (cells a)).
  destruct (py_in_grid l a) eqn:Hin.
  - apply py_in_grid_In, selection_nonempty in Hin. fold sel in Hin.
    rewrite (zsum_const l sel).
    + rewrite fdiv_positive; [reflexivity |].
      destruct sel; [contradiction | simpl length; lia].
    + apply Forall_forall. intros p Hp. apply filter_In in Hp.
      now apply Z.eqb_eq.
  - assert (Hsel : sel = []).
    { destruct sel as [| p sel'] eqn:Hs; [reflexivity |].
      assert (Hne : filter (fun p => snd p =? l) (cells a) <> [])
        by (fold sel; rewrite Hs; discriminate).
      apply selection_nonempty, py_in_grid_In in Hne. congruence. }
    rewrite Hsel. reflexivity.
Qed.

Lemma py_range_sorted (lo hi : Z) : StronglySorted Z.lt (py_range lo hi).
Proof.
  unfold py_range. generalize (Z.to_nat (hi - lo)) as n. generalize 0%nat as s.
  intros s n. revert s. induction n as [| n IH]; intros s; simpl; constructor.
  - apply IH.
  - apply Forall_forall. intros x Hx. apply in_map_iff in Hx.
    destruct Hx as (i & <- & Hi). apply in_seq in Hi. lia.
Qed.

Lemma filter_sorted (p : Z -> bool) (l : list Z) :
  StronglySorted Z.lt l -> StronglySorted Z.lt (filter p l).
Proof.
  induction 1 as [| x l Hs IH Hx]; simpl; [constructor |].
  destruct (p x); [| exact IH]. constructor; [exact IH |].
  apply Forall_forall. intros y Hy. apply filter_In in Hy.
  rewrite Forall_forall in Hx. now apply Hx.
Qed.

Lemma find_centers_spec (mask : grid Z) (top : Z) :
  np_max mask = Ok top ->
  find_centers mask
  = Ok (map (center_of_label mask mask) (surviving_labels mask top)).
Proof.
  intros Htop. unfold find_centers, center_of_mass, surviving_labels.
  rewrite Htop. simpl. f_equal. rewrite filter_map_swap. f_equal.
  apply filter_ext_in. intros l Hl. apply in_py_range in Hl.
  apply center_is_nan. lia.
Qed.

Lemma same_shape_grid_map2 {A B C D} (f : A -> C) (g : B -> D)
      (a : grid A) (b : grid B) :
  same_shape (grid_map f a) (grid_map g b) = same_shape a b.
Proof.
  revert b. induction a as [| ra a IH]; intros [| rb b]; simpl; try reflexivity.
  now rewrite !length_map, IH.
Qed.

Lemma channel_mean_spec {A} (f : A -> Z) (img : grid A) (mask : grid Z) (l : Z) :
  same_shape img mask = true ->
  channel_mean (grid_map f img) mask l = Ok (label_mean (grid_map f img) mask l).
Proof.
  intros Hshape. unfold channel_mean, bool_index, np_eq.
  rewrite same_shape_grid_map2, Hshape. reflexivity.
Qed.

Lemma mean_intensity_loop (input_image : image) (mask : grid Z) :
  same_shape input_image mask = true ->
  forall (labels : list Z) (R G B : list npfloat),
    for_each (mean_intensity_body (grid_map red input_image)
                                  (grid_map green input_image)
                                  (grid_map blue input_image) mask)
             labels (R, G, B)
    = Ok (R ++ map (label_mean (grid_map red input_image) mask)
                   (filter (fun l => py_in_grid l mask) labels),
          G ++ map (label_mean (grid_map green input_image) mask)
                   (filter (fun l => py_in_grid l mask) labels),
          B ++ map (label_mean (grid_map blue input_image) mask)
                   (filter (fun l => py_in_grid l mask) labels)).
Proof.
  intros Hshape. induction labels as [| l labels IH]; intros R G B; simpl.
  - now rewrite !app_nil_r.
  - destruct (py_in_grid l mask); simpl.
    + rewrite !channel_mean_spec by exact Hshape. simpl.
      rewrite IH, <- !app_assoc. reflexivity.
    + apply IH.
Qed.

Lemma column_stack3_maps {X A B C} (f : X -> A) (g : X -> B) (h : X -> C)
      (l : list X) :
  column_stack3 (map f l) (map g l) (map h l) = Ok (map (fun x => (f x, g x, h x)) l).
Proof.
  unfold column_stack3. rewrite !length_map, Nat.eqb_refl. simpl. f_equal.
  induction l as [| x l IH]; simpl; [reflexivity | now rewrite IH].
Qed.

Lemma mean_intensity_spec (input_image : image) (mask : grid Z) (top : Z) :
  same_shape input_image mask = true ->
  np_max mask = Ok top ->
  mean_intensity input_image mask
  = Ok (map (label_triple input_image mask) (surviving_labels mask top)).
Proof.
  intros Hshape Htop. unfold mean_intensity. rewrite Htop. simpl.
  rewrite (mean_intensity_loop input_image mask Hshape). simpl.
  apply column_stack3_maps.
Qed.

Lemma surviving_labels_In (mask : grid Z) (top : Z) :
  (forall v, In v (concat mask) -> v <= top) ->
  forall l, In l (surviving_labels mask top) <-> 0 < l /\ In l (concat mask).
Proof.
  intros Htop l. unfold surviving_labels.
  rewrite filter_In, in_py_range, py_in_grid_In. split.
  - intros [Hr Hin]. split; [lia | exact Hin].
  - intros [Hl Hin]. split; [specialize (Htop l Hin); lia | exact Hin].
Qed.

(** C2.  On an image and a label mask of one shape with at least one pixel,
    the Object Locator and the Intensity Summarizer both return, their
    outputs have the same length, and both run over the same labels: the
    positive labels with a pixel in the mask, in ascending order.  Position by
    position, the centroid and the triple of means belong to the same
    label. *)
Theorem centers_and_intensities_aligned (input_image : image) (mask : grid Z) :
  concat mask <> [] ->
  same_shape input_image mask = true ->
  exists top centers rgb,
    np_max mask = Ok top
    /\ find_centers mask = Ok centers
    /\ mean_intensity input_image mask = Ok rgb
    /\ length centers = length rgb
    /\ centers = map (center_of_label mask mask) (surviving_labels mask top)
    /\ Forall2 (fun l (t : triple) =>
                  channel_mean (grid_map red input_image) mask l = Ok (fst (fst t))
                  /\ channel_mean (grid_map green input_image) mask l = Ok (snd (fst t))
                  /\ channel_mean (grid_map blue input_image) mask l = Ok (snd t))
               (surviving_labels mask top) rgb
    /\ (forall l, In l (surviving_labels mask top) <-> 0 < l /\ In l (concat mask))
    /\ StronglySorted Z.lt (surviving_labels mask top).
Proof.
  intros Hne Hshape.
  destruct (np_max_spec mask Hne) as (top & Htop & Hupper).
  exists top, (map (center_of_label mask mask) (surviving_labels mask top)),
    (map (label_triple input_image mask) (surviving_labels mask top)).
  split; [exact Htop |].
  split; [apply find_centers_spec; exact Htop |].
  split; [apply mean_intensity_spec; assumption |].
  split; [now rewrite !length_map |].
  split; [reflexivity |].
  split; [| split].
  - induction (surviving_labels mask top) as [| l ls IH]; simpl; constructor.
    + unfold label_triple; simpl.
      repeat split; apply channel_mean_spec; exact Hshape.
    + exact IH.
  - apply surviving_labels_In. exact Hupper.
  - apply filter_sorted, py_range_sorted.
Qed.

(** The two stages on [demo_image] and [demo_mask]. *)
Lemma centers_and_intensities_aligned_witness :
  exists top centers rgb,
    np_max demo_mask = Ok top
    /\ find_centers demo_mask = Ok centers
    /\ mean_intensity demo_image demo_mask = Ok rgb
    /\ length centers = length rgb
    /\ centers = map (center_of_label demo_mask demo_mask) (surviving_labels demo_mask top)
    /\ Forall2 (fun l (t : triple) =>
                  channel_mean (grid_map red demo_image) demo_mask l = Ok (fst (fst t))
                  /\ channel_mean (grid_map green demo_image) demo_mask l = Ok (snd (fst t))
                  /\ channel_mean (grid_map blue demo_image) demo_mask l = Ok (snd t))
               (surviving_labels demo_mask top) rgb
    /\ (forall l, In l (surviving_labels demo_mask top)
                  <-> 0 < l /\ In l (concat demo_mask))
    /\ StronglySorted Z.lt (surviving_labels demo_mask top).
Proof.
  apply (centers_and_intensities_aligned demo_image demo_mask).
  - discriminate.
  - reflexivity.
Defined.

(** ** Cluster Classifier: canonicalization *)

Lemma getitem_in_range {A} (v : list A) (i : Z) :
  0 <= i < Z.of_nat (length v) -> exists x, getitem v i = Ok x.
Proof.
  intros Hi. unfold getitem.
  destruct (Z.ltb_spec i 0) as [? | _]; [lia |].
  destruct (Z.leb_spec 0 i) as [_ | ?]; [| lia].
  destruct (Z.ltb_spec i (Z.of_nat (length v))) as [_ | ?]; [| lia].
  simpl. destruct (nth_error v (Z.to_nat i)) as [x |] eqn:Hnth; [now exists x |].
  apply nth_error_None in Hnth. lia.
Qed.

Lemma int_index_in_range {A} (v : list A) (idx : list Z) :
  Forall (fun i => 0 <= i < Z.of_nat (length v)) idx ->
  exists xs, int_index v idx = Ok xs.
Proof.
  induction 1 as [| i idx Hi _ (xs & IH)]; simpl; [now exists [] |].
  destruct (getitem_in_range v i Hi) as (x & ->). simpl. rewrite IH. simpl.
  now exists (x :: xs).
Qed.

Lemma bool_index1_same_length {A} (v : list A) (m : list bool) :
  length v = length m -> exists xs, bool_index1 v m = Ok xs.
Proof.
  intros Hlen. unfold bool_index1. destruct m as [| b m]; [now eexists |].
  rewrite Hlen, Nat.eqb_refl. now eexists.
Qed.

(** The three assignments of the swap, on labels that are 0 or 1. *)
Lemma relabel_swap (labels : list Z) :
  Forall (fun l => l = 0 \/ l = 1) labels ->
  relabel 3 1 (relabel 1 0 (relabel 0 3 labels)) = map (fun l => 1 - l) labels.
Proof.
  unfold relabel. rewrite !map_map. intros Hbin.
  apply map_ext_in. intros l Hl. rewrite Forall_forall in Hbin.
  destruct (Hbin l Hl) as [-> | ->]; reflexivity.
Qed.

(** C10.  For a clustering of at least two triples into the groups 0 and 1,
    [which_is_more_green] returns, and the labels it returns are the labels of
    the clustering or their complement; two triples are in one group after
    the canonicalization if and only if they were before. *)
Theorem canonicalization_keeps_partition (rgb_input : list triple) (km : kmeans_model) :
  (2 <= length rgb_input)%nat ->
  length (labels_ km) = length rgb_input ->
  Forall (fun l => l = 0 \/ l = 1) (labels_ km) ->
  exists out,
    which_is_more_green rgb_input km = Ok out
    /\ (labels_ out = labels_ km
        \/ labels_ out = map (fun l => 1 - l) (labels_ km))
    /\ (forall i j li lj oi oj,
          nth_error (labels_ km) i = Some li ->
          nth_error (labels_ km) j = Some lj ->
          nth_error (labels_ out) i = Some oi ->
          nth_error (labels_ out) j = Some oj ->
          (li = lj <-> oi = oj)).
Proof.
  intros Hn Hlen Hbin.
  assert (Hout : exists out,
             which_is_more_green rgb_input km = Ok out
             /\ (labels_ out = labels_ km
                 \/ labels_ out = map (fun l => 1 - l) (labels_ km))).
  { unfold which_is_more_green. cbv zeta.
    match goal with
    | |- context [bool_index1 ?v ?m] =>
        destruct (bool_index1_same_length v m) as (sel0 & ->);
        [now rewrite !length_map |]
    end.
    match goal with
    | |- context [int_index ?v ?idx] =>
        destruct (int_index_in_range v idx) as (sel1 & ->)
    end.
    { eapply Forall_impl; [| exact Hbin].
      intros l Hl. rewrite length_map. unfold triple in *.
      destruct Hl as [-> | ->]; lia. }
    simpl. destruct (flt (np_mean sel0) (np_mean sel1)).
    - eexists. split; [reflexivity |]. right. simpl. now apply relabel_swap.
    - exists km. split; [reflexivity |]. now left. }
  destruct Hout as (out & Hrun & Hlabels). exists out.
  split; [exact Hrun |]. split; [exact Hlabels |].
  intros i j li lj oi oj Hi Hj Hoi Hoj.
  destruct Hlabels as [Heq | Heq]; rewrite Heq in Hoi, Hoj.
  - split; congruence.
  - rewrite nth_error_map, Hi in Hoi. rewrite nth_error_map, Hj in Hoj.
    cbn [option_map] in Hoi, Hoj.
    assert (Hi' : oi = 1 - li) by congruence.
    assert (Hj' : oj = 1 - lj) by congruence.
    lia.
Qed.

(** The canonicalization of a clustering of [three_kernels]. *)
Lemma canonicalization_keeps_partition_witness :
  exists out,
    which_is_more_green three_kernels {| labels_ := [0; 0; 1] |} = Ok out
    /\ (labels_ out = [0; 0; 1]
        \/ labels_ out = map (fun l => 1 - l) [0; 0; 1])
    /\ (forall i j li lj oi oj,
          nth_error [0; 0; 1] i = Some li ->
          nth_error [0; 0; 1] j = Some lj ->
          nth_error (labels_ out) i = Some oi ->
          nth_error (labels_ out) j = Some oj ->
          (li = lj <-> oi = oj)).
Proof.
  apply (canonicalization_keeps_partition three_kernels {| labels_ := [0; 0; 1] |}).
  - simpl. lia.
  - reflexivity.
  - repeat (apply Forall_cons; [lia |]). apply Forall_nil.
Defined.

(** C1 fails on the code.  The kernels of green intensity 1 and 2 are
    clustered as group 0 and the kernel of intensity 10 as group 1.  The mean
    of group 0 is 3/2 and that of group 1 is 10, so the labels should be
    swapped; [which_is_more_green] indexes the intensities by the labels
    themselves, takes (1 + 1 + 2) / 3 for the mean of group 1, and returns the
    labels as they are: the group labeled 0 is the lower of the two. *)
Theorem which_is_more_green_keeps_dim_group_first :
  int_index (map (fun t : triple => snd (fst t)) three_kernels) [0; 0; 1]
  = Ok [of_int 1; of_int 1; of_int 2]
  /\ which_is_more_green three_kernels {| labels_ := [0; 0; 1] |}
     = Ok {| labels_ := [0; 0; 1] |}
  /\ flt (group_green_mean three_kernels [0; 0; 1] 0)
         (group_green_mean three_kernels [0; 0; 1] 1) = true.
Proof. repeat split; vm_compute; reflexivity. Qed.

(** ** Pipeline: degenerate detections *)

Lemma flt_irrefl (x : npfloat) : flt x x = false.
Proof.
  destruct x as [q | | |]; try reflexivity.
  unfold flt, Qltb. now rewrite (proj1 (Qeq_alt q q) (Qeq_refl q)).
Qed.

Lemma mean_intensity_np_max (input_image : image) (mask : grid Z) (rgb : list triple) :
  mean_intensity input_image mask = Ok rgb -> exists top, np_max mask = Ok top.
Proof.
  unfold mean_intensity. destruct (np_max mask) as [top | e]; [eauto | discriminate].
Qed.

Lemma count_segments_empty {tk : Toolkit} (input_image : image)
      (image_segments filtered : grid Z) :
  remove_bottom_edge image_segments = Ok filtered ->
  mean_intensity input_image filtered = Ok [] ->
  count_segments input_image image_segments = Ok [0; 0].
Proof.
  intros Hfilter Hmean.
  destruct (mean_intensity_np_max _ _ _ Hmean) as (top & Htop).
  unfold count_segments. rewrite Hfilter. simpl.
  rewrite (find_centers_spec filtered top Htop). simpl.
  rewrite Hmean. reflexivity.
Qed.

(** C5.  When the stages of [count_kernels] up to the Intensity Summarizer go
    through and the summarizer returns no triple, [count_kernels] returns the
    counts [0; 0]; this holds for every toolkit, hence whatever the clustering
    of the library would do or raise. *)
Theorem count_kernels_no_segment {tk : Toolkit} (input_image : string)
        (crop_percentage : npfloat) (h_dome_value : Q) (watershed_low watershed_high : Z)
        (raw_image cropped : image) (hdome : grid Q) (image_segments filtered : grid Z) :
  imread input_image = Ok raw_image ->
  crop_edges raw_image crop_percentage = Ok cropped ->
  filter_regional_maxima cropped h_dome_value = Ok hdome ->
  region_based_segmentation hdome watershed_low watershed_high = Ok image_segments ->
  remove_bottom_edge image_segments = Ok filtered ->
  mean_intensity cropped filtered = Ok [] ->
  count_kernels input_image crop_percentage h_dome_value watershed_low watershed_high
  = Ok [0; 0].
Proof.
  intros Hread Hcrop Hdome Hseg Hfilter Hmean.
  unfold count_kernels. rewrite Hread. simpl. rewrite Hcrop. simpl.
  rewrite Hdome. simpl. rewrite Hseg. simpl.
  now apply (count_segments_empty _ _ filtered).
Qed.

(** An evenly grey scan has no regional maximum: no triple, counts [0; 0],
    with a clustering that would fail if it were called. *)
Lemma count_kernels_no_segment_witness :
  @count_kernels (bench_toolkit (fun _ => Ok flat_scan) no_fit)
                 "ear.png"%string (to_float64 (15 # 100)) (3 # 10) 20 80
  = Ok [0; 0].
Proof.
  pose (tk := bench_toolkit (fun _ => Ok flat_scan) no_fit).
  pose (zeros := grid_map (fun _ : pixel => 0) flat_scan).
  refine (@count_kernels_no_segment tk "ear.png"%string (to_float64 (15 # 100))
            (3 # 10) 20 80
            flat_scan flat_scan
            (match @filter_regional_maxima tk flat_scan (3 # 10) with
             | Ok d => d
             | Raise _ => []
             end)
            zeros zeros _ _ _ _ _ _);
    vm_compute; reflexivity.
Defined.

Lemma single_selection (input_image : image) (mask : grid Z) (top : Z) (t : triple) :
  map (label_triple input_image mask) (surviving_labels mask top) = [t] ->
  exists c, map (center_of_label mask mask) (surviving_labels mask top) = [c].
Proof.
  destruct (surviving_labels mask top) as [| l [| l' ls]]; simpl; try discriminate.
  intros _. eauto.
Qed.

(** C8 fails on the code.  With a single triple the counting never returns
    two counts, whatever the clustering of the library does: either an
    exception is raised, or the single count [1] is returned, of which the
    batch loop cannot read a second element. *)
Theorem single_segment_breaks_counting {tk : Toolkit} (input_image : image)
        (image_segments filtered : grid Z) (t : triple) :
  remove_bottom_edge image_segments = Ok filtered ->
  same_shape input_image filtered = true ->
  mean_intensity input_image filtered = Ok [t] ->
  ((exists e, count_segments input_image image_segments = Raise e)
   \/ count_segments input_image image_segments = Ok [1])
  /\ getitem [1] 1 = Raise IndexError.
Proof.
  intros Hfilter Hshape Hmean. split; [| reflexivity].
  destruct (mean_intensity_np_max _ _ _ Hmean) as (top & Htop).
  pose proof (mean_intensity_spec input_image filtered top Hshape Htop) as Hspec.
  rewrite Hmean in Hspec. injection Hspec as Hspec. symmetry in Hspec.
  destruct (single_selection _ _ _ _ Hspec) as (c & Hc).
  unfold count_segments. rewrite Hfilter. simpl.
  rewrite (find_centers_spec filtered top Htop), Hc. simpl.
  rewrite Hmean. simpl.
  unfold kmeans_from_rgb. cbv zeta.
  destruct (KMeans_fit 2 [t]) as [km | e]; simpl; [| left; eauto].
  unfold which_is_more_green. cbv zeta.
  destruct (labels_ km) as [| l [| l' rest]] eqn:Hlabels.
  - simpl. rewrite Hlabels. simpl. left. eauto.
  - cbn [map bool_index1 length Nat.eqb combine int_index].
    destruct (getitem [snd (fst t)] l) as [g |] eqn:Hget; cbn [bind];
      [| left; eauto].
    assert (Hflt : flt (np_mean (map fst (filter snd [(snd (fst t), l =? 0)])))
                       (np_mean [g]) = false).
    { destruct (Z.eqb_spec l 0) as [-> | Hne]; cbn [filter snd map fst].
      - unfold getitem in Hget. simpl in Hget. injection Hget as <-.
        apply flt_irrefl.
      - reflexivity. }
    rewrite Hflt. cbn [bind unzip_centers fst snd map].
    rewrite Hlabels. right. reflexivity.
  - left. simpl. eauto.
Qed.

(** A single kernel away from the bottom row, and a clustering that refuses
    a single sample. *)
Lemma single_segment_breaks_counting_witness :
  ((exists e, @count_segments (bench_toolkit (fun _ => Ok flat_scan) split_first)
                              flat_scan one_kernel_mask = Raise e)
   \/ @count_segments (bench_toolkit (fun _ => Ok flat_scan) split_first)
                      flat_scan one_kernel_mask = Ok [1])
  /\ getitem [1] 1 = Raise IndexError.
Proof.
  refine (@single_segment_breaks_counting
            (bench_toolkit (fun _ => Ok flat_scan) split_first)
            flat_scan one_kernel_mask one_kernel_mask
            (label_triple flat_scan one_kernel_mask 1) _ _ _);
    vm_compute; reflexivity.
Defined.

(** ** Arguments: no validation *)

Lemma build_markers_spec (hdome : grid Z) (marker_low marker_high : Z) :
  build_markers hdome marker_low marker_high
  = grid_map (fun v => if v >? marker_high then 2
                       else if v <? marker_low then 1 else 0) hdome.
Proof.
  unfold build_markers, masked_assign, grid_map2, grid_map.
  induction hdome as [| row hdome IH]; simpl; [reflexivity |].
  f_equal; [| exact IH]. clear IH.
  induction row as [| v row IH]; simpl; [reflexivity |].
  f_equal. exact IH.
Qed.

(** C6, as the code has it.  Nothing validates the arguments: [parse_args]
    hands on every crop fraction and every pair of watershed cutoffs as
    given.  With a finite crop fraction above one half the Edge Cropper
    returns rows without columns, unless the fraction is so large that its
    product with the width leaves the range of float64, in which case the
    rounding raises OverflowError.  The markers are built for every pair of
    cutoffs, a pixel above [marker_high] being an object seed (2), another
    pixel below [marker_low] a background seed (1), the rest unmarked (0). *)
Theorem arguments_pass_unchecked (given : command_line) (p : npfloat) (low high : Z) :
  given_image_crop_percentage given = Some p ->
  given_watershed_low given = Some low ->
  given_watershed_high given = Some high ->
  (image_crop_percentage (parse_args given) = p
   /\ watershed_low (parse_args given) = low
   /\ watershed_high (parse_args given) = high)
  /\ (forall (A : Type) (image : grid A) (w : Z) (q : Q),
         image <> [] ->
         Forall (fun row => Z.of_nat (length row) = w) image ->
         w < 2 ^ 50 ->
         p = Finite q -> (1 # 2 < q)%Q ->
         ((q * inject_Z w <= pow2 1000)%Q ->
          exists cropped,
            crop_edges image p = Ok cropped /\ Forall (fun row => row = []) cropped)
         /\ ((pow2 1024 <= q * inject_Z w)%Q ->
             crop_edges image p = Raise OverflowError))
  /\ (forall hdome : grid Z,
         build_markers hdome low high
         = grid_map (fun v => if v >? high then 2 else if v <? low then 1 else 0) hdome).
Proof.
  intros Hp Hlow Hhigh. split; [| split].
  - unfold parse_args. simpl. rewrite Hp, Hlow, Hhigh. repeat split.
  - intros A image w q Hne Hrect Hw -> Hhalf. split.
    + intros Hsmall. now apply (crop_edges_crossed image w q).
    + intros Hbig. apply (crop_edges_overflow image w q Hne Hrect Hw). now left.
  - intros hdome. apply build_markers_spec.
Qed.

(** The theorem at a crop fraction of 3/4 and the cutoffs 80 and 20. *)
Lemma arguments_pass_unchecked_witness :
  (image_crop_percentage (parse_args crossed_command_line) = Finite (3 # 4)
   /\ watershed_low (parse_args crossed_command_line) = 80
   /\ watershed_high (parse_args crossed_command_line) = 20)
  /\ (forall (A : Type) (image : grid A) (w : Z) (q : Q),
         image <> [] ->
         Forall (fun row => Z.of_nat (length row) = w) image ->
         w < 2 ^ 50 ->
         Finite (3 # 4) = Finite q -> (1 # 2 < q)%Q ->
         ((q * inject_Z w <= pow2 1000)%Q ->
          exists cropped,
            crop_edges image (Finite (3 # 4)) = Ok cropped
            /\ Forall (fun row => row = []) cropped)
         /\ ((pow2 1024 <= q * inject_Z w)%Q ->
             crop_edges image (Finite (3 # 4)) = Raise OverflowError))
  /\ (forall hdome : grid Z,
         build_markers hdome 80 20
         = grid_map (fun v => if v >? 20 then 2 else if v <? 80 then 1 else 0) hdome).
Proof.
  exact (arguments_pass_unchecked crossed_command_line (Finite (3 # 4)) 80 20
           eq_refl eq_refl eq_refl).
Defined.

(** C6, refuted as stated: with a crop fraction of -0.1 and the cutoffs 80
    and 20 in the wrong order, the batch over one scan ends without any error
    and reports its row of counts; over no scan at all it ends without error
    whatever the libraries are. *)
Lemma no_validation_counterexample :
  let args :=
    parse_args {| given_input_directory_path := None;
                  given_image_crop_percentage := Some (to_float64 (-1 # 10));
                  given_h_dome_value := None;
                  given_watershed_low := Some 80;
                  given_watershed_high := Some 20 |} in
  flt (image_crop_percentage args) (Finite 0) = true
  /\ watershed_low args >= watershed_high args
  /\ @run_batch (bench_toolkit (fun _ => Ok flat_scan) split_first) args
                ["ear.png"%string]
     = Ok [("ear"%string, 0, 0)]
  /\ (forall tk : Toolkit, @run_batch tk args [] = Ok []).
Proof.
  cbv zeta. split; [| split; [| split]].
  - vm_compute. reflexivity.
  - simpl. lia.
  - vm_compute. reflexivity.
  - reflexivity.
Qed.

(** ** Maxima Isolator *)

Lemma Forall2_combine_snd {A} (l : list A) (idx : list Z) :
  length idx = length l -> Forall2 (fun p x => snd p = x) (combine idx l) l.
Proof.
  revert idx. induction l as [| x l IH]; intros [| i idx] Hlen; simpl in *;
    try discriminate; constructor; [reflexivity | apply IH; lia].
Qed.

Lemma Forall2_enumerate {A} (l : list A) :
  Forall2 (fun p x => snd p = x) (enumerate l) l.
Proof.
  apply Forall2_combine_snd. now rewrite length_map, length_seq.
Qed.

Lemma Qltb_false (x y : Q) : Qltb x y = false -> (y <= x)%Q.
Proof.
  unfold Qltb. destruct (Qcompare x y) eqn:Hc; intros H; try discriminate.
  - apply Qeq_alt in Hc. rewrite Hc. apply Qle_refl.
  - apply Qgt_alt in Hc. now apply Qlt_le_weak.
Qed.

Lemma Qltb_false_iff (x y : Q) : Qltb x y = false <-> (y <= x)%Q.
Proof.
  split; [apply Qltb_false |].
  intros Hle. unfold Qltb. destruct (Qcompare x y) eqn:Hc; try reflexivity.
  apply Qlt_alt in Hc. exfalso. exact (Qlt_not_le _ _ Hc Hle).
Qed.

(** Two rows of one length, zipped ahead of what follows them. *)
Lemma combine_rows {X Y} (row_a rest_a : list X) (row_b rest_b : list Y) :
  length row_a = length row_b ->
  combine (row_a ++ rest_a) (row_b ++ rest_b)
  = combine row_a row_b ++ combine rest_a rest_b.
Proof.
  revert row_b. induction row_a as [| x row_a IH]; intros [| y row_b] Hlen;
    simpl in *; try discriminate; [reflexivity |].
  f_equal. apply IH. lia.
Qed.

Lemma row_check_below (s m : list Q) :
  length s = length m ->
  existsb (fun p => Qltb (snd p) (fst p)) (combine s m) = false ->
  Forall2 Qle s m.
Proof.
  revert m. induction s as [| x s IH]; intros [| y m] Hlen Hcheck; simpl in *;
    try discriminate; constructor.
  - apply orb_false_iff in Hcheck. now apply Qltb_false.
  - apply orb_false_iff in Hcheck. apply IH; [lia | tauto].
Qed.

(** What the two checks of [reconstruction] establish. *)
Lemma checks_below (seed mask : grid Q) :
  same_shape seed mask = true ->
  existsb (fun p => Qltb (snd p) (fst p)) (combine (concat seed) (concat mask)) = false ->
  below seed mask.
Proof.
  unfold below. revert mask.
  induction seed as [| s seed IH]; intros [| m mask] Hshape Hcheck; simpl in *;
    try discriminate; constructor.
  - apply andb_true_iff in Hshape. destruct Hshape as [Hlen _].
    apply Nat.eqb_eq in Hlen.
    rewrite combine_rows, existsb_app in Hcheck by exact Hlen.
    apply orb_false_iff in Hcheck. now apply row_check_below.
  - apply andb_true_iff in Hshape. destruct Hshape as [Hlen Hshape].
    apply Nat.eqb_eq in Hlen.
    rewrite combine_rows, existsb_app in Hcheck by exact Hlen.
    apply orb_false_iff in Hcheck. apply IH; tauto.
Qed.

Lemma dilate_shape (a : grid Q) :
  Forall2 (fun r' r => length r' = length r) (dilate a) a.
Proof.
  unfold dilate.
  assert (Hgen : forall (rows : list (Z * list Q)) (b : grid Q),
             Forall2 (fun p x => snd p = x) rows b ->
             Forall2 (fun r' r => length r' = length r)
                     (map (fun rr =>
                             map (fun cv => fold_left Qmax (neighbours a (fst rr) (fst cv))
                                                      (snd cv))
                                 (enumerate (snd rr))) rows) b).
  { induction 1 as [| p x rows b Hp _ IH]; simpl; constructor; [| exact IH].
    rewrite length_map, Hp. unfold enumerate.
    rewrite length_combine, length_map, length_seq. lia. }
  apply Hgen, Forall2_enumerate.
Qed.

Lemma map2_min_below (r m : list Q) :
  length r = length m -> Forall2 Qle (map2 Qmin r m) m.
Proof.
  revert m. induction r as [| x r IH]; intros [| y m] Hlen; simpl in *;
    try discriminate; constructor.
  - apply Q.le_min_r.
  - apply IH. lia.
Qed.

Lemma geodesic_dilation_below (marker mask : grid Q) :
  Forall2 (fun r m => length r = length m) marker mask ->
  below (geodesic_dilation marker mask) mask.
Proof.
  intros Hshape. unfold below, geodesic_dilation, grid_map2.
  pose proof (dilate_shape marker) as Hd.
  revert Hd. generalize (dilate marker) as d.
  induction Hshape as [| r m marker mask Hlen _ IH]; intros d Hd;
    inversion Hd; subst; simpl; constructor.
  - apply map2_min_below. congruence.
  - now apply IH.
Qed.

Lemma below_shape (a b : grid Q) :
  below a b -> Forall2 (fun r m => length r = length m) a b.
Proof.
  unfold below. induction 1 as [| r m a b Hrow _ IH]; constructor; [| exact IH].
  clear IH. induction Hrow; simpl; congruence.
Qed.







(** ** The reconstruction reaches a fixed point

    The rounds granted to [propagate] are enough: what [reconstruction]
    returns is stable under one more geodesic dilation. *)

Lemma Qmax_cases (x y : Q) : Qmax x y = x \/ Qmax x y = y.
Proof.
  unfold Qmax, GenericMinMax.gmax. destruct (Qcompare x y); auto.
Qed.

Lemma Qmin_cases (x y : Q) : Qmin x y = x \/ Qmin x y = y.
Proof.
  unfold Qmin, GenericMinMax.gmin. destruct (Qcompare x y); auto.
Qed.

Lemma fold_Qmax_ge (l : list Q) (v : Q) : (v <= fold_left Qmax l v)%Q.
Proof.
  revert v. induction l as [| x l IH]; intros v; simpl; [apply Qle_refl |].
  eapply Qle_trans; [apply (Q.le_max_l v x) | apply IH].
Qed.

Lemma fold_Qmax_In (l : list Q) (v : Q) : In (fold_left Qmax l v) (v :: l).
Proof.
  revert v. induction l as [| x l IH]; intros v; simpl; [now left |].
  destruct (IH (Qmax v x)) as [Heq | Hin].
  - rewrite <- Heq. destruct (Qmax_cases v x) as [-> | ->]; auto.
  - auto.
Qed.

Lemma neighbours_In (a : grid Q) (r c : Z) (v : Q) :
  In v (neighbours a r c) -> In v (concat a).
Proof.
  unfold neighbours. rewrite in_flat_map. intros (d & _ & Hv).
  destruct (cell a (r + fst d) (c + snd d)) as [u |] eqn:Hcell; [| contradiction].
  destruct Hv as [<- | []]. exact (cell_In _ _ _ _ Hcell).
Qed.

Lemma Forall2_map_combine {A B} (R : B -> A -> Prop) (f : Z * A -> B)
      (l : list A) (idx : list Z) :
  length idx = length l ->
  (forall p, In (snd p) l -> R (f p) (snd p)) ->
  Forall2 R (map f (combine idx l)) l.
Proof.
  revert idx. induction l as [| x l IH]; intros [| i idx] Hlen Hf; simpl in *;
    try discriminate; constructor.
  - apply (Hf (i, x)). now left.
  - apply IH; [lia |]. intros p Hp. apply Hf. now right.
Qed.

Lemma Forall2_map_enumerate {A B} (R : B -> A -> Prop) (f : Z * A -> B) (l : list A) :
  (forall p, In (snd p) l -> R (f p) (snd p)) ->
  Forall2 R (map f (enumerate l)) l.
Proof.
  apply Forall2_map_combine. now rewrite length_map, length_seq.
Qed.

(** A dilated pixel is at least the pixel, and a value of the array. *)
Lemma dilate_pointwise (a : grid Q) :
  Forall2 (Forall2 (fun d v => (v <= d)%Q /\ In d (concat a))) (dilate a) a.
Proof.
  unfold dilate. apply Forall2_map_enumerate. intros rr Hrow.
  apply Forall2_map_enumerate. intros cv Hv. split.
  - apply fold_Qmax_ge.
  - destruct (fold_Qmax_In (neighbours a (fst rr) (fst cv)) (snd cv)) as [<- | Hin].
    + apply in_concat. eauto.
    + exact (neighbours_In _ _ _ _ Hin).
Qed.

Lemma row_step_above (P : Q -> Prop) (d v m : list Q) :
  Forall2 (fun d v => (v <= d)%Q /\ P d) d v ->
  Forall2 Qle v m ->
  Forall2 Qle v (map2 Qmin d m).
Proof.
  intros Hd. revert m. induction Hd as [| x y d v [Hle _] _ IH]; intros m Hm;
    inversion Hm; subst; simpl; constructor.
  - now apply Q.min_glb.
  - now apply IH.
Qed.

(** A geodesic dilation of a marker below the mask is nowhere below the
    marker. *)
Lemma geodesic_dilation_above (marker mask : grid Q) :
  below marker mask -> below marker (geodesic_dilation marker mask).
Proof.
  unfold below, geodesic_dilation, grid_map2. intros Hbelow.
  pose proof (dilate_pointwise marker) as Hd.
  revert Hd. generalize (concat marker) as vals. generalize (dilate marker) as d.
  induction Hbelow as [| v m marker mask Hrow _ IH]; intros d vals Hd;
    inversion Hd; subst; simpl; constructor.
  - match goal with
    | H : Forall2 _ ?d v |- _ =>
        exact (row_step_above (fun u => In u vals) d v m H Hrow)
    end.
  - eapply IH; eassumption.
Qed.

Lemma row_step_values (P : Q -> Prop) (d m : list Q) :
  Forall P d -> Forall P m -> Forall P (map2 Qmin d m).
Proof.
  intros Hd. revert m. induction Hd as [| x d Hx _ IH]; intros m Hm; simpl;
    [constructor |].
  destruct Hm as [| y m Hy Hm]; constructor.
  - destruct (Qmin_cases x y) as [-> | ->]; assumption.
  - now apply IH.
Qed.

Lemma grid_step_values (P : Q -> Prop) (d m : grid Q) :
  Forall (Forall P) d -> Forall (Forall P) m -> Forall (Forall P) (grid_map2 Qmin d m).
Proof.
  unfold grid_map2. intros Hd. revert m.
  induction Hd as [| x d Hx _ IH]; intros m Hm; simpl; [constructor |].
  destruct Hm as [| y m Hy Hm]; constructor.
  - now apply row_step_values.
  - now apply IH.
Qed.

Lemma Forall2_left {A B} (P : A -> Prop) (R : A -> B -> Prop) (l : list A) (l' : list B) :
  (forall a b, R a b -> P a) -> Forall2 R l l' -> Forall P l.
Proof. intros HR. induction 1; constructor; eauto. Qed.

(** The values of a geodesic dilation are values of the marker or of the
    mask. *)
Lemma geodesic_dilation_values (P : Q -> Prop) (marker mask : grid Q) :
  Forall P (concat marker) -> Forall P (concat mask) ->
  Forall P (concat (geodesic_dilation marker mask)).
Proof.
  intros Hmarker Hmask. apply Forall_concat. unfold geodesic_dilation.
  apply grid_step_values; [| now apply Forall_concat].
  eapply Forall2_left; [| apply (dilate_pointwise marker)].
  intros row row' Hrow.
  eapply Forall2_left; [| exact Hrow].
  intros d v [_ Hin]. rewrite Forall_forall in Hmarker. now apply Hmarker.
Qed.

Lemma Qltb_true_iff (x y : Q) : Qltb x y = true <-> (x < y)%Q.
Proof.
  unfold Qltb. rewrite Qlt_alt. destruct (Qcompare x y); split; congruence.
Qed.

Lemma filter_length_mono {A} (p q : A -> bool) (l : list A) :
  (forall x, p x = true -> q x = true) ->
  (length (filter p l) <= length (filter q l))%nat.
Proof.
  intros Hpq. induction l as [| x l IH]; simpl; [lia |].
  destruct (p x) eqn:Hp.
  - rewrite (Hpq x Hp). simpl. lia.
  - destruct (q x); simpl; lia.
Qed.

Lemma filter_length_strict {A} (p q : A -> bool) (l : list A) (x : A) :
  (forall y, p y = true -> q y = true) ->
  In x l -> p x = false -> q x = true ->
  (length (filter p l) < length (filter q l))%nat.
Proof.
  intros Hpq Hin Hp Hq. induction l as [| y l IH]; simpl; [contradiction |].
  pose proof (filter_length_mono p q l Hpq) as Hmono.
  destruct Hin as [-> | Hin].
  - rewrite Hp, Hq. simpl. lia.
  - specialize (IH Hin). destruct (p y) eqn:Hpy.
    + rewrite (Hpq y Hpy). simpl. lia.
    + destruct (q y); simpl; lia.
Qed.

Lemma rank_mono (values : list Q) (x y : Q) :
  (x <= y)%Q -> (rank values x <= rank values y)%nat.
Proof.
  intros Hxy. apply filter_length_mono. intros u Hu.
  apply Qltb_true_iff in Hu. apply Qltb_true_iff. lra.
Qed.

Lemma rank_strict (values : list Q) (x y : Q) :
  In x values -> (x < y)%Q -> (rank values x < rank values y)%nat.
Proof.
  intros Hin Hxy. apply (filter_length_strict _ _ values x).
  - intros u Hu. apply Qltb_true_iff in Hu. apply Qltb_true_iff. lra.
  - exact Hin.
  - apply Qltb_false_iff. apply Qle_refl.
  - now apply Qltb_true_iff.
Qed.

Lemma rank_bound (values : list Q) (v : Q) :
  In v values -> (rank values v <= length values - 1)%nat.
Proof.
  intros Hin. unfold rank.
  pose proof (filter_length_strict (fun u => Qltb u v) (fun _ => true) values v
                (fun _ _ => eq_refl) Hin
                (proj2 (Qltb_false_iff v v) (Qle_refl v)) eq_refl) as Hlt.
  pose proof (filter_length_le (fun _ : Q => true) values). lia.
Qed.

Lemma sum_rank_mono (values l s : list Q) :
  Forall2 Qle l s ->
  (list_sum (map (rank values) l) <= list_sum (map (rank values) s))%nat.
Proof.
  induction 1 as [| x y l s Hxy _ IH]; simpl; [lia |].
  pose proof (rank_mono values x y Hxy). lia.
Qed.

Lemma sum_rank_strict (values l s : list Q) :
  Forall2 Qle l s ->
  Forall (fun v => In v values) l ->
  forallb (fun p => Qeq_bool (fst p) (snd p)) (combine s l) = false ->
  (list_sum (map (rank values) l) < list_sum (map (rank values) s))%nat.
Proof.
  induction 1 as [| x y l s Hxy Hrest IH]; intros Hin Hneq; simpl in *;
    [discriminate |].
  inversion Hin as [| ? ? Hx Hl]; subst.
  destruct (Qeq_bool y x) eqn:Heq; simpl in Hneq.
  - pose proof (rank_mono values x y Hxy). specialize (IH Hl Hneq). lia.
  - apply Qeq_bool_neq in Heq.
    assert (Hlt : (x < y)%Q).
    { apply Qle_lteq in Hxy. destruct Hxy as [Hlt | Heq']; [exact Hlt |].
      exfalso. apply Heq. now symmetry. }
    pose proof (rank_strict values x y Hx Hlt).
    pose proof (sum_rank_mono values l s Hrest). lia.
Qed.

Lemma sum_rank_bound (values l : list Q) :
  Forall (fun v => In v values) l ->
  (list_sum (map (rank values) l) <= length l * (length values - 1))%nat.
Proof.
  induction 1 as [| v l Hv _ IH]; simpl; [lia |].
  pose proof (rank_bound values v Hv). lia.
Qed.

Lemma below_concat (a b : grid Q) : below a b -> Forall2 Qle (concat a) (concat b).
Proof.
  unfold below. induction 1 as [| ra rb a b Hrow _ IH]; simpl; [constructor |].
  now apply Forall2_app.
Qed.

Lemma below_same_shape (a b : grid Q) : below a b -> same_shape b a = true.
Proof.
  unfold below. induction 1 as [| ra rb a b Hrow _ IH]; simpl; [reflexivity |].
  rewrite (Forall2_length Hrow), Nat.eqb_refl. exact IH.
Qed.

(** A round that changes the marker raises the potential. *)
Lemma unstable_round_raises (values : list Q) (marker mask : grid Q) :
  below marker mask ->
  Forall (fun v => In v values) (concat marker) ->
  grid_eqb (geodesic_dilation marker mask) marker = false ->
  (potential values marker < potential values (geodesic_dilation marker mask))%nat.
Proof.
  intros Hbelow Hvalues Hchanged.
  pose proof (geodesic_dilation_above marker mask Hbelow) as Habove.
  unfold grid_eqb in Hchanged.
  rewrite (below_same_shape _ _ Habove) in Hchanged. simpl in Hchanged.
  apply sum_rank_strict; [apply below_concat; exact Habove | exact Hvalues |].
  exact Hchanged.
Qed.

Lemma propagate_stable (values : list Q) (mask : grid Q) :
  Forall (fun v => In v values) (concat mask) ->
  forall (rounds : nat) (marker : grid Q),
    below marker mask ->
    Forall (fun v => In v values) (concat marker) ->
    (length (concat mask) * (length values - 1)
     <= potential values marker + rounds)%nat ->
    grid_eqb (geodesic_dilation (propagate rounds marker mask) mask)
             (propagate rounds marker mask) = true.
Proof.
  intros Hmask.
  assert (Hceiling : forall marker,
             below marker mask ->
             Forall (fun v => In v values) (concat marker) ->
             (potential values (geodesic_dilation marker mask)
              <= length (concat mask) * (length values - 1))%nat).
  { intros marker Hbelow Hvalues.
    pose proof (geodesic_dilation_below marker mask (below_shape _ _ Hbelow)) as Hb.
    rewrite <- (Forall2_length (below_concat _ _ Hb)).
    apply sum_rank_bound. now apply geodesic_dilation_values. }
  induction rounds as [| n IH]; intros marker Hbelow Hvalues Hfuel; simpl.
  - destruct (grid_eqb (geodesic_dilation marker mask) marker) eqn:Hstable;
      [reflexivity |].
    pose proof (unstable_round_raises values marker mask Hbelow Hvalues Hstable).
    pose proof (Hceiling marker Hbelow Hvalues). lia.
  - destruct (grid_eqb (geodesic_dilation marker mask) marker) eqn:Hstable;
      [exact Hstable |].
    pose proof (unstable_round_raises values marker mask Hbelow Hvalues Hstable).
    apply IH.
    + apply geodesic_dilation_below, below_shape, Hbelow.
    + now apply geodesic_dilation_values.
    + lia.
Qed.

(** What [reconstruction] returns is a fixed point of the geodesic dilation
    under the mask. *)
Lemma reconstruction_stable (seed mask r : grid Q) :
  reconstruction seed mask = Ok r ->
  grid_eqb (geodesic_dilation r mask) r = true.
Proof.
  unfold reconstruction.
  destruct (same_shape seed mask) eqn:Hshape; simpl; [| discriminate].
  destruct (existsb _ _) eqn:Hcheck; [discriminate |].
  intros Hr. injection Hr as <-.
  pose proof (checks_below seed mask Hshape Hcheck) as Hbelow.
  apply (propagate_stable (concat seed ++ concat mask)).
  - apply Forall_forall. intros v Hv. apply in_or_app. now right.
  - exact Hbelow.
  - apply Forall_forall. intros v Hv. apply in_or_app. now left.
  - rewrite length_app, (Forall2_length (below_concat _ _ Hbelow)).
    set (n := length (concat mask)).
    assert (n * (n + n - 1) <= n * (2 * n))%nat by (apply Nat.mul_le_mono_l; lia).
    lia.
Qed.

(** * Further properties of the script *)

(** ** Edge Cropper: fractions outside [0, 1/2] *)

Lemma nearest_float64_0 : (nearest_float64 0 == 0)%Q.
Proof. apply nearest_float64_zero. reflexivity. Qed.

(** X1.  A crop fraction of 0 leaves the image as it is (for a width that
    float64 holds exactly, as every width below [2 ^ 50] is). *)
Theorem crop_edges_zero_fraction {A} (image : grid A) (w : Z) :
  Forall (fun row => Z.of_nat (length row) = w) image ->
  w < 2 ^ 50 ->
  crop_edges image (Finite 0) = Ok image.
Proof.
  intros Hrect Hw.
  destruct image as [| row0 rest]; [apply crop_edges_nil |].
  assert (Hw0 : 0 <= w) by (inversion Hrect; subst; lia).
  pose proof (pow2_positive 1000) as Hpos.
  rewrite (crop_edges_rect _ w 0 Hrect Hw) by lra.
  assert (Hx : (nearest_float64 (0 * inject_Z w) == 0)%Q).
  { apply nearest_float64_zero. ring. }
  assert (Hleft : left_crop_column w 0 = 0).
  { unfold left_crop_column.
    rewrite (py_round_comp _ (inject_Z 0) Hx). apply py_round_inject_Z. }
  assert (Hright : right_crop_column w 0 = w).
  { unfold right_crop_column.
    assert (Hz : (nearest_float64 (inject_Z w - nearest_float64 (0 * inject_Z w))
                  == inject_Z w)%Q).
    { rewrite Hx.
      assert (E : (inject_Z w - 0 == inject_Z w)%Q) by ring.
      rewrite E. apply nearest_float64_int. lia. }
    rewrite (py_round_comp _ _ Hz). apply py_round_inject_Z. }
  rewrite Hleft, Hright. f_equal. rewrite <- (map_id (row0 :: rest)) at 2.
  apply map_ext_in. intros row Hin.
  rewrite Forall_forall in Hrect. specialize (Hrect row Hin).
  destruct (py_slice_inner row 0 w) as [-> _]; [lia | lia |].
  rewrite Z.sub_0_r, <- Hrect, Nat2Z.id. simpl. apply firstn_all.
Qed.

Lemma crop_edges_zero_fraction_witness :
  crop_edges scan_1x10 (Finite 0) = Ok scan_1x10.
Proof.
  apply (crop_edges_zero_fraction scan_1x10 10); [repeat constructor | reflexivity].
Defined.

(** X2.  The parser lets through fractions that float64 cannot multiply by
    the width, and the Edge Cropper fails on them at the rounding: NaN raises
    ValueError; an infinite fraction, or a finite one whose product with the
    width reaches [2 ^ 1024] in size, raises OverflowError.  A fraction whose
    product with the width stays within [2 ^ 1000] never raises, whatever its
    sign, and the rows of the image are all kept. *)
Theorem crop_edges_float_range {A} (image : grid A) (w : Z) :
  image <> [] ->
  Forall (fun row => Z.of_nat (length row) = w) image ->
  0 < w < 2 ^ 50 ->
  crop_edges image NaN = Raise ValueError
  /\ crop_edges image PosInf = Raise OverflowError
  /\ crop_edges image NegInf = Raise OverflowError
  /\ (forall q : Q,
         (pow2 1024 <= q * inject_Z w)%Q \/ (q * inject_Z w <= - pow2 1024)%Q ->
         crop_edges image (Finite q) = Raise OverflowError)
  /\ (forall q : Q,
         (- pow2 1000 <= q * inject_Z w)%Q -> (q * inject_Z w <= pow2 1000)%Q ->
         exists cropped,
           crop_edges image (Finite q) = Ok cropped /\ length cropped = length image).
Proof.
  intros Hne Hrect Hw.
  destruct (float_of_int_width w ltac:(lia)) as (f & Hfloat & Hf).
  assert (Hpos : Qcompare f 0 = Gt).
  { apply Qgt_alt. rewrite Hf. change 0%Q with (inject_Z 0). rewrite <- Zlt_Qlt. lia. }
  assert (Hshape : shape1 image = w) by (apply shape1_rect; assumption).
  split; [| split; [| split; [| split]]].
  - unfold crop_edges. cbv zeta. rewrite Hshape, Hfloat. reflexivity.
  - unfold crop_edges. cbv zeta. rewrite Hshape, Hfloat.
    cbn [bind mul_float64]. rewrite Hpos. reflexivity.
  - unfold crop_edges. cbv zeta. rewrite Hshape, Hfloat.
    cbn [bind mul_float64]. rewrite Hpos. reflexivity.
  - intros q Hbig. apply (crop_edges_overflow image w q Hne Hrect); [lia | exact Hbig].
  - intros q Hlo Hhi. eexists. split.
    + apply (crop_edges_rect image w q Hrect); [lia | exact Hlo | exact Hhi].
    + apply length_map.
Qed.

(** Two columns and the fraction [2 ^ 1023], whose product is [2 ^ 1024]. *)
Lemma crop_edges_float_range_witness :
  crop_edges [[1; 2]] NaN = Raise ValueError
  /\ crop_edges [[1; 2]] PosInf = Raise OverflowError
  /\ crop_edges [[1; 2]] (Finite (pow2 1023)) = Raise OverflowError
  /\ crop_edges [[1; 2]] (Finite (-3 # 4)) = Ok [[1; 2]].
Proof.
  destruct (crop_edges_float_range [[1; 2]] 2) as (Hnan & Hinf & _ & Hbig & _).
  - discriminate.
  - repeat constructor.
  - split; reflexivity.
  - split; [exact Hnan |]. split; [exact Hinf |]. split.
    + apply Hbig. left. vm_compute. discriminate.
    + vm_compute. reflexivity.
Defined.

(** X3.  A negative crop fraction is taken as it is: with [k] the left crop
    column negated, nothing is cropped when [k = 0], and otherwise only the
    last [k] columns are kept (all of them when [k >= w]). *)
Theorem crop_edges_negative_fraction {A} (image : grid A) (w : Z) (p : Q) :
  image <> [] ->
  Forall (fun row => Z.of_nat (length row) = w) image ->
  w < 2 ^ 50 ->
  (p < 0)%Q -> (- pow2 1000 <= p * inject_Z w)%Q ->
  let k := - left_crop_column w p in
  0 <= k
  /\ crop_edges image (Finite p)
     = Ok (if k =? 0 then image
           else map (fun row => skipn (Z.to_nat (w - k)) row) image).
Proof.
  intros Hne Hrect Hw Hp Hlo k.
  assert (Hw0 : 0 <= w).
  { destruct image as [| row0 rest]; [contradiction |].
    inversion Hrect; subst. lia. }
  destruct (inject_Z_width w (conj Hw0 Hw)) as [W0 W1].
  pose proof (pow2_positive 1000) as Hpos.
  assert (Hx : (p * inject_Z w <= 0)%Q) by nra.
  unfold k, left_crop_column. clear k.
  pose proof (crop_edges_rect image w p Hrect Hw Hlo ltac:(lra)) as Hcrop.
  unfold left_crop_column, right_crop_column in Hcrop.
  set (x := nearest_float64 (p * inject_Z w)) in *.
  set (z := nearest_float64 (inject_Z w - x)) in *.
  assert (X : (x <= 0)%Q)
    by (apply nearest_float64_le; [apply nearest_float64_0 | exact Hx]).
  assert (Z : (inject_Z w <= z)%Q)
    by (apply nearest_float64_ge; [apply nearest_float64_int; lia | lra]).
  assert (Hk : 0 <= - py_round x).
  { pose proof (py_round_mono x (inject_Z 0) X) as H.
    rewrite py_round_inject_Z in H. lia. }
  assert (Hright : w <= py_round z).
  { rewrite <- (py_round_inject_Z w) at 1. apply py_round_mono. exact Z. }
  split; [exact Hk |].
  rewrite Hcrop. f_equal.
  set (k := - py_round x) in *.
  replace (py_round x) with (- k) by (unfold k; lia).
  destruct (Z.eqb_spec k 0) as [Hzero | Hnz].
  - rewrite <- (map_id image) at 2. apply map_ext_in. intros row Hin.
    rewrite Forall_forall in Hrect. specialize (Hrect row Hin).
    unfold py_slice. rewrite Hrect, Hzero.
    assert (Hstart : slice_bound w (- 0) = 0)
      by (unfold slice_bound; simpl; lia).
    assert (Hstop : slice_bound w (py_round z) = w).
    { unfold slice_bound. destruct (Z.ltb_spec (py_round z) 0); lia. }
    rewrite Hstart, Hstop. simpl skipn.
    rewrite Z.sub_0_r, <- Hrect, Nat2Z.id. apply firstn_all.
  - apply map_ext_in. intros row Hin.
    rewrite Forall_forall in Hrect. specialize (Hrect row Hin).
    unfold py_slice. rewrite Hrect.
    assert (Hstart : slice_bound w (- k) = Z.max 0 (w - k))
      by (unfold slice_bound; destruct (Z.ltb_spec (- k) 0); lia).
    assert (Hstop : slice_bound w (py_round z) = w).
    { unfold slice_bound. destruct (Z.ltb_spec (py_round z) 0); lia. }
    rewrite Hstart, Hstop.
    replace (Z.to_nat (Z.max 0 (w - k))) with (Z.to_nat (w - k)) by lia.
    apply firstn_all2. rewrite length_skipn. lia.
Qed.

(** The float64 nearest to -0.1 on five columns: the exact product is just
    below -0.5, the float64 product is -0.5 and rounds to 0, nothing is
    cropped.  On ten columns the product is -1 and the last column only is
    kept. *)
Lemma crop_edges_negative_fraction_witness :
  (0 <= - left_crop_column 5 (nearest_float64 (-1 # 10))
   /\ crop_edges [[0; 1; 2; 3; 4]] (Finite (nearest_float64 (-1 # 10)))
      = Ok (if - left_crop_column 5 (nearest_float64 (-1 # 10)) =? 0
            then [[0; 1; 2; 3; 4]]
            else map (fun row =>
                        skipn (Z.to_nat (5 - - left_crop_column 5
                                                  (nearest_float64 (-1 # 10)))) row)
                     [[0; 1; 2; 3; 4]]))
  /\ left_crop_column 5 (nearest_float64 (-1 # 10)) = 0
  /\ crop_edges scan_1x10 (Finite (nearest_float64 (-1 # 10))) = Ok [[9]].
Proof.
  split; [| split; vm_compute; reflexivity].
  apply (crop_edges_negative_fraction [[0; 1; 2; 3; 4]] 5 (nearest_float64 (-1 # 10))).
  - discriminate.
  - repeat constructor.
  - reflexivity.
  - vm_compute. reflexivity.
  - vm_compute. discriminate.
Defined.

(** ** Masks without pixels, masks without an object on the edge *)

Lemma no_columns_no_pixels {A B} (a : grid A) (b : grid B) :
  Forall (fun row => row = []) a -> same_shape a b = true -> concat b = [].
Proof.
  intros Hrows. revert b. induction Hrows as [| ra a Hra _ IH]; intros [| rb b] Hshape;
    simpl in *; try discriminate; [reflexivity |].
  apply andb_true_iff in Hshape. destruct Hshape as [Hlen Hshape].
  subst ra. apply Nat.eqb_eq in Hlen. destruct rb; [| discriminate].
  simpl. now apply IH.
Qed.

Lemma np_max_no_pixels (a : grid Z) : concat a = [] -> np_max a = Raise ValueError.
Proof. intros H. unfold np_max. now rewrite H. Qed.

(** X4.  A crop fraction above one half is not refused but breaks the
    counting.  As long as its product with the width stays in the range of
    float64, the cropped image has no column, and on any label mask of its
    shape the Edge-Duplicate Filter, the Object Locator and the Intensity
    Summarizer all raise ValueError (the maximum of an empty array), and so
    does the counting as a whole. *)
Theorem crop_above_half_raises {tk : Toolkit} (scan : image) (w : Z) (p : Q) :
  Forall (fun row => Z.of_nat (length row) = w) scan ->
  w < 2 ^ 50 ->
  (1 # 2 < p)%Q -> (p * inject_Z w <= pow2 1000)%Q ->
  exists cropped,
    crop_edges scan (Finite p) = Ok cropped
    /\ Forall (fun row => row = []) cropped
    /\ (forall image_segments : grid Z,
           same_shape cropped image_segments = true ->
           remove_bottom_edge image_segments = Raise ValueError
           /\ find_centers image_segments = Raise ValueError
           /\ mean_intensity cropped image_segments = Raise ValueError
           /\ count_segments cropped image_segments = Raise ValueError).
Proof.
  intros Hrect Hw Hhalf Hsmall.
  destruct (crop_edges_crossed scan w p Hrect Hw Hhalf Hsmall) as (cropped & Hcrop & Hnone).
  exists cropped. split; [exact Hcrop |]. split; [exact Hnone |].
  intros image_segments Hshape.
  pose proof (no_columns_no_pixels _ _ Hnone Hshape) as Hempty.
  pose proof (np_max_no_pixels image_segments Hempty) as Hmax.
  assert (Hfilter : remove_bottom_edge image_segments = Raise ValueError)
    by (unfold remove_bottom_edge; now rewrite Hmax).
  repeat split.
  - exact Hfilter.
  - unfold find_centers. now rewrite Hmax.
  - unfold mean_intensity. now rewrite Hmax.
  - unfold count_segments. now rewrite Hfilter.
Qed.

Lemma crop_above_half_raises_witness :
  exists cropped,
    crop_edges flat_scan (Finite (3 # 4)) = Ok cropped
    /\ Forall (fun row => row = []) cropped
    /\ (forall image_segments : grid Z,
           same_shape cropped image_segments = true ->
           remove_bottom_edge image_segments = Raise ValueError
           /\ find_centers image_segments = Raise ValueError
           /\ mean_intensity cropped image_segments = Raise ValueError
           /\ @count_segments (bench_toolkit (fun _ => Ok flat_scan) split_first)
                              cropped image_segments = Raise ValueError).
Proof.
  apply (@crop_above_half_raises (bench_toolkit (fun _ => Ok flat_scan) split_first)
                                 flat_scan 3 (3 # 4)).
  - repeat constructor.
  - reflexivity.
  - reflexivity.
  - vm_compute. discriminate.
Defined.

(** X5.  A mask with no positive label in its bottom row comes back from the
    Edge-Duplicate Filter as it went in. *)
Theorem remove_bottom_edge_clear_edge (mask : grid Z) :
  concat mask <> [] ->
  (forall v, In v (last_row mask) -> v <= 0) ->
  remove_bottom_edge mask = Ok mask.
Proof.
  intros Hne Hclear. rewrite (remove_bottom_edge_spec mask Hne). f_equal.
  apply grid_map_id. intros x _. unfold zero_if, on_bottom_edge.
  destruct (Z.ltb_spec 0 x) as [Hpos | _]; cbn [andb]; [| reflexivity].
  destruct (py_in x (last_row mask)) eqn:Hin; [| reflexivity].
  apply py_in_In, Hclear in Hin. lia.
Qed.

Lemma remove_bottom_edge_clear_edge_witness :
  remove_bottom_edge one_kernel_mask = Ok one_kernel_mask.
Proof.
  apply (remove_bottom_edge_clear_edge one_kernel_mask).
  - discriminate.
  - simpl. intros v [<- | [<- | [<- | []]]]; lia.
Defined.

(** The positive labels left by the filter. *)
Lemma filtered_labels (mask : grid Z) (l : Z) :
  0 < l ->
  (In l (concat (grid_map (zero_if (on_bottom_edge mask)) mask))
   <-> In l (concat mask) /\ ~ In l (last_row mask)).
Proof.
  intros Hl. rewrite concat_grid_map, in_map_iff. unfold zero_if, on_bottom_edge.
  split.
  - intros (v & Hv & Hin).
    destruct (Z.ltb_spec 0 v) as [Hpos | Hneg]; cbn [andb] in Hv.
    + destruct (py_in v (last_row mask)) eqn:Hrow; [lia | subst v].
      split; [exact Hin |]. intros Hrow'. apply py_in_In in Hrow'. congruence.
    + subst v. split; [exact Hin | lia].
  - intros [Hin Hrow]. exists l. split; [| exact Hin].
    destruct (py_in l (last_row mask)) eqn:Hrow';
      [apply py_in_In in Hrow'; contradiction |].
    now rewrite andb_false_r.
Qed.

(** X6.  The Edge-Duplicate Filter followed by the Object Locator: one
    centroid per positive label of the mask that does not occur in its bottom
    row, in ascending order of these labels. *)
Theorem centers_after_edge_filter (mask : grid Z) :
  concat mask <> [] ->
  exists filtered top,
    remove_bottom_edge mask = Ok filtered
    /\ np_max filtered = Ok top
    /\ find_centers filtered
       = Ok (map (center_of_label filtered filtered) (surviving_labels filtered top))
    /\ StronglySorted Z.lt (surviving_labels filtered top)
    /\ (forall l, In l (surviving_labels filtered top)
                  <-> 0 < l /\ In l (concat mask) /\ ~ In l (last_row mask)).
Proof.
  intros Hne.
  set (filtered := grid_map (zero_if (on_bottom_edge mask)) mask).
  assert (Hne' : concat filtered <> []).
  { unfold filtered. rewrite concat_grid_map. intros Hnil.
    apply map_eq_nil in Hnil. contradiction. }
  destruct (np_max_spec filtered Hne') as (top & Htop & Hupper).
  exists filtered, top.
  split; [apply remove_bottom_edge_spec; exact Hne |].
  split; [exact Htop |].
  split; [apply find_centers_spec; exact Htop |].
  split; [apply filter_sorted, py_range_sorted |].
  intros l. rewrite (surviving_labels_In filtered top Hupper). split.
  - intros [Hl Hin]. split; [exact Hl |]. now apply filtered_labels.
  - intros (Hl & Hin & Hrow). split; [exact Hl |]. now apply filtered_labels.
Qed.

Lemma centers_after_edge_filter_witness :
  exists filtered top,
    remove_bottom_edge demo_mask = Ok filtered
    /\ np_max filtered = Ok top
    /\ find_centers filtered
       = Ok (map (center_of_label filtered filtered) (surviving_labels filtered top))
    /\ StronglySorted Z.lt (surviving_labels filtered top)
    /\ (forall l, In l (surviving_labels filtered top)
                  <-> 0 < l /\ In l (concat demo_mask) /\ ~ In l (last_row demo_mask)).
Proof.
  apply (centers_after_edge_filter demo_mask). discriminate.
Defined.

(** ** Object Locator: what a centroid is *)

Lemma zsum_scaled (l : Z) (f : Z * Z * Z -> Z) (sel : list (Z * Z * Z)) :
  Forall (fun p => snd p = l) sel ->
  zsum (map (fun p => snd p * f p) sel) = l * zsum (map f sel).
Proof.
  induction 1 as [| p sel Hp _ IH]; simpl; [lia |].
  rewrite IH, Hp. lia.
Qed.

Lemma pixels_of_label (a : grid Z) (l : Z) :
  Forall (fun p => snd p = l) (pixels_of a l).
Proof.
  apply Forall_forall. intros p Hp. apply filter_In in Hp. now apply Z.eqb_eq.
Qed.

Lemma fdiv_by_positive (x n : Z) :
  0 < n -> fdiv (of_int x) (of_int n) = Finite (inject_Z x / inject_Z n).
Proof.
  intros Hn. unfold fdiv, of_int.
  assert (H : (0 < inject_Z n)%Q) by (change 0%Q with (inject_Z 0); now rewrite <- Zlt_Qlt).
  apply Qgt_alt in H. now rewrite H.
Qed.

Lemma scaled_quotient (l s n : Z) :
  0 < l -> 0 < n ->
  (inject_Z (l * s) / inject_Z (l * n) == inject_Z s / inject_Z n)%Q.
Proof.
  intros Hl Hn. rewrite !inject_Z_mult.
  assert (Hl' : (0 < inject_Z l)%Q)
    by (change 0%Q with (inject_Z 0); now rewrite <- Zlt_Qlt).
  assert (Hn' : (0 < inject_Z n)%Q)
    by (change 0%Q with (inject_Z 0); now rewrite <- Zlt_Qlt).
  field. split; intros H; rewrite H in *; now apply (Qlt_irrefl 0).
Qed.

(** The centroid of a label with a pixel, as the code computes it. *)
Lemma center_of_present_label (a : grid Z) (l : Z) :
  0 < l -> In l (concat a) ->
  (0 < length (pixels_of a l))%nat
  /\ center_of_label a a l
     = (Finite (inject_Z (l * zsum (map (fun p => fst (fst p)) (pixels_of a l)))
                / inject_Z (l * Z.of_nat (length (pixels_of a l)))),
        Finite (inject_Z (l * zsum (map (fun p => snd (fst p)) (pixels_of a l)))
                / inject_Z (l * Z.of_nat (length (pixels_of a l))))).
Proof.
  intros Hl Hin.
  assert (Hcount : (0 < length (pixels_of a l))%nat).
  { apply selection_nonempty in Hin. unfold pixels_of.
    destruct (filter _ _); [contradiction | simpl; lia]. }
  split; [exact Hcount |].
  unfold center_of_label. rewrite center_selection. fold (pixels_of a l).
  cbv zeta.
  rewrite (zsum_const l _ (pixels_of_label a l)).
  rewrite !(zsum_scaled l _ _ (pixels_of_label a l)).
  rewrite !fdiv_by_positive by lia. reflexivity.
Qed.

(** X7.  The label values that the Object Locator passes as weights cancel:
    the centroid of a positive label with a pixel is the plain mean of the
    rows and of the columns of its pixels, and is never NaN. *)
Theorem centroid_is_mean_position (a : grid Z) (l : Z) :
  0 < l -> In l (concat a) ->
  exists row col,
    center_of_label a a l = (Finite row, Finite col)
    /\ (row == inject_Z (zsum (map (fun p => fst (fst p)) (pixels_of a l)))
               / inject_Z (Z.of_nat (length (pixels_of a l))))%Q
    /\ (col == inject_Z (zsum (map (fun p => snd (fst p)) (pixels_of a l)))
               / inject_Z (Z.of_nat (length (pixels_of a l))))%Q.
Proof.
  intros Hl Hin.
  destruct (center_of_present_label a l Hl Hin) as [Hcount ->].
  eexists. eexists. split; [reflexivity |].
  split; apply scaled_quotient; lia.
Qed.

Lemma centroid_is_mean_position_witness :
  exists row col,
    center_of_label demo_mask demo_mask 2 = (Finite row, Finite col)
    /\ (row == inject_Z (zsum (map (fun p => fst (fst p)) (pixels_of demo_mask 2)))
               / inject_Z (Z.of_nat (length (pixels_of demo_mask 2))))%Q
    /\ (col == inject_Z (zsum (map (fun p => snd (fst p)) (pixels_of demo_mask 2)))
               / inject_Z (Z.of_nat (length (pixels_of demo_mask 2))))%Q.
Proof.
  apply (centroid_is_mean_position demo_mask 2).
  - lia.
  - simpl. tauto.
Defined.

Lemma enumerate_In {A} (l : list A) (i : Z) (x : A) :
  In (i, x) (enumerate l) -> 0 <= i < Z.of_nat (length l) /\ In x l.
Proof.
  unfold enumerate. intros Hin. split.
  - apply in_combine_l, in_map_iff in Hin. destruct Hin as (k & <- & Hk).
    apply in_seq in Hk. lia.
  - exact (in_combine_r _ _ _ _ Hin).
Qed.

(** The coordinates listed by [cells] are coordinates of the array. *)
Lemma cells_coordinates {A} (a : grid A) (p : Z * Z * A) :
  In p (cells a) ->
  0 <= fst (fst p) < Z.of_nat (length a)
  /\ exists row, In row a /\ 0 <= snd (fst p) < Z.of_nat (length row).
Proof.
  unfold cells. rewrite in_flat_map. intros ([r row] & Hrow & Hp).
  apply in_map_iff in Hp. destruct Hp as ([c v] & <- & Hcv). simpl in *.
  apply enumerate_In in Hrow. apply enumerate_In in Hcv.
  split; [tauto |]. exists row. tauto.
Qed.

Lemma zsum_between (f : Z * Z * Z -> Z) (lo hi : Z) (sel : list (Z * Z * Z)) :
  Forall (fun p => lo <= f p <= hi) sel ->
  lo * Z.of_nat (length sel) <= zsum (map f sel) <= hi * Z.of_nat (length sel).
Proof.
  induction 1 as [| p sel Hp _ IH]; simpl zsum; simpl length; [lia |].
  rewrite Nat2Z.inj_succ. lia.
Qed.

Lemma quotient_between (s n lo hi : Z) :
  0 < n -> lo * n <= s <= hi * n ->
  (inject_Z lo <= inject_Z s / inject_Z n /\ inject_Z s / inject_Z n <= inject_Z hi)%Q.
Proof.
  intros Hn [Hlo Hhi].
  assert (Hn' : (0 < inject_Z n)%Q)
    by (change 0%Q with (inject_Z 0); now rewrite <- Zlt_Qlt).
  split.
  - apply Qle_shift_div_l; [exact Hn' |].
    rewrite <- inject_Z_mult, <- Zle_Qle. exact Hlo.
  - apply Qle_shift_div_r; [exact Hn' |].
    rewrite <- inject_Z_mult, <- Zle_Qle. exact Hhi.
Qed.

(** X8.  Every centroid that the Object Locator returns is a pair of finite
    numbers inside the mask: its row between 0 and the last row, its column
    between 0 and the last column. *)
Theorem centers_inside_image (mask : grid Z) (w : Z)
        (centers : list (npfloat * npfloat)) :
  Forall (fun row => Z.of_nat (length row) = w) mask ->
  find_centers mask = Ok centers ->
  Forall (fun center =>
            exists row col,
              center = (Finite row, Finite col)
              /\ (0 <= row)%Q /\ (row <= inject_Z (Z.of_nat (length mask) - 1))%Q
              /\ (0 <= col)%Q /\ (col <= inject_Z (w - 1))%Q)
         centers.
Proof.
  intros Hrect Hrun. unfold find_centers in Hrun.
  destruct (np_max mask) as [top | e] eqn:Htop; [| discriminate].
  pose proof (find_centers_spec mask top Htop) as Hspec.
  unfold find_centers in Hspec. rewrite Htop in Hspec. rewrite Hspec in Hrun.
  injection Hrun as <-.
  apply Forall_forall. intros center Hcenter. apply in_map_iff in Hcenter.
  destruct Hcenter as (l & <- & Hl).
  unfold surviving_labels in Hl. apply filter_In in Hl. destruct Hl as [Hrange Hin].
  apply in_py_range in Hrange. apply py_in_grid_In in Hin.
  destruct (center_of_present_label mask l ltac:(lia) Hin) as [Hcount ->].
  eexists. eexists. split; [reflexivity |].
  assert (Hcoord : Forall (fun p => 0 <= fst (fst p) <= Z.of_nat (length mask) - 1
                                    /\ 0 <= snd (fst p) <= w - 1) (pixels_of mask l)).
  { apply Forall_forall. intros p Hp. apply filter_In in Hp. destruct Hp as [Hp _].
    destruct (cells_coordinates mask p Hp) as [Hr (row & Hrow & Hc)].
    rewrite Forall_forall in Hrect. rewrite (Hrect row Hrow) in Hc. lia. }
  assert (Hrows : Forall (fun p => 0 <= fst (fst p) <= Z.of_nat (length mask) - 1)
                         (pixels_of mask l))
    by (eapply Forall_impl; [| exact Hcoord]; simpl; tauto).
  assert (Hcols : Forall (fun p => 0 <= snd (fst p) <= w - 1) (pixels_of mask l))
    by (eapply Forall_impl; [| exact Hcoord]; simpl; tauto).
  pose proof (zsum_between (fun p => fst (fst p)) _ _ _ Hrows) as Hsr.
  pose proof (zsum_between (fun p => snd (fst p)) _ _ _ Hcols) as Hsc.
  set (n := Z.of_nat (length (pixels_of mask l))) in *.
  assert (Hn : 0 < n) by (unfold n; lia).
  rewrite !(scaled_quotient l _ n) by lia.
  destruct (quotient_between _ n 0 _ Hn Hsr) as [Hr0 Hr1].
  destruct (quotient_between _ n 0 _ Hn Hsc) as [Hc0 Hc1].
  repeat split; assumption.
Qed.

Lemma centers_inside_image_witness :
  Forall (fun center =>
            exists row col,
              center = (Finite row, Finite col)
              /\ (0 <= row)%Q /\ (row <= inject_Z (Z.of_nat (length demo_mask) - 1))%Q
              /\ (0 <= col)%Q /\ (col <= inject_Z (4 - 1))%Q)
         (map (center_of_label demo_mask demo_mask) [1; 2; 3; 4]).
Proof.
  apply (centers_inside_image demo_mask 4).
  - repeat constructor.
  - vm_compute. reflexivity.
Defined.

(** ** Intensity Summarizer: errors and ranges *)

Lemma channel_mean_value {A} (f : A -> Z) (img : grid A) (mask : grid Z) (l : Z)
      (m : npfloat) :
  channel_mean (grid_map f img) mask l = Ok m ->
  m = label_mean (grid_map f img) mask l /\ same_shape img mask = true.
Proof.
  unfold channel_mean, bool_index, np_eq. rewrite same_shape_grid_map2.
  destruct (same_shape img mask); simpl; [| discriminate].
  intros H. injection H as <-. split; reflexivity.
Qed.

Lemma channel_mean_mismatch {A} (f : A -> Z) (img : grid A) (mask : grid Z) (l : Z) :
  same_shape img mask = false ->
  channel_mean (grid_map f img) mask l = Raise IndexError.
Proof.
  intros Hshape. unfold channel_mean, bool_index, np_eq.
  now rewrite same_shape_grid_map2, Hshape.
Qed.

(** The loop of [mean_intensity], whatever the shapes: if it ends, it has
    appended the means of the labels with a pixel. *)
Lemma mean_intensity_loop_value (input_image : image) (mask : grid Z) :
  forall (labels : list Z) (R G B : list npfloat)
         (out : list npfloat * list npfloat * list npfloat),
    for_each (mean_intensity_body (grid_map red input_image)
                                  (grid_map green input_image)
                                  (grid_map blue input_image) mask)
             labels (R, G, B) = Ok out ->
    out = (R ++ map (label_mean (grid_map red input_image) mask)
                    (filter (fun l => py_in_grid l mask) labels),
           G ++ map (label_mean (grid_map green input_image) mask)
                    (filter (fun l => py_in_grid l mask) labels),
           B ++ map (label_mean (grid_map blue input_image) mask)
                    (filter (fun l => py_in_grid l mask) labels))
    /\ (filter (fun l => py_in_grid l mask) labels <> [] ->
        same_shape input_image mask = true).
Proof.
  induction labels as [| l labels IH]; intros R G B out; simpl.
  - intros H. injection H as <-. rewrite !app_nil_r. split; [reflexivity | congruence].
  - destruct (py_in_grid l mask); simpl.
    + destruct (channel_mean (grid_map red input_image) mask l) as [r |] eqn:Hr;
        simpl; [| discriminate].
      destruct (channel_mean (grid_map green input_image) mask l) as [g |] eqn:Hg;
        simpl; [| discriminate].
      destruct (channel_mean (grid_map blue input_image) mask l) as [b |] eqn:Hb;
        simpl; [| discriminate].
      apply channel_mean_value in Hr, Hg, Hb.
      destruct Hr as [-> Hshape], Hg as [-> _], Hb as [-> _].
      intros Hloop. destruct (IH _ _ _ _ Hloop) as [-> _].
      rewrite <- !app_assoc. split; [reflexivity | intros _; exact Hshape].
    + apply IH.
Qed.

Lemma mean_intensity_value (input_image : image) (mask : grid Z) (rgb : list triple) :
  mean_intensity input_image mask = Ok rgb ->
  exists top,
    np_max mask = Ok top
    /\ rgb = map (label_triple input_image mask) (surviving_labels mask top)
    /\ (surviving_labels mask top <> [] -> same_shape input_image mask = true).
Proof.
  unfold mean_intensity. destruct (np_max mask) as [top | e]; simpl; [| discriminate].
  destruct (for_each _ _ _) as [out |] eqn:Hloop; simpl; [| discriminate].
  destruct (mean_intensity_loop_value _ _ _ _ _ _ _ Hloop) as [-> Hshape].
  simpl. rewrite column_stack3_maps. intros H. injection H as <-.
  exists top. repeat split. exact Hshape.
Qed.

Lemma mean_intensity_loop_mismatch (input_image : image) (mask : grid Z) :
  same_shape input_image mask = false ->
  forall (labels : list Z) (acc : list npfloat * list npfloat * list npfloat),
    (exists l, In l labels /\ py_in_grid l mask = true) ->
    for_each (mean_intensity_body (grid_map red input_image)
                                  (grid_map green input_image)
                                  (grid_map blue input_image) mask)
             labels acc = Raise IndexError.
Proof.
  intros Hshape. induction labels as [| l labels IH]; intros [[R G] B] (l' & Hin & Hl');
    [contradiction |].
  simpl. destruct (py_in_grid l mask) eqn:Hl.
  - now rewrite channel_mean_mismatch.
  - simpl. apply IH. destruct Hin as [-> | Hin]; [congruence | eauto].
Qed.

Lemma mean_intensity_loop_skips (input_image : image) (mask : grid Z)
      (labels : list Z) (acc : list npfloat * list npfloat * list npfloat) :
  filter (fun l => py_in_grid l mask) labels = [] ->
  for_each (mean_intensity_body (grid_map red input_image)
                                (grid_map green input_image)
                                (grid_map blue input_image) mask)
           labels acc = Ok acc.
Proof.
  destruct acc as [[R G] B].
  induction labels as [| l labels IH]; simpl; [reflexivity |].
  destruct (py_in_grid l mask); simpl; [discriminate | exact IH].
Qed.

(** X9.  The Intensity Summarizer checks the image against the mask only
    through the objects: with an image of another shape than the mask it
    raises IndexError as soon as the mask holds a positive label, and with no
    positive label in the mask it returns no triple, whatever the image. *)
Theorem mean_intensity_other_shape (input_image : image) (mask : grid Z) :
  concat mask <> [] ->
  (same_shape input_image mask = false ->
   (exists l, 0 < l /\ In l (concat mask)) ->
   mean_intensity input_image mask = Raise IndexError)
  /\ ((forall l, In l (concat mask) -> l <= 0) ->
      mean_intensity input_image mask = Ok []).
Proof.
  intros Hne. destruct (np_max_spec mask Hne) as (top & Htop & Hupper). split.
  - intros Hshape (l & Hl & Hin). unfold mean_intensity. rewrite Htop. simpl.
    rewrite (mean_intensity_loop_mismatch input_image mask Hshape); [reflexivity |].
    exists l. split; [| now apply py_in_grid_In].
    apply in_py_range. specialize (Hupper l Hin). lia.
  - intros Hnone. unfold mean_intensity. rewrite Htop. simpl.
    assert (Hnil : filter (fun l => py_in_grid l mask) (py_range 1 (top + 1)) = []).
    { destruct (filter _ _) as [| l ls] eqn:Hf; [reflexivity |].
      assert (Hl : In l (filter (fun l => py_in_grid l mask) (py_range 1 (top + 1))))
        by (rewrite Hf; now left).
      apply filter_In in Hl. destruct Hl as [Hrange Hin].
      apply in_py_range in Hrange. apply py_in_grid_In, Hnone in Hin. lia. }
    now rewrite (mean_intensity_loop_skips _ _ _ _ Hnil).
Qed.

(** The full-width scan against the mask of a cropped one. *)
Lemma mean_intensity_other_shape_witness :
  (same_shape demo_image one_kernel_mask = false ->
   (exists l, 0 < l /\ In l (concat one_kernel_mask)) ->
   mean_intensity demo_image one_kernel_mask = Raise IndexError)
  /\ ((forall l, In l (concat one_kernel_mask) -> l <= 0) ->
      mean_intensity demo_image one_kernel_mask = Ok []).
Proof.
  apply (mean_intensity_other_shape demo_image one_kernel_mask). discriminate.
Defined.

Lemma fsum_of_ints (l : list Z) (acc : Q) :
  exists q, fold_left fadd (map of_int l) (Finite acc) = Finite q
            /\ (q == acc + inject_Z (zsum l))%Q.
Proof.
  revert acc. induction l as [| x l IH]; intros acc; simpl.
  - exists acc. split; [reflexivity | ring].
  - destruct (IH (acc + inject_Z x)%Q) as (q & -> & Hq).
    exists q. split; [reflexivity |]. rewrite Hq, inject_Z_plus. ring.
Qed.

Lemma fdiv_finite_by_positive (q : Q) (n : Z) :
  0 < n -> fdiv (Finite q) (of_int n) = Finite (q / inject_Z n).
Proof.
  intros Hn. unfold fdiv, of_int.
  assert (H : (0 < inject_Z n)%Q) by (change 0%Q with (inject_Z 0); now rewrite <- Zlt_Qlt).
  apply Qgt_alt in H. now rewrite H.
Qed.

Lemma same_shape_concat_length {A B} (a : grid A) (b : grid B) :
  same_shape a b = true -> length (concat a) = length (concat b).
Proof.
  revert b. induction a as [| ra a IH]; intros [| rb b] Hshape; simpl in *;
    try discriminate; [reflexivity |].
  apply andb_true_iff in Hshape. destruct Hshape as [Hlen Hshape].
  apply Nat.eqb_eq in Hlen. rewrite !length_app, Hlen. f_equal. now apply IH.
Qed.

Lemma same_shape_grid_map_l {A B C} (f : A -> C) (a : grid A) (b : grid B) :
  same_shape (grid_map f a) b = same_shape a b.
Proof.
  revert b. induction a as [| ra a IH]; intros [| rb b]; simpl; try reflexivity.
  now rewrite length_map, IH.
Qed.

Lemma selection_has_pixel {A} (xs : list A) (bs : list bool) :
  length xs = length bs -> In true bs -> filter snd (combine xs bs) <> [].
Proof.
  revert bs. induction xs as [| x xs IH]; intros [| b bs] Hlen Hin; simpl in *;
    try discriminate; try contradiction.
  destruct b; simpl; [discriminate |].
  destruct Hin as [? | Hin]; [discriminate |]. apply IH; [lia | exact Hin].
Qed.

Lemma zsum_list_between (lo hi : Z) (l : list Z) :
  Forall (fun v => lo <= v <= hi) l ->
  lo * Z.of_nat (length l) <= zsum l <= hi * Z.of_nat (length l).
Proof.
  induction 1 as [| v l Hv _ IH]; simpl zsum; simpl length; [lia |].
  rewrite Nat2Z.inj_succ. lia.
Qed.

(** The mean of a channel over a label with a pixel lies between the bounds
    of the channel. *)
Lemma label_mean_between (channel mask : grid Z) (l lo hi : Z) :
  same_shape channel mask = true ->
  In l (concat mask) ->
  Forall (fun v => lo <= v <= hi) (concat channel) ->
  exists q, label_mean channel mask l = Finite q
            /\ (inject_Z lo <= q)%Q /\ (q <= inject_Z hi)%Q.
Proof.
  intros Hshape Hin Hrange. unfold label_mean.
  set (sel := map fst (filter snd (combine (concat channel) (concat (np_eq mask l))))).
  assert (Hsel : Forall (fun v => lo <= v <= hi) sel).
  { apply Forall_forall. intros v Hv. unfold sel in Hv.
    apply in_map_iff in Hv. destruct Hv as ([v' b] & <- & Hv).
    apply filter_In in Hv. destruct Hv as [Hv _]. apply in_combine_l in Hv.
    rewrite Forall_forall in Hrange. now apply Hrange. }
  assert (Hn : 0 < Z.of_nat (length sel)).
  { unfold sel. rewrite length_map.
    assert (Hne : filter snd (combine (concat channel) (concat (np_eq mask l))) <> []).
    { apply selection_has_pixel.
      - unfold np_eq. rewrite concat_grid_map, length_map.
        now apply same_shape_concat_length.
      - unfold np_eq. rewrite concat_grid_map. apply in_map_iff.
        exists l. split; [apply Z.eqb_refl | exact Hin]. }
    destruct (filter _ _); [contradiction | simpl; lia]. }
  unfold np_mean, fsum. rewrite length_map.
  destruct (fsum_of_ints sel 0) as (q & -> & Hq).
  rewrite fdiv_finite_by_positive by exact Hn.
  eexists. split; [reflexivity |].
  assert (Hq' : (q == inject_Z (zsum sel))%Q) by (rewrite Hq; ring).
  rewrite Hq'.
  apply quotient_between; [exact Hn | now apply zsum_list_between].
Qed.

(** X10.  Every mean that the Intensity Summarizer returns is a finite number
    within the range of the pixel values of the image (0 to 255 for a scan of
    [uint8] channels). *)
Theorem mean_intensity_within_pixel_range (input_image : image) (mask : grid Z)
        (rgb : list triple) (lo hi : Z) :
  Forall (fun px => lo <= red px <= hi /\ lo <= green px <= hi /\ lo <= blue px <= hi)
         (concat input_image) ->
  mean_intensity input_image mask = Ok rgb ->
  Forall (fun t : triple =>
            exists r g b,
              t = (Finite r, Finite g, Finite b)
              /\ (inject_Z lo <= r)%Q /\ (r <= inject_Z hi)%Q
              /\ (inject_Z lo <= g)%Q /\ (g <= inject_Z hi)%Q
              /\ (inject_Z lo <= b)%Q /\ (b <= inject_Z hi)%Q)
         rgb.
Proof.
  intros Hrange Hrun.
  destruct (mean_intensity_value _ _ _ Hrun) as (top & Htop & -> & Hshape).
  apply Forall_forall. intros t Ht. apply in_map_iff in Ht.
  destruct Ht as (l & <- & Hl).
  assert (Hsame : same_shape input_image mask = true).
  { apply Hshape. intros Hnil. rewrite Hnil in Hl. contradiction. }
  unfold surviving_labels in Hl. apply filter_In in Hl. destruct Hl as [_ Hin].
  apply py_in_grid_In in Hin.
  assert (Hchan : forall f : pixel -> Z,
             (forall px, In px (concat input_image) -> lo <= f px <= hi) ->
             exists q, label_mean (grid_map f input_image) mask l = Finite q
                       /\ (inject_Z lo <= q)%Q /\ (q <= inject_Z hi)%Q).
  { intros f Hf. apply label_mean_between.
    - rewrite <- Hsame. apply same_shape_grid_map_l.
    - exact Hin.
    - rewrite concat_grid_map. apply Forall_forall. intros v Hv.
      apply in_map_iff in Hv. destruct Hv as (px & <- & Hpx). now apply Hf. }
  rewrite Forall_forall in Hrange.
  destruct (Hchan red) as (r & Hr & Hr0 & Hr1); [intros px Hpx; now apply Hrange |].
  destruct (Hchan green) as (g & Hg & Hg0 & Hg1); [intros px Hpx; now apply Hrange |].
  destruct (Hchan blue) as (b & Hb & Hb0 & Hb1); [intros px Hpx; now apply Hrange |].
  exists r, g, b. unfold label_triple. rewrite Hr, Hg, Hb. repeat split; assumption.
Qed.

Lemma mean_intensity_within_pixel_range_witness :
  Forall (fun t : triple =>
            exists r g b,
              t = (Finite r, Finite g, Finite b)
              /\ (inject_Z 0 <= r)%Q /\ (r <= inject_Z 255)%Q
              /\ (inject_Z 0 <= g)%Q /\ (g <= inject_Z 255)%Q
              /\ (inject_Z 0 <= b)%Q /\ (b <= inject_Z 255)%Q)
         (map (label_triple demo_image demo_mask) [1; 2; 3; 4]).
Proof.
  apply (mean_intensity_within_pixel_range demo_image demo_mask _ 0 255).
  - repeat (apply Forall_cons; [simpl; lia |]). apply Forall_nil.
  - vm_compute. reflexivity.
Defined.

(** ** Cluster Classifier: two kernels *)

Lemma getitem_first {A} (x : A) (l : list A) : getitem (x :: l) 0 = Ok x.
Proof.
  unfold getitem. cbv zeta. change (0 <? 0) with false. cbv iota.
  change (0 <=? 0) with true.
  destruct (Z.ltb_spec 0 (Z.of_nat (length (x :: l)))) as [_ | H];
    [reflexivity | simpl length in H; lia].
Qed.

Lemma getitem_second {A} (x y : A) (l : list A) : getitem (x :: y :: l) 1 = Ok y.
Proof.
  unfold getitem. cbv zeta. change (1 <? 0) with false. cbv iota.
  change (0 <=? 1) with true.
  destruct (Z.ltb_spec 1 (Z.of_nat (length (x :: y :: l)))) as [_ | H];
    [reflexivity | simpl length in H; lia].
Qed.

Lemma np_mean_one (a : Q) : np_mean [Finite a] = Finite ((0 + a) / inject_Z 1).
Proof.
  unfold np_mean, fsum. cbn [fold_left fadd length].
  now apply fdiv_finite_by_positive.
Qed.

Lemma np_mean_two (a b : Q) :
  np_mean [Finite a; Finite b] = Finite ((0 + a + b) / inject_Z 2).
Proof.
  unfold np_mean, fsum. cbn [fold_left fadd length].
  now apply fdiv_finite_by_positive.
Qed.

Lemma mean_one_below_mean_two (a b : Q) :
  Qltb ((0 + a) / inject_Z 1) ((0 + a + b) / inject_Z 2) = Qltb a b.
Proof.
  assert (H1 : ((0 + a) / inject_Z 1 == a)%Q) by (field; discriminate).
  assert (H2 : ((0 + a + b) / inject_Z 2 == (a + b) * (1 # 2))%Q) by (field; discriminate).
  destruct (Qltb a b) eqn:Hab.
  - apply Qltb_true_iff in Hab. apply Qltb_true_iff. rewrite H1, H2. lra.
  - apply Qltb_false_iff in Hab. apply Qltb_false_iff. rewrite H1, H2. lra.
Qed.

(** X11.  On two kernels that the clustering has put in different groups the
    canonicalization is right: afterwards the kernel of higher mean green
    intensity is in group 0 and the other in group 1, and at equal intensity
    the labels stay as they are. *)
Theorem two_kernels_canonical (r0 b0 r1 b1 : npfloat) (g0 g1 : Q) (l0 l1 : Z) :
  (l0 = 0 /\ l1 = 1) \/ (l0 = 1 /\ l1 = 0) ->
  exists out,
    which_is_more_green [(r0, Finite g0, b0); (r1, Finite g1, b1)]
                        {| labels_ := [l0; l1] |}
    = Ok {| labels_ := out |}
    /\ ((g1 < g0)%Q -> out = [0; 1])
    /\ ((g0 < g1)%Q -> out = [1; 0])
    /\ ((g0 == g1)%Q -> out = [l0; l1]).
Proof.
  intros [[-> ->] | [-> ->]]; unfold which_is_more_green;
    cbn [labels_ map fst snd bool_index1 length Nat.eqb combine filter
         int_index bind Z.eqb];
    rewrite ?getitem_first, ?getitem_second; cbn [bind];
    rewrite np_mean_one, np_mean_two; cbn [flt].
  - rewrite mean_one_below_mean_two.
    destruct (Qltb g0 g1) eqn:Hlt; eexists; (split; [reflexivity |]).
    + apply Qltb_true_iff in Hlt. repeat split; intros H; try reflexivity; lra.
    + apply Qltb_false_iff in Hlt. repeat split; intros H; try reflexivity; lra.
  - rewrite mean_one_below_mean_two.
    destruct (Qltb g1 g0) eqn:Hlt; eexists; (split; [reflexivity |]).
    + apply Qltb_true_iff in Hlt. repeat split; intros H; try reflexivity; lra.
    + apply Qltb_false_iff in Hlt. repeat split; intros H; try reflexivity; lra.
Qed.

Lemma two_kernels_canonical_witness :
  exists out,
    which_is_more_green [(of_int 0, Finite 3, of_int 0); (of_int 0, Finite 7, of_int 0)]
                        {| labels_ := [0; 1] |}
    = Ok {| labels_ := out |}
    /\ ((7 < 3)%Q -> out = [0; 1])
    /\ ((3 < 7)%Q -> out = [1; 0])
    /\ ((3 == 7)%Q -> out = [0; 1]).
Proof.
  apply (two_kernels_canonical (of_int 0) (of_int 0) (of_int 0) (of_int 0) 3 7 0 1).
  left. split; reflexivity.
Defined.

(** ** Counting *)

Lemma tally_total (x : Z) (acc : list (Z * Z)) :
  zsum (map snd (tally x acc)) = 1 + zsum (map snd acc).
Proof.
  unfold zsum in *.
  induction acc as [| [y n] acc IH]; cbn [tally map snd fold_right]; [reflexivity |].
  destruct (x =? y); cbn [map snd fold_right]; [lia |].
  destruct (x <? y); cbn [map snd fold_right]; [lia |]. rewrite IH. lia.
Qed.

Lemma np_unique_total (v : list Z) :
  zsum (snd (np_unique_counts v)) = Z.of_nat (length v).
Proof.
  unfold np_unique_counts. cbn [snd].
  induction v as [| x v IH]; [reflexivity |].
  cbn [fold_right length]. rewrite tally_total, IH. lia.
Qed.

Lemma column_stack3_last {A B C} (a : list A) (b : list B) (c : list C)
      (d : list (A * B * C)) :
  column_stack3 a b c = Ok d -> map snd d = c /\ length c = length a.
Proof.
  unfold column_stack3.
  destruct (length a =? length b)%nat eqn:Hab; simpl; [| discriminate].
  destruct (length b =? length c)%nat eqn:Hbc; simpl; [| discriminate].
  apply Nat.eqb_eq in Hab, Hbc. intros H. injection H as <-.
  split; [| lia].
  assert (Hlen : length (combine a b) = length c) by (rewrite length_combine; lia).
  revert Hlen. generalize (combine a b) as ab. clear.
  intros ab. revert c. induction ab as [| x ab IH]; intros [| y c] Hlen; simpl in *;
    try discriminate; [reflexivity |].
  f_equal. apply IH. lia.
Qed.

Lemma which_is_more_green_length (rgb_input : list triple) (km out : kmeans_model) :
  which_is_more_green rgb_input km = Ok out ->
  length (labels_ out) = length (labels_ km).
Proof.
  unfold which_is_more_green. cbv zeta.
  destruct (bool_index1 _ _) as [sel0 |]; simpl; [| discriminate].
  destruct (int_index _ _) as [sel1 |]; simpl; [| discriminate].
  destruct (flt _ _); intros H; injection H as <-; [| reflexivity].
  simpl. unfold relabel. now rewrite !length_map.
Qed.

Lemma unzip_centers_length (centers : list (npfloat * npfloat))
      (yx : list npfloat * list npfloat) :
  unzip_centers centers = Ok yx ->
  length (snd yx) = length centers /\ length (fst yx) = length centers.
Proof.
  unfold unzip_centers. destruct centers as [| c centers]; [discriminate |].
  intros H. injection H as H. subst yx. cbn [fst snd length].
  rewrite !length_map. split; reflexivity.
Qed.

(** X12.  Whenever the counting of the segments of an image returns, the
    counts it returns add up to the number of objects left by the
    Edge-Duplicate Filter: no object is counted twice and none is dropped,
    whatever the clustering answers. *)
Theorem counts_add_up {tk : Toolkit} (input_image : image) (image_segments : grid Z)
        (counts : list Z) :
  count_segments input_image image_segments = Ok counts ->
  exists filtered top,
    remove_bottom_edge image_segments = Ok filtered
    /\ np_max filtered = Ok top
    /\ zsum counts = Z.of_nat (length (surviving_labels filtered top)).
Proof.
  unfold count_segments.
  destruct (remove_bottom_edge image_segments) as [filtered |]; simpl; [| discriminate].
  destruct (find_centers filtered) as [centers |] eqn:Hcenters; simpl; [| discriminate].
  destruct (mean_intensity input_image filtered) as [rgb |] eqn:Hmean; simpl;
    [| discriminate].
  destruct (mean_intensity_value _ _ _ Hmean) as (top & Htop & Hrgb & _).
  rewrite (find_centers_spec filtered top Htop) in Hcenters.
  injection Hcenters as <-.
  intros Hrun. exists filtered, top. split; [reflexivity |]. split; [exact Htop |].
  assert (Hn : length rgb = length (surviving_labels filtered top))
    by (rewrite Hrgb; apply length_map).
  destruct (length rgb =? 0)%nat eqn:Hzero.
  - apply Nat.eqb_eq in Hzero. injection Hrun as <-. simpl. lia.
  - destruct (kmeans_from_rgb rgb) as [km |]; simpl in Hrun; [| discriminate].
    destruct (which_is_more_green rgb km) as [km' |]; simpl in Hrun; [| discriminate].
    destruct (unzip_centers _) as [yx |] eqn:Hyx; simpl in Hrun; [| discriminate].
    destruct (column_stack3 _ _ _) as [data |] eqn:Hdata; simpl in Hrun;
      [| discriminate].
    apply column_stack3_last in Hdata. destruct Hdata as [Hlabels Hlen].
    rewrite Hlabels in Hrun.
    pose proof (np_unique_total (labels_ km')) as Htotal.
    unfold np_unique_counts in Htotal. cbn [snd] in Htotal.
    injection Hrun as <-. rewrite Htotal, Hlen.
    rewrite (proj1 (unzip_centers_length _ _ Hyx)), length_map. reflexivity.
Qed.

Lemma counts_add_up_witness :
  exists filtered top,
    remove_bottom_edge demo_mask = Ok filtered
    /\ np_max filtered = Ok top
    /\ zsum [2; 1] = Z.of_nat (length (surviving_labels filtered top)).
Proof.
  apply (@counts_add_up (bench_toolkit (fun _ => Ok flat_scan) split_first)
                        demo_image demo_mask [2; 1]).
  vm_compute. reflexivity.
Defined.

Lemma tally_binary (v : list Z) :
  Forall (fun l => l = 0 \/ l = 1) v ->
  fold_right tally [] v
  = match count_occ Z.eq_dec v 0 with
    | O => []
    | S k => [(0, Z.of_nat (S k))]
    end
    ++ match count_occ Z.eq_dec v 1 with
       | O => []
       | S k => [(1, Z.of_nat (S k))]
       end.
Proof.
  induction 1 as [| x v Hx _ IH]; [reflexivity |].
  cbn [fold_right]. rewrite IH. clear IH.
  destruct Hx as [-> | ->].
  - rewrite count_occ_cons_eq by reflexivity.
    rewrite (count_occ_cons_neq Z.eq_dec v (x := 0) (y := 1)) by discriminate.
    destruct (count_occ Z.eq_dec v 0) as [| k0], (count_occ Z.eq_dec v 1) as [| k1];
      cbn [app tally Z.eqb Z.ltb Z.compare];
      first [reflexivity | rewrite (Nat2Z.inj_succ (S _)); reflexivity].
  - rewrite (count_occ_cons_neq Z.eq_dec v (x := 1) (y := 0)) by discriminate.
    rewrite count_occ_cons_eq by reflexivity.
    destruct (count_occ Z.eq_dec v 0) as [| k0], (count_occ Z.eq_dec v 1) as [| k1];
      cbn [app tally Z.eqb Z.ltb Z.compare];
      first [reflexivity | rewrite (Nat2Z.inj_succ (S _)); reflexivity].
Qed.

Lemma count_binary_total (v : list Z) :
  Forall (fun l => l = 0 \/ l = 1) v ->
  (count_occ Z.eq_dec v 0%Z + count_occ Z.eq_dec v 1%Z = length v)%nat.
Proof.
  induction 1 as [| x v [-> | ->] _ IH]; [reflexivity | |].
  - rewrite count_occ_cons_eq by reflexivity.
    rewrite (count_occ_cons_neq Z.eq_dec v (x := 0) (y := 1)) by discriminate.
    simpl length. lia.
  - rewrite (count_occ_cons_neq Z.eq_dec v (x := 1) (y := 0)) by discriminate.
    rewrite count_occ_cons_eq by reflexivity.
    simpl length. lia.
Qed.

(** On at least two triples and labels 0 or 1, the canonicalization returns
    the labels or their complement. *)
Lemma which_is_more_green_binary (rgb_input : list triple) (km : kmeans_model) :
  (2 <= length rgb_input)%nat ->
  length (labels_ km) = length rgb_input ->
  Forall (fun l => l = 0 \/ l = 1) (labels_ km) ->
  exists out,
    which_is_more_green rgb_input km = Ok out
    /\ (labels_ out = labels_ km
        \/ labels_ out = map (fun l => 1 - l) (labels_ km)).
Proof.
  intros Hn Hlen Hbin. unfold which_is_more_green. cbv zeta.
  match goal with
  | |- context [bool_index1 ?v ?m] =>
      destruct (bool_index1_same_length v m) as (sel0 & ->);
      [now rewrite !length_map |]
  end.
  match goal with
  | |- context [int_index ?v ?idx] =>
      destruct (int_index_in_range v idx) as (sel1 & ->)
  end.
  { eapply Forall_impl; [| exact Hbin].
    intros l Hl. rewrite length_map. unfold triple in *.
    destruct Hl as [-> | ->]; lia. }
  simpl. destruct (flt (np_mean sel0) (np_mean sel1)).
  - eexists. split; [reflexivity |]. right. simpl. now apply relabel_swap.
  - exists km. split; [reflexivity |]. now left.
Qed.

Lemma both_labels_two (labels : list Z) :
  In 0 labels -> In 1 labels -> (2 <= length labels)%nat.
Proof.
  destruct labels as [| a [| b labels]]; simpl; try tauto; [| lia].
  intros [Ha | []] [Hb | []]. lia.
Qed.

Lemma column_stack3_same_length {A B C} (a : list A) (b : list B) (c : list C) :
  length a = length b -> length b = length c ->
  exists d, column_stack3 a b c = Ok d /\ map snd d = c.
Proof.
  intros Hab Hbc. unfold column_stack3. rewrite Hab, Hbc, !Nat.eqb_refl. simpl.
  eexists. split; [reflexivity |].
  assert (Hlen : length (combine a b) = length c) by (rewrite length_combine; lia).
  revert Hlen. generalize (combine a b) as ab. clear.
  intros ab. revert c. induction ab as [| x ab IH]; intros [| y c] Hlen; simpl in *;
    try discriminate; [reflexivity |].
  f_equal. apply IH. lia.
Qed.

(** The counting once the clustering has answered and the labels are
    canonical. *)
Lemma count_segments_clustered {tk : Toolkit} (input_image : image)
      (image_segments filtered : grid Z) (rgb : list triple) (km out : kmeans_model) :
  remove_bottom_edge image_segments = Ok filtered ->
  mean_intensity input_image filtered = Ok rgb ->
  rgb <> [] ->
  KMeans_fit 2 rgb = Ok km ->
  which_is_more_green rgb km = Ok out ->
  length (labels_ km) = length rgb ->
  count_segments input_image image_segments
  = Ok (snd (np_unique_counts (labels_ out))).
Proof.
  intros Hfilter Hmean Hne Hfit Hout Hlen.
  destruct (mean_intensity_value _ _ _ Hmean) as (top & Htop & Hrgb & _).
  unfold count_segments. rewrite Hfilter. simpl.
  rewrite (find_centers_spec filtered top Htop). simpl. rewrite Hmean. simpl.
  destruct rgb as [| t rgb']; [contradiction |]. cbn [length Nat.eqb].
  unfold kmeans_from_rgb. cbv zeta. rewrite Hfit. simpl. rewrite Hout. simpl.
  set (centers := map (center_of_label filtered filtered) (surviving_labels filtered top)).
  assert (Hcenters : length centers = length (t :: rgb'))
    by (unfold centers; rewrite Hrgb, !length_map; reflexivity).
  assert (Hunzip : unzip_centers centers = Ok (map fst centers, map snd centers))
    by (unfold unzip_centers; destruct centers; [discriminate | reflexivity]).
  rewrite Hunzip. cbn [bind fst snd].
  destruct (column_stack3_same_length (map snd centers) (map fst centers) (labels_ out))
    as (data & -> & Hdata).
  { now rewrite !length_map. }
  { rewrite (which_is_more_green_length _ _ _ Hout), Hlen, length_map. exact Hcenters. }
  cbn [bind]. rewrite Hdata.
  destruct (np_unique_counts (labels_ out)) as [unique counts]. reflexivity.
Qed.

(** X13.  When the clustering answers with labels 0 and 1 and uses both, the
    counting returns exactly two counts, both positive: first the number of
    triples in group 0 after the canonicalization, then the number in group
    1; together they are the number of triples. *)
Theorem two_groups_two_counts {tk : Toolkit} (input_image : image)
        (image_segments filtered : grid Z) (rgb : list triple) (km : kmeans_model) :
  remove_bottom_edge image_segments = Ok filtered ->
  mean_intensity input_image filtered = Ok rgb ->
  KMeans_fit 2 rgb = Ok km ->
  length (labels_ km) = length rgb ->
  Forall (fun l => l = 0 \/ l = 1) (labels_ km) ->
  In 0 (labels_ km) -> In 1 (labels_ km) ->
  exists out,
    which_is_more_green rgb km = Ok out
    /\ count_segments input_image image_segments
       = Ok [Z.of_nat (count_occ Z.eq_dec (labels_ out) 0);
             Z.of_nat (count_occ Z.eq_dec (labels_ out) 1)]
    /\ (0 < count_occ Z.eq_dec (labels_ out) 0%Z)%nat
    /\ (0 < count_occ Z.eq_dec (labels_ out) 1%Z)%nat
    /\ (count_occ Z.eq_dec (labels_ out) 0%Z + count_occ Z.eq_dec (labels_ out) 1%Z
        = length rgb)%nat.
Proof.
  intros Hfilter Hmean Hfit Hlen Hbin H0 H1.
  pose proof (both_labels_two _ H0 H1) as Htwo.
  destruct (which_is_more_green_binary rgb km) as (out & Hout & Hcases);
    [lia | exact Hlen | exact Hbin |].
  assert (Hout_bin : Forall (fun l => l = 0 \/ l = 1) (labels_ out)
                     /\ In 0 (labels_ out) /\ In 1 (labels_ out)).
  { destruct Hcases as [-> | ->]; [tauto |]. repeat split.
    - apply Forall_forall. intros l Hl. apply in_map_iff in Hl.
      destruct Hl as (l' & <- & Hl'). rewrite Forall_forall in Hbin.
      destruct (Hbin l' Hl') as [-> | ->]; [right | left]; reflexivity.
    - apply in_map_iff. exists 1. split; [reflexivity | exact H1].
    - apply in_map_iff. exists 0. split; [reflexivity | exact H0]. }
  destruct Hout_bin as (Hbin' & H0' & H1').
  apply (count_occ_In Z.eq_dec) in H0', H1'.
  exists out. split; [exact Hout |].
  split; [| split; [lia | split; [lia |]]].
  - rewrite (count_segments_clustered input_image image_segments filtered rgb km out);
      try assumption.
    + unfold np_unique_counts. cbn [snd]. rewrite (tally_binary _ Hbin').
      destruct (count_occ Z.eq_dec (labels_ out) 0) as [| k0]; [lia |].
      destruct (count_occ Z.eq_dec (labels_ out) 1) as [| k1]; [lia |].
      reflexivity.
    + intros Hnil. rewrite Hnil in Hlen. simpl in Hlen. lia.
  - rewrite (count_binary_total _ Hbin'), (which_is_more_green_length _ _ _ Hout).
    exact Hlen.
Qed.

(** Three kernels away from the bottom row, the first set apart by the
    clustering. *)
Lemma two_groups_two_counts_witness :
  exists out,
    which_is_more_green (map (label_triple demo_image demo_mask) [1; 2; 3])
                        {| labels_ := [0; 1; 1] |} = Ok out
    /\ @count_segments (bench_toolkit (fun _ => Ok flat_scan) split_first)
                       demo_image demo_mask
       = Ok [Z.of_nat (count_occ Z.eq_dec (labels_ out) 0);
             Z.of_nat (count_occ Z.eq_dec (labels_ out) 1)]
    /\ (0 < count_occ Z.eq_dec (labels_ out) 0%Z)%nat
    /\ (0 < count_occ Z.eq_dec (labels_ out) 1%Z)%nat
    /\ (count_occ Z.eq_dec (labels_ out) 0%Z + count_occ Z.eq_dec (labels_ out) 1%Z
        = length (map (label_triple demo_image demo_mask) [1%Z; 2%Z; 3%Z]))%nat.
Proof.
  refine (@two_groups_two_counts (bench_toolkit (fun _ => Ok flat_scan) split_first)
            demo_image demo_mask
            (grid_map (zero_if (on_bottom_edge demo_mask)) demo_mask)
            (map (label_triple demo_image demo_mask) [1; 2; 3])
            {| labels_ := [0; 1; 1] |} _ _ _ _ _ _ _).
  - vm_compute. reflexivity.
  - vm_compute. reflexivity.
  - vm_compute. reflexivity.
  - reflexivity.
  - repeat (apply Forall_cons; [simpl; lia |]). apply Forall_nil.
  - simpl. tauto.
  - simpl. tauto.
Defined.

Lemma tally_constant {X} (l : Z) (x : X) (xs : list X) :
  fold_right tally [] (map (fun _ => l) (x :: xs))
  = [(l, Z.of_nat (length (x :: xs)))].
Proof.
  induction xs as [| y xs IH]; [reflexivity |].
  change (fold_right tally [] (map (fun _ : X => l) (x :: y :: xs)))
    with (tally l (fold_right tally [] (map (fun _ : X => l) (x :: xs)))).
  rewrite IH. cbn [tally]. rewrite Z.eqb_refl.
  f_equal. f_equal. cbn [length]. lia.
Qed.

(** X14.  When the clustering puts all triples in group 0 (as scikit-learn
    does on identical samples), the counting returns a single count, the
    number of triples, and the batch loop, which reads a second count, raises
    IndexError. *)
Theorem one_group_one_count {tk : Toolkit} (input_image : image)
        (image_segments filtered : grid Z) (rgb : list triple) (km : kmeans_model) :
  remove_bottom_edge image_segments = Ok filtered ->
  mean_intensity input_image filtered = Ok rgb ->
  rgb <> [] ->
  KMeans_fit 2 rgb = Ok km ->
  labels_ km = map (fun _ => 0) rgb ->
  count_segments input_image image_segments = Ok [Z.of_nat (length rgb)]
  /\ getitem [Z.of_nat (length rgb)] 1 = Raise IndexError.
Proof.
  intros Hfilter Hmean Hne Hfit Hzeros. split; [| reflexivity].
  destruct rgb as [| t rgb']; [contradiction |].
  assert (Hout : exists out l,
             which_is_more_green (t :: rgb') km = Ok out
             /\ labels_ out = map (fun _ => l) (t :: rgb')).
  { unfold which_is_more_green. cbv zeta. rewrite Hzeros.
    match goal with
    | |- context [bool_index1 ?v ?m] =>
        destruct (bool_index1_same_length v m) as (sel0 & ->);
        [now rewrite !length_map |]
    end.
    match goal with
    | |- context [int_index ?v ?idx] =>
        destruct (int_index_in_range v idx) as (sel1 & ->)
    end.
    { apply Forall_forall. intros i Hi. apply in_map_iff in Hi.
      destruct Hi as (_ & <- & _). rewrite length_map. simpl length. lia. }
    cbn [bind]. destruct (flt _ _).
    - eexists. exists 1. split; [reflexivity |]. cbn [labels_].
      unfold relabel. rewrite !map_map. reflexivity.
    - exists km, 0. split; [reflexivity | exact Hzeros]. }
  destruct Hout as (out & l & Hout & Hlabels).
  rewrite (count_segments_clustered input_image image_segments filtered
             (t :: rgb') km out); try assumption.
  - unfold np_unique_counts. cbn [snd]. rewrite Hlabels, tally_constant. reflexivity.
  - rewrite Hzeros. apply length_map.
Qed.

(** Two kernels with the same mean intensities. *)
Lemma one_group_one_count_witness :
  @count_segments
    (bench_toolkit (fun _ => Ok flat_scan) (fun _ X => Ok {| labels_ := map (fun _ => 0) X |}))
    flat_scan [[1; 0; 2]; [0; 0; 0]]
  = Ok [Z.of_nat (length (map (label_triple flat_scan [[1; 0; 2]; [0; 0; 0]]) [1; 2]))]
  /\ getitem [Z.of_nat (length (map (label_triple flat_scan [[1; 0; 2]; [0; 0; 0]]) [1; 2]))] 1
     = Raise IndexError.
Proof.
  refine (@one_group_one_count
            (bench_toolkit (fun _ => Ok flat_scan)
                           (fun _ X => Ok {| labels_ := map (fun _ => 0) X |}))
            flat_scan [[1; 0; 2]; [0; 0; 0]] [[1; 0; 2]; [0; 0; 0]]
            (map (label_triple flat_scan [[1; 0; 2]; [0; 0; 0]]) [1; 2])
            {| labels_ := [0; 0] |} _ _ _ _ _).
  - vm_compute. reflexivity.
  - vm_compute. reflexivity.
  - discriminate.
  - reflexivity.
  - reflexivity.
Defined.

(** ** The batch loop *)

Lemma run_batch_step {tk : Toolkit} (args : arguments) (images : list string)
      (rows : list (string * Z * Z)) :
  for_each
    (fun rows image =>       let name := image_name image in       count_kernels_output <-         count_kernels image (image_crop_percentage args) (h_dome_value args)                       (watershed_low args) (watershed_high args) ;;       fluor <- getitem count_kernels_output 0 ;;       nonfluor <- getitem count_kernels_output 1 ;;       Ok (rows ++ [(name, fluor, nonfluor)]))
    images rows
  = match images with
    | [] => Ok rows
    | image :: rest =>
        row <- batch_row args image ;;
        for_each
          (fun rows image =>
             let name := image_name image in
             count_kernels_output <-
               count_kernels image (image_crop_percentage args) (h_dome_value args)
                             (watershed_low args) (watershed_high args) ;;
             fluor <- getitem count_kernels_output 0 ;;
             nonfluor <- getitem count_kernels_output 1 ;;
             Ok (rows ++ [(name, fluor, nonfluor)]))
          rest (rows ++ [row])
    end.
Proof.
  destruct images as [| image rest]; [reflexivity |].
  cbn [for_each]. unfold batch_row. cbv zeta.
  destruct (count_kernels image _ _ _ _) as [out |]; cbn [bind]; [| reflexivity].
  destruct (getitem out 0) as [fluor |]; cbn [bind]; [| reflexivity].
  destruct (getitem out 1) as [nonfluor |]; cbn [bind]; reflexivity.
Qed.

Lemma run_batch_from {tk : Toolkit} (args : arguments) (images : list string) :
  forall acc rows,
    for_each
      (fun rows image =>
         let name := image_name image in
         count_kernels_output <-
           count_kernels image (image_crop_percentage args) (h_dome_value args)
                         (watershed_low args) (watershed_high args) ;;
         fluor <- getitem count_kernels_output 0 ;;
         nonfluor <- getitem count_kernels_output 1 ;;
         Ok (rows ++ [(name, fluor, nonfluor)]))
      images acc = Ok rows ->
    exists new,
      rows = acc ++ new
      /\ Forall2 (fun image row => batch_row args image = Ok row) images new.
Proof.
  induction images as [| image rest IH]; intros acc rows Hrun;
    rewrite run_batch_step in Hrun.
  - injection Hrun as <-. exists []. now rewrite app_nil_r.
  - destruct (batch_row args image) as [row |] eqn:Hrow; cbn [bind] in Hrun;
      [| discriminate].
    destruct (IH _ _ Hrun) as (new & -> & Hnew).
    exists (row :: new). rewrite <- app_assoc. split; [reflexivity |].
    constructor; assumption.
Qed.

(** X15.  A batch that ends reports exactly one row per image of the list, in
    the order of the list: the name of the image (the last component of its
    path, without the extension), then the first and the second count that
    [count_kernels] returned for it. *)
Theorem run_batch_rows {tk : Toolkit} (args : arguments) (images : list string)
        (rows : list (string * Z * Z)) :
  run_batch args images = Ok rows ->
  map (fun row => fst (fst row)) rows = map image_name images
  /\ Forall2 (fun image row =>
                exists out,
                  count_kernels image (image_crop_percentage args)
                                (h_dome_value args) (watershed_low args)
                                (watershed_high args) = Ok out
                  /\ getitem out 0 = Ok (snd (fst row))
                  /\ getitem out 1 = Ok (snd row))
             images rows.
Proof.
  intros Hrun. unfold run_batch in Hrun.
  destruct (run_batch_from args images [] rows Hrun) as (new & -> & Hnew).
  cbn [app]. clear Hrun.
  induction Hnew as [| image row images new Hrow _ [IHnames IHrows]];
    [split; [reflexivity | constructor] |].
  unfold batch_row in Hrow.
  destruct (count_kernels image _ _ _ _) as [out |] eqn:Hout; cbn [bind] in Hrow;
    [| discriminate].
  destruct (getitem out 0) as [fluor |] eqn:H0; cbn [bind] in Hrow; [| discriminate].
  destruct (getitem out 1) as [nonfluor |] eqn:H1; cbn [bind] in Hrow; [| discriminate].
  injection Hrow as <-. split.
  - cbn [map fst]. now rewrite IHnames.
  - constructor; [| exact IHrows]. cbn [fst snd]. eauto.
Qed.

Lemma run_batch_rows_witness :
  map (fun row => fst (fst row)) [("ear_1"%string, 0, 0)]
  = map image_name ["scans/ear_1.png"%string]
  /\ Forall2 (fun image row =>
                exists out,
                  @count_kernels (bench_toolkit (fun _ => Ok flat_scan) split_first)
                                 image
                                 (image_crop_percentage (parse_args plain_command_line))
                                 (h_dome_value (parse_args plain_command_line))
                                 (watershed_low (parse_args plain_command_line))
                                 (watershed_high (parse_args plain_command_line))
                  = Ok out
                  /\ getitem out 0 = Ok (snd (fst row))
                  /\ getitem out 1 = Ok (snd row))
             ["scans/ear_1.png"%string] [("ear_1"%string, 0, 0)].
Proof.
  apply (@run_batch_rows (bench_toolkit (fun _ => Ok flat_scan) split_first)
                         (parse_args plain_command_line) ["scans/ear_1.png"%string]).
  vm_compute. reflexivity.
Defined.

(** X16.  The batch stops at the first image that fails, with the exception
    of that image: the rows of the images done before it are lost, and the
    images after it are not read. *)
Theorem run_batch_aborts {tk : Toolkit} (args : arguments)
        (done rest : list string) (image : string) (e : exn) :
  Forall (fun i => exists row, batch_row args i = Ok row) done ->
  batch_row args image = Raise e ->
  run_batch args (done ++ image :: rest) = Raise e.
Proof.
  intros Hdone Hfail. unfold run_batch.
  match goal with
  | |- for_each ?body _ _ = _ =>
      assert (Hany : forall acc, for_each body (done ++ image :: rest) acc = Raise e);
      [| apply Hany]
  end.
  induction Hdone as [| i done (row & Hrow) _ IH]; intros acc;
    rewrite run_batch_step; cbn [app].
  - now rewrite Hfail.
  - rewrite Hrow. cbn [bind]. apply IH.
Qed.

(** A batch of three scans of which the second cannot be read. *)
Lemma run_batch_aborts_witness :
  @run_batch (bench_toolkit (read_all_but "b.png") split_first)
             (parse_args plain_command_line)
             (["a.png"%string] ++ "b.png"%string :: ["c.png"%string])
  = Raise LibraryError.
Proof.
  apply (@run_batch_aborts (bench_toolkit (read_all_but "b.png") split_first)
                           (parse_args plain_command_line)
                           ["a.png"%string] ["c.png"%string] "b.png"%string).
  - apply Forall_cons; [| apply Forall_nil].
    exists ("a"%string, 0, 0). vm_compute. reflexivity.
  - vm_compute. reflexivity.
Defined.

(** ** Image paths and names *)

Lemma endswith_append (a b : string) : endswith (a ++ b)%string b = true.
Proof.
  induction a as [| x a IH]; cbn [append endswith].
  - destruct b; cbn [endswith]; rewrite String.eqb_refl; reflexivity.
  - rewrite IH. apply orb_true_r.
Qed.

Lemma endswith_split (s suffix : string) :
  endswith s suffix = true -> exists a, s = (a ++ suffix)%string.
Proof.
  induction s as [| x s IH]; cbn [endswith].
  - rewrite orb_false_r. intros H. apply String.eqb_eq in H. subst. now exists ""%string.
  - intros H. apply orb_true_iff in H. destruct H as [H | H].
    + apply String.eqb_eq in H. rewrite <- H. now exists ""%string.
    + destruct (IH H) as (a & ->). now exists (String x a).
Qed.

Lemma occurs_append (c : Ascii.ascii) (a b : string) :
  occurs c (a ++ b)%string = occurs c a || occurs c b.
Proof.
  induction a as [| x a IH]; simpl; [reflexivity |].
  now rewrite IH, orb_assoc.
Qed.

Lemma after_last_none (c : Ascii.ascii) (s : string) :
  occurs c s = false -> after_last c s = s.
Proof.
  destruct s as [| x s]; simpl; [reflexivity |].
  intros H. apply orb_false_iff in H. destruct H as [Hx Hs]. now rewrite Hs, Hx.
Qed.

Lemma after_last_append (c : Ascii.ascii) (a b : string) :
  occurs c b = false -> after_last c (a ++ String c b)%string = b.
Proof.
  intros Hb. induction a as [| x a IH]; simpl.
  - now rewrite Hb, Ascii.eqb_refl.
  - rewrite occurs_append. simpl. rewrite Ascii.eqb_refl, orb_true_r. exact IH.
Qed.

Lemma before_last_append (c : Ascii.ascii) (a b : string) :
  occurs c b = false -> before_last c (a ++ String c b)%string = a.
Proof.
  intros Hb. induction a as [| x a IH]; simpl.
  - now rewrite Hb.
  - rewrite occurs_append. simpl. rewrite Ascii.eqb_refl, orb_true_r. now rewrite IH.
Qed.

Lemma append_assoc (a b c : string) : ((a ++ b) ++ c = a ++ (b ++ c))%string.
Proof. induction a as [| x a IH]; simpl; [reflexivity | now rewrite IH]. Qed.

Lemma prefix_slash_occurs (b : string) : prefix "/" b = true -> occurs "/"%char b = true.
Proof.
  destruct b as [| x b]; cbn [prefix occurs]; [discriminate |].
  destruct (Ascii.ascii_dec "/"%char x) as [<- | Hne]; [reflexivity | discriminate].
Qed.

(** The last component of a joined path is the joined file name. *)
Lemma path_tail_join (d file : string) :
  occurs "/"%char file = false -> path_tail (path_join d file) = file.
Proof.
  intros Hfile. unfold path_tail, path_join.
  destruct (prefix "/" file) eqn:Hprefix.
  { apply prefix_slash_occurs in Hprefix. congruence. }
  destruct (String.eqb d "") eqn:Hd; simpl.
  { apply String.eqb_eq in Hd. subst d. simpl. now apply after_last_none. }
  destruct (endswith d "/") eqn:Hend.
  - apply endswith_split in Hend. destruct Hend as (a & ->).
    rewrite append_assoc. simpl. now apply after_last_append.
  - simpl. now apply after_last_append.
Qed.

(** X18.  A file of the directory whose name is [stem ++ ".png"] is among
    the images that the script collects, and it is reported under the name
    [stem], whatever the directory; unless the stem is empty or made of dots
    only, in which case the name keeps its extension. *)
Theorem png_file_name (input_directory stem : string) (listing : list string) :
  occurs "/"%char stem = false ->
  In (stem ++ ".png")%string listing ->
  In (path_join input_directory (stem ++ ".png")) (list_images input_directory listing)
  /\ image_name (path_join input_directory (stem ++ ".png"))
     = if all_dots stem then (stem ++ ".png")%string else stem.
Proof.
  intros Hstem Hin.
  assert (Hfile : occurs "/"%char (stem ++ ".png") = false)
    by (rewrite occurs_append, Hstem; reflexivity).
  split.
  - unfold list_images. apply in_map, filter_In. split; [exact Hin |].
    apply endswith_append.
  - unfold image_name. rewrite (path_tail_join _ _ Hfile).
    unfold splitext_root. rewrite (after_last_none _ _ Hfile).
    rewrite occurs_append. simpl occurs. rewrite orb_true_r.
    change ".png"%string with (String "."%char "png").
    rewrite before_last_append by reflexivity. reflexivity.
Qed.

Lemma png_file_name_witness :
  In (path_join "scans" ("ear_1" ++ ".png")) (list_images "scans" ["notes.txt"; "ear_1.png"])%string
  /\ image_name (path_join "scans" ("ear_1" ++ ".png"))
     = if all_dots "ear_1" then ("ear_1" ++ ".png")%string else "ear_1"%string.
Proof.
  apply (png_file_name "scans" "ear_1" ["notes.txt"; "ear_1.png"]%string).
  - reflexivity.
  - simpl. tauto.
Defined.
